(** * socket.io-monitor: the server side ([server.js])

    A shallow embedding of [server.js] and the properties of its four parts:
    the interceptor ([monkeyPatch] and the captures of [initEmitter]), the
    snapshot aggregator ([getState]), the authentication handshake of
    [connHandler] and the roster with its dispatcher ([addProto],
    [removeProto], [dispatch]); and of the start of the TCP server
    ([initServer]).

    JavaScript calls are computations in a state-and-exception monad: a call
    either returns a value or throws, and the side effects made before a
    throw stay. *)

From stdpp Require Import base list strings gmap pretty.
From Stdlib Require Import ZArith NArith Ascii Lia Sorted.

Local Open Scope string_scope.
Local Open Scope Z_scope.
Local Open Scope list_scope.

#[local] Set Warnings "-register-all".

(** ** JavaScript values, exceptions, computations *)

Module JS.

(** Values that travel through the interceptor and over the wire.  Arrays and
    plain objects are given by their contents, in [Object.keys] order; [VFun]
    and [VRef] are opaque references (a callback, a session object). *)
Inductive Val : Type :=
| VUndefined
| VNull
| VBool (b : bool)
| VNum (n : Z)
| VStr (s : string)
| VArr (items : list Val)
| VObj (fields : list (string * Val))
| VFun (f : nat)
| VRef (r : nat).

Inductive Exn : Type :=
| TypeError (msg : string)
| Error (msg : string).

(** [err.message] *)
Definition message (e : Exn) : string :=
  match e with TypeError m => m | Error m => m end.

Inductive result (A : Type) : Type :=
| Ok (a : A)
| Throw (e : Exn).
Arguments Ok {A} a.
Arguments Throw {A} e.

(** A computation over a world [W]: the outcome and the world it leaves. *)
Definition M (W A : Type) : Type := W → result A * W.

#[global] Instance M_ret {W} : MRet (M W) := λ A a w, (Ok a, w).

#[global] Instance M_bind {W} : MBind (M W) := λ A B k c w,
  match c w with
  | (Ok a, w') => k a w'
  | (Throw e, w') => (Throw e, w')
  end.

Definition throw {W A} (e : Exn) : M W A := λ w, (Throw e, w).

(** [try { c } catch (err) { h(err) }] *)
Definition try_catch {W A} (c : M W A) (h : Exn → M W A) : M W A := λ w,
  match c w with
  | (Ok a, w') => (Ok a, w')
  | (Throw e, w') => h e w'
  end.

Definition modify {W} (f : W → W) : M W () := λ w, (Ok (), f w).
Definition gets {W A} (f : W → A) : M W A := λ w, (Ok (f w), w).

(** [xs.forEach(f)] over the array as it is when the loop starts. *)
Fixpoint forEach {W A} (f : A → M W ()) (xs : list A) : M W () :=
  match xs with
  | [] => mret ()
  | x :: xs' => _ ← f x; forEach f xs'
  end.

(** Truthiness, [if (v)] and [!v]. *)
Definition truthy (v : Val) : bool :=
  match v with
  | VUndefined | VNull => false
  | VBool b => b
  | VNum n => negb (Z.eqb n 0)
  | VStr s => negb (String.eqb s "")
  | VArr _ | VObj _ | VFun _ | VRef _ => true
  end.

(** [a === b].  Primitives compare by value and references by identity.  An
    array or object literal of the model stands for a value of its own: two
    of them are never the same object. *)
Definition strict_eq (a b : Val) : bool :=
  match a, b with
  | VUndefined, VUndefined => true
  | VNull, VNull => true
  | VBool x, VBool y => Bool.eqb x y
  | VNum x, VNum y => Z.eqb x y
  | VStr x, VStr y => String.eqb x y
  | VFun x, VFun y => Nat.eqb x y
  | VRef x, VRef y => Nat.eqb x y
  | _, _ => false
  end.

(** [args[i]], [undefined] past the end. *)
Definition arg (i : nat) (args : list Val) : Val := default VUndefined (args !! i).

End JS.
Export JS.

(** ** The interceptor: [monkeyPatch] *)

Module Patch.

(** A method takes its receiver [this] and its argument list. *)
Abbreviation Method W := (Val → list Val → M W Val).

(** [object[method](...args)] with receiver [this]. *)
Definition invoke {W} (object : gmap string (Method W)) (method : string)
    (this : Val) (args : list Val) : M W Val :=
  match object !! method with
  | Some f => f this args
  | None => throw (TypeError "object[method] is not a function")
  end.

(** [const orig = object[method]; object[method] = function (...args) {
      fn.apply(this, args); return orig.apply(this, args) }] *)
Definition monkeyPatch {W} (object : gmap string (Method W)) (method : string)
    (fn : Method W) : gmap string (Method W) :=
  let orig := object !! method in
  <[method := λ this args,
      _ ← fn this args;
      match orig with
      | Some o => o this args
      | None => throw (TypeError "Cannot read properties of undefined (reading 'apply')")
      end]> object.

(** Monitoring attached: a list of captures installed one after the other. *)
Definition attach {W} (object : gmap string (Method W))
    (captures : list (string * Method W)) : gmap string (Method W) :=
  foldl (λ o c, monkeyPatch o c.1 c.2) object captures.

(** A hub operation as the hub's own code calls it. *)
Record Call : Type := mkCall {
  call_method : string;
  call_this : Val;
  call_args : list Val
}.

(** The hub makes the calls one after the other; every call's outcome (the
    value returned or the error thrown) is what its caller observes. *)
Fixpoint run_calls {W} (object : gmap string (Method W)) (calls : list Call)
    (w : W) : list (result Val) * W :=
  match calls with
  | [] => ([], w)
  | c :: cs =>
      let '(r, w1) := invoke object (call_method c) (call_this c) (call_args c) w in
      let '(rs, w2) := run_calls object cs w1 in
      (r :: rs, w2)
  end.

Section Preservation.
Context {W H : Type}.
(** The part of the world that belongs to the hub. *)
Variable view : W → H.

(** A hub operation sees and changes the hub's part of the world only. *)
Definition hub_local (f : Method W) : Prop :=
  ∀ this args w1 w2, view w1 = view w2 →
    (f this args w1).1 = (f this args w2).1 ∧
    view (f this args w1).2 = view (f this args w2).2.

(** The capture returns normally on these arguments and leaves the hub's
    part of the world as it was. *)
Definition quiet_at (fn : Method W) (this : Val) (args : list Val) : Prop :=
  ∀ w, ∃ v w', fn this args w = (Ok v, w') ∧ view w' = view w.

(** The two objects answer one call alike from worlds with the same hub. *)
Definition agree_on (c : Call) (o1 o2 : gmap string (Method W)) : Prop :=
  ∀ w1 w2, view w1 = view w2 →
    (invoke o1 (call_method c) (call_this c) (call_args c) w1).1
      = (invoke o2 (call_method c) (call_this c) (call_args c) w2).1 ∧
    view (invoke o1 (call_method c) (call_this c) (call_args c) w1).2
      = view (invoke o2 (call_method c) (call_this c) (call_args c) w2).2.
End Preservation.

End Patch.
Export Patch.

(** ** The snapshot aggregator: [getState] *)

Module Snapshot.

(** A JavaScript object used as a dictionary: its own properties in the order
    [Object.keys] lists them, array indices first, in ascending order, then
    the other keys in the order they were created.  A key is bound once;
    [prop] reads an own property. *)
Definition Object_keys {A} (o : list (string * A)) : list string := o.*1.

Fixpoint prop {A} (o : list (string * A)) (k : string) : option A :=
  match o with
  | [] => None
  | (k', v) :: o' => if String.eqb k' k then Some v else prop o' k
  end.

(** The properties a plain object inherits from [Object.prototype].  Each
    holds a function, and [__proto__] the prototype itself: a read of one of
    these names on an object that has no own property of the name gives a
    truthy value. *)
Definition Object_prototype : list string :=
  ["constructor"; "__defineGetter__"; "__defineSetter__"; "hasOwnProperty";
   "__lookupGetter__"; "__lookupSetter__"; "isPrototypeOf"; "propertyIsEnumerable";
   "toString"; "valueOf"; "__proto__"; "toLocaleString"].

Definition inherited (k : string) : bool := existsb (String.eqb k) Object_prototype.

(** The value of a string of decimal digits. *)
Definition digit (c : ascii) : option N :=
  let n := N_of_ascii c in
  if (48 <=? n)%N && (n <=? 57)%N then Some (n - 48)%N else None.

Fixpoint digits (s : string) (acc : N) : option N :=
  match s with
  | EmptyString => Some acc
  | String c s' =>
      match digit c with
      | Some d => digits s' (10 * acc + d)%N
      | None => None
      end
  end.

(** A key that is an array index: the decimal form, without leading zeros,
    of an integer from 0 to 2^32 - 2. *)
Definition array_index (k : string) : option N :=
  match k with
  | EmptyString => None
  | String "0"%char EmptyString => Some 0%N
  | String "0"%char _ => None
  | _ =>
      match digits k 0 with
      | Some n => if (n <? 4294967295)%N then Some n else None
      | None => None
      end
  end.

(** A new own property takes its place in [Object.keys] order: an array index
    goes before the first key that is a larger index or no index at all, any
    other key goes to the end. *)
Fixpoint add_key {A} (o : list (string * A)) (k : string) (v : A) : list (string * A) :=
  match o with
  | [] => [(k, v)]
  | (k', v') :: o' =>
      match array_index k, array_index k' with
      | Some i, Some i' =>
          if (i <? i')%N then (k, v) :: o else (k', v') :: add_key o' k v
      | Some _, None => (k, v) :: o
      | None, _ => (k', v') :: add_key o' k v
      end
  end.

(** [o[k] = v] on a plain object, for a value [v] that is not an object (the
    flag [true] of [getState]).  An own property is overwritten where it is.
    With no own property of the name, [__proto__] is the accessor inherited
    from [Object.prototype], whose setter ignores such a value: no property
    is created.  Any other key becomes a new own property. *)
Definition assign {A} (o : list (string * A)) (k : string) (v : A) : list (string * A) :=
  match prop o k with
  | Some _ => map (λ kv, if String.eqb kv.1 k then (kv.1, v) else kv) o
  | None => if String.eqb k "__proto__" then o else add_key o k v
  end.

(** One entry of [io.sockets.adapter.rooms]: the membership flags by
    connection identity, and the room's member count. *)
Record Room : Type := mkRoom {
  room_sockets : list (string * bool);
  room_length : Z
}.

(** [info.sockets[id]] used as a condition.  The read finds the own property
    of that name, or else the property inherited from [Object.prototype],
    which is truthy; a name that is neither is [undefined]. *)
Definition active (info : Room) (id : string) : bool :=
  match prop (room_sockets info) id with
  | Some flag => flag
  | None => inherited id
  end.

Record RoomState : Type := mkRoomState {
  name : string;
  sockets : list string
}.

Record State : Type := mkState {
  st_rooms : list RoomState;
  st_sockets : list string
}.

(** [Object.keys(io.sockets.adapter.rooms).reduce((data, name) => {
       const info = io.sockets.adapter.rooms[name]
       return fn(data, info, name) }, initial)].
    Every key listed by [Object.keys] is bound, so the last branch is not
    taken. *)
Definition forEachRoom {D} (rooms : list (string * Room))
    (fn : D → Room → string → D) (initial : D) : D :=
  foldl (λ data name,
           match prop rooms name with
           | Some info => fn data info name
           | None => data
           end) initial (Object_keys rooms).

(** [Object.keys(info.sockets).filter(id => info.sockets[id])] *)
Definition active_sockets (info : Room) : list string :=
  List.filter (active info) (Object_keys (room_sockets info)).

(** The test [info.length === 1 && info.sockets[name]]. *)
Definition is_personal (info : Room) (name : string) : bool :=
  Z.eqb (room_length info) 1 && active info name.

Definition getState (rooms : list (string * Room)) : State :=
  let rooms' := forEachRoom rooms (λ (acc : list RoomState) info name,
      if is_personal info name then acc
      else acc ++ [mkRoomState name (active_sockets info)]) [] in
  let sockets' := Object_keys (forEachRoom rooms (λ (dict : list (string * bool)) info name,
      foldl (λ d id, if active info id then assign d id true else d)
            dict (Object_keys (room_sockets info))) []) in
  mkState rooms' sockets'.

(** The snapshot as the value sent in the [init] message. *)
Definition State_val (s : State) : Val :=
  VObj [("rooms", VArr (map (λ r, VObj [("name", VStr (name r));
                                        ("sockets", VArr (map VStr (sockets r)))])
                           (st_rooms s)));
        ("sockets", VArr (map VStr (st_sockets s)))].

(** A room's membership in the specification's words: a personal room has one
    member, active, whose identity is the room's name. *)
Definition personal_room (name : string) (info : Room) : Prop :=
  room_sockets info = [(name, true)].

(** The hub keeps [length] equal to the number of members of the room. *)
Definition room_counted (info : Room) : Prop :=
  room_length info = Z.of_nat (length (room_sockets info)).

(** The order in which [Object.keys] lists the keys of an object: an array
    index before a larger one, and before every key that is not an array
    index. *)
Definition key_before (k1 k2 : string) : Prop :=
  match array_index k1, array_index k2 with
  | Some i, Some j => (i ≤ j)%N
  | Some _, None => True
  | None, Some _ => False
  | None, None => True
  end.

(** A key that is not an array index. *)
Definition named (k : string) : bool :=
  match array_index k with Some _ => false | None => true end.

(** The elements of a list in the order of their first occurrence. *)
Definition first_seen (l : list string) : list string :=
  foldl (λ acc x, if bool_decide (x ∈ acc) then acc else acc ++ [x]) [] l.

(** The identities whose flag is set, room after room, as the hub lists
    them. *)
Definition seen (rooms : list (string * Room)) : list string :=
  rooms ≫= λ r, (List.filter (λ kv : string * bool, kv.2) (room_sockets r.2)).*1.

End Snapshot.
Export Snapshot.

(** ** Sessions, roster, dispatcher and handshake: [initEmitter], [connHandler] *)

Module Monitor.

(** A named message on a session's wire: [proto.emit(name, data)]. *)
Record Msg : Type := mkMsg {
  msg_name : string;
  msg_body : Val
}.

(** The listeners of the canonical event hub [e]: the debug taps of
    [initEmitter] and the retransmitters [dispatch(name)] of [connHandler]. *)
Inductive Handler : Type :=
| HDebug (name : string)
| HDispatch (name : string).

(** The listeners [connHandler] puts on a session, both with [once]: the one
    of the open mode, [() => init()], and the one that checks the password. *)
Inductive ProtoHandler : Type :=
| PasswordOpen
| PasswordCheck.

(** One accepted connection: the listeners of its session object [proto], the
    pending auth timer with its delay, the flag [authorized], and whether
    [socket.end()] was called. *)
Record Conn : Type := mkConn {
  conn_listeners : list (string * ProtoHandler);
  conn_timeout : option Z;
  conn_authorized : bool;
  conn_ended : bool
}.

(** The world of the monitor.  Sessions are numbered in the order their
    connections were accepted; [sent] is the log of the wire sends that
    returned, oldest first. *)
Record World : Type := mkWorld {
  rooms : list (string * Room);
  e_listeners : list (string * Handler);
  protos : list nat;
  conns : list Conn;
  immediates : list nat;
  sent : list (nat * Msg)
}.

Definition set_rooms (f : list (string * Room) → list (string * Room)) (w : World) : World :=
  mkWorld (f (rooms w)) (e_listeners w) (protos w) (conns w) (immediates w) (sent w).
Definition set_protos (f : list nat → list nat) (w : World) : World :=
  mkWorld (rooms w) (e_listeners w) (f (protos w)) (conns w) (immediates w) (sent w).
Definition set_conns (f : list Conn → list Conn) (w : World) : World :=
  mkWorld (rooms w) (e_listeners w) (protos w) (f (conns w)) (immediates w) (sent w).
Definition set_immediates (f : list nat → list nat) (w : World) : World :=
  mkWorld (rooms w) (e_listeners w) (protos w) (conns w) (f (immediates w)) (sent w).
Definition set_sent (f : list (nat * Msg) → list (nat * Msg)) (w : World) : World :=
  mkWorld (rooms w) (e_listeners w) (protos w) (conns w) (immediates w) (f (sent w)).

Definition set_listeners (f : list (string * ProtoHandler) → list (string * ProtoHandler))
    (c : Conn) : Conn :=
  mkConn (f (conn_listeners c)) (conn_timeout c) (conn_authorized c) (conn_ended c).
Definition set_timeout (t : option Z) (c : Conn) : Conn :=
  mkConn (conn_listeners c) t (conn_authorized c) (conn_ended c).
Definition set_authorized (b : bool) (c : Conn) : Conn :=
  mkConn (conn_listeners c) (conn_timeout c) b (conn_ended c).
Definition set_ended (b : bool) (c : Conn) : Conn :=
  mkConn (conn_listeners c) (conn_timeout c) (conn_authorized c) b.

(** What session [p] was sent, oldest first. *)
Definition outbox (p : nat) (w : World) : list Msg :=
  (List.filter (λ pm, Nat.eqb pm.1 p) (sent w)).*2.

(** The options [connHandler] reads, after their defaults
    ([password = null], [authTimeout = 1500]). *)
Record Options : Type := mkOptions {
  password : Val;
  authTimeout : Z
}.

Definition default_options : Options := mkOptions VNull 1500.

(** The names [connHandler] retransmits and [initEmitter] taps for debug. *)
Definition event_names : list string :=
  ["string"; "broadcast"; "join"; "leave"; "leaveAll"; "connect"; "disconnect";
   "emit"; "recv"].

Section Server.
(** The session object [proto] comes from [./protocol], which is not among
    these sources.  [wire p m] stands for what session [p]'s
    [proto.emit(name, data)] does with the message [m]: it returns, or it
    throws. *)
Variable wire : nat → Msg → result ().
Variable options : Options.

(** Modelled from the spec: [proto.emit(name, data)] of [./protocol] emits a
    named message with a payload on the session's wire.  A send that returns
    is entered in the log [sent]. *)
Definition proto_emit (proto : nat) (name : string) (data : Val) : M World () := λ w,
  match wire proto (mkMsg name data) with
  | Ok _ => (Ok (), set_sent (λ s, s ++ [(proto, mkMsg name data)]) w)
  | Throw e => (Throw e, w)
  end.

(** [const dispatch = name => data => { protos.forEach(proto => proto.emit(name, data)) }] *)
Definition dispatch (name : string) (data : Val) : M World () :=
  ps ← gets protos;
  forEach (λ proto, proto_emit proto name data) ps.

(** A debug tap takes the fields of its payload by a parameter pattern,
    [({ id, room }) => debug(...)], which throws on [undefined] and [null];
    what it logs is outside the model. *)
Definition run_handler (h : Handler) (data : Val) : M World () :=
  match h with
  | HDebug _ =>
      match data with
      | VUndefined | VNull => throw (TypeError "Cannot destructure the payload")
      | _ => mret ()
      end
  | HDispatch name => dispatch name data
  end.

(** [emitter.emit(name, data)]: the listeners of [name], in the order they
    were registered; a listener that throws ends the call. *)
Definition e_emit (name : string) (data : Val) : M World () :=
  ls ← gets e_listeners;
  forEach (λ l, run_handler l.2 data) (List.filter (λ l, String.eqb l.1 name) ls).

(** [addProto]: the roster grows at its end, and the [init] message is left
    to [setImmediate]. *)
Definition addProto (proto : nat) : M World () :=
  _ ← modify (set_protos (λ ps, ps ++ [proto]));
  modify (set_immediates (λ q, q ++ [proto])).

(** The callback [addProto] gives to [setImmediate]. *)
Definition addProto_immediate (proto : nat) : M World () :=
  try_catch
    (data ← gets (λ w, State_val (getState (rooms w)));
     _ ← e_emit "client" (VObj [("client", VRef proto); ("state", data)]);
     proto_emit proto "init" data)
    (λ err, proto_emit proto "error" (VStr (message err))).

(** [removeProto]: [protos = protos.filter(p => p !== proto)] and
    [proto.removeAllListeners()]. *)
Definition removeProto (proto : nat) : M World () :=
  _ ← modify (set_protos (List.filter (λ p, negb (Nat.eqb p proto))));
  modify (set_conns (alter (set_listeners (λ _, [])) proto)).

Definition update_conn (proto : nat) (f : Conn → Conn) : M World () :=
  modify (set_conns (alter f proto)).

(** [const init = () => { authorized = true; addProto(proto) }] *)
Definition init (proto : nat) : M World () :=
  _ ← update_conn proto (set_authorized true);
  addProto proto.

(** [socket.end()] *)
Definition socket_end (proto : nat) : M World () :=
  update_conn proto (set_ended true).

(** The callback given to [setTimeout]. *)
Definition on_timeout (proto : nat) : M World () :=
  _ ← proto_emit proto "auth"
        (VObj [("authorized", VBool false); ("error", VStr "TIMEOUT")]);
  socket_end proto.

(** The two [password] listeners. *)
Definition run_proto_handler (proto : nat) (h : ProtoHandler) (pwd : Val) : M World () :=
  match h with
  | PasswordOpen => init proto
  | PasswordCheck =>
      _ ← update_conn proto (set_timeout None);
      if strict_eq pwd (password options) then
        _ ← proto_emit proto "auth" (VObj [("authorized", VBool true)]);
        init proto
      else
        _ ← proto_emit proto "auth"
              (VObj [("authorized", VBool false); ("error", VStr "INVALID_PASSWORD")]);
        socket_end proto
  end.

(** The function [connHandler(emitter, options)] returns: the handler of the
    server's [connection] event, [socket => { ... }].  The session bound to
    the new socket gets the next number; its [close] listener is the [Close]
    step below. *)
Definition connection : M World nat :=
  proto ← gets (λ w, length (conns w));
  _ ← modify (set_conns (λ cs, cs ++ [mkConn [] None false false]));
  if negb (truthy (password options)) then
    _ ← proto_emit proto "reqAuth" (VBool false);
    _ ← update_conn proto (set_listeners (λ ls, ls ++ [("password", PasswordOpen)]));
    mret proto
  else
    _ ← proto_emit proto "reqAuth" (VBool true);
    _ ← update_conn proto (set_timeout (Some (authTimeout options)));
    _ ← update_conn proto (set_listeners (λ ls, ls ++ [("password", PasswordCheck)]));
    mret proto.

(** Modelled from the spec: the session object of [./protocol] lets
    [connHandler] subscribe once to a named inbound message ([proto.once]).
    When the message [name] comes in, its listeners are taken off (they were
    all registered with [once]) and then called in the order they were
    registered. *)
Definition proto_receive (proto : nat) (name : string) (data : Val) : M World () :=
  ls ← gets (λ w, match conns w !! proto with
                  | Some c => List.filter (λ l, String.eqb l.1 name) (conn_listeners c)
                  | None => []
                  end);
  _ ← update_conn proto
        (set_listeners (List.filter (λ l, negb (String.eqb l.1 name))));
  forEach (λ l, run_proto_handler proto l.2 data) ls.

(** The auth timer of a connection expires, if it is still pending. *)
Definition timer_fires (proto : nat) : M World () :=
  t ← gets (λ w, c ← conns w !! proto; conn_timeout c);
  match t with
  | Some _ => _ ← update_conn proto (set_timeout None); on_timeout proto
  | None => mret ()
  end.

(** The event loop runs the oldest callback left with [setImmediate]. *)
Definition run_immediate : M World () :=
  q ← gets immediates;
  match q with
  | [] => mret ()
  | proto :: q' => _ ← modify (set_immediates (λ _, q')); addProto_immediate proto
  end.

(** What happens to the server, one callback at a time; [HubUpdate] is the
    hub changing its rooms in between. *)
Inductive Event : Type :=
| Connection
| Receive (proto : nat) (name : string) (data : Val)
| TimerFires (proto : nat)
| Close (proto : nat)
| Immediate
| Publish (name : string) (data : Val)
| HubUpdate (rs : list (string * Room)).

Definition step (ev : Event) : M World () :=
  match ev with
  | Connection => _ ← connection; mret ()
  | Receive proto name data => proto_receive proto name data
  | TimerFires proto => timer_fires proto
  | Close proto => removeProto proto
  | Immediate => run_immediate
  | Publish name data => e_emit name data
  | HubUpdate rs => modify (set_rooms (λ _, rs))
  end.

Definition run (evs : list Event) : M World () := forEach step evs.
End Server.

(** The listeners on the canonical event hub once [initEmitter] and
    [connHandler] have run. *)
Definition initial_listeners (debug_enabled : bool) : list (string * Handler) :=
  (if debug_enabled then map (λ n, (n, HDebug n)) event_names else [])
  ++ map (λ n, (n, HDispatch n)) event_names.

Definition initial_world (rooms : list (string * Room)) (debug_enabled : bool) : World :=
  mkWorld rooms (initial_listeners debug_enabled) [] [] [] [].

End Monitor.
Export Monitor.

(** ** The captures installed by [initEmitter] *)

Module Capture.

(** The enumerable own properties of a value, as [Object.keys] lists them. *)
Definition own_props (v : Val) : list (string * Val) :=
  match v with
  | VObj fs => fs
  | VArr xs => imap (λ i x, (pretty i, x)) xs
  | VStr s => imap (λ i c, (pretty i, VStr (String c ""))) (String.list_ascii_of_string s)
  | _ => []
  end.

(** [v[k]] for an own enumerable property [k]: a [TypeError] on [undefined]
    and [null], [undefined] when [v] has no such property. *)
Definition get_prop {W} (v : Val) (k : string) : M W Val :=
  match v with
  | VUndefined | VNull => throw (TypeError "Cannot read properties of undefined")
  | _ => mret (default VUndefined (prop (own_props v) k))
  end.

(** [Object.keys(v)] *)
Definition keys_of {W} (v : Val) : M W (list string) :=
  match v with
  | VUndefined | VNull => throw (TypeError "Cannot convert undefined or null to object")
  | _ => mret (Object_keys (own_props v))
  end.

(** The elements an array pattern [[name, ...args]] takes from [v]. *)
Definition iterate {W} (v : Val) : M W (list Val) :=
  match v with
  | VArr xs => mret xs
  | VStr s => mret (map (λ c, VStr (String c "")) (String.list_ascii_of_string s))
  | _ => throw (TypeError "value is not iterable")
  end.

(** A parameter default, [x = d]: it applies to [undefined] only. *)
Definition or_default (d v : Val) : Val :=
  match v with VUndefined => d | _ => v end.

(** [if (typeof args[args.length - 1] === 'function') { args.pop() }] *)
Definition strip_callback (args : list Val) : list Val :=
  match last args with
  | Some (VFun _) => removelast args
  | _ => args
  end.

Section Captures.
Variable wire : nat → Msg → result ().

(** [(packet, { rooms = [], flags = {} }) => { if (packet.type === 2) {...} }] *)
Definition capture_broadcast : Method World := λ _ args,
  let packet := arg 0 args in
  let opts := arg 1 args in
  r ← get_prop opts "rooms";
  f ← get_prop opts "flags";
  let rooms := or_default (VArr []) r in
  let flags := or_default (VObj []) f in
  type ← get_prop packet "type";
  if strict_eq type (VNum 2) then
    data ← get_prop packet "data";
    items ← iterate data;
    let name := arg 0 items in
    let args' := drop 1 items in
    ks ← keys_of flags;
    let flagsList :=
      List.filter (λ k, truthy (default VUndefined (prop (own_props flags) k))) ks in
    _ ← e_emit wire "broadcast"
          (VObj [("name", name); ("args", VArr args'); ("rooms", rooms);
                 ("flags", VArr (map VStr flagsList))]);
    mret VUndefined
  else mret VUndefined.

(** [(id, room) => { if (id !== room) { e.emit('join', { id, room }) } }] *)
Definition capture_add : Method World := λ _ args,
  let id := arg 0 args in
  let room := arg 1 args in
  if negb (strict_eq id room) then
    _ ← e_emit wire "join" (VObj [("id", id); ("room", room)]);
    mret VUndefined
  else mret VUndefined.

(** [(id, room) => { e.emit('leave', { id, room }) }] *)
Definition capture_del : Method World := λ _ args,
  _ ← e_emit wire "leave" (VObj [("id", arg 0 args); ("room", arg 1 args)]);
  mret VUndefined.

(** [id => { e.emit('leaveAll', { id }) }] *)
Definition capture_delAll : Method World := λ _ args,
  _ ← e_emit wire "leaveAll" (VObj [("id", arg 0 args)]);
  mret VUndefined.

(** [(name, ...args) => { ...; e.emit('emit', { id: ws.id, name, args }) }] *)
Definition capture_ws_emit (id : Val) : Method World := λ _ args,
  _ ← e_emit wire "emit"
        (VObj [("id", id); ("name", arg 0 args);
               ("args", VArr (strip_callback (drop 1 args)))]);
  mret VUndefined.

(** [([ name, ...args ]) => { ...; e.emit('recv', { id: ws.id, name, args }) }] *)
Definition capture_ws_dispatch (id : Val) : Method World := λ _ args,
  items ← iterate (arg 0 args);
  _ ← e_emit wire "recv"
        (VObj [("id", id); ("name", arg 0 items);
               ("args", VArr (strip_callback (drop 1 items)))]);
  mret VUndefined.

(** The four captures [initEmitter] installs on [io.sockets.adapter]. *)
Definition adapter_captures : list (string * Method World) :=
  [("broadcast", capture_broadcast); ("add", capture_add);
   ("del", capture_del); ("delAll", capture_delAll)].

(** The listener of the hub's [connection] event: it publishes [connect]
    and patches the connection object [ws]. *)
Definition on_io_connection (ws : gmap string (Method World)) (id : Val)
    : M World (gmap string (Method World)) :=
  _ ← e_emit wire "connect" (VObj [("id", id)]);
  mret (monkeyPatch (monkeyPatch ws "emit" (capture_ws_emit id))
                    "dispatch" (capture_ws_dispatch id)).

(** [ws.on('disconnect', () => e.emit('disconnect', { id: ws.id }))] *)
Definition on_ws_disconnect (id : Val) : M World () :=
  e_emit wire "disconnect" (VObj [("id", id)]).
End Captures.

(** The arguments the hub gives to [broadcast]: a packet object and an
    options object; in a data packet ([type] 2) the data is an array, and the
    flags, when given, are not [null]. *)
Definition broadcast_args_ok (args : list Val) : Prop :=
  ∃ packet opts,
    arg 0 args = VObj packet ∧ arg 1 args = VObj opts ∧
    (strict_eq (default VUndefined (prop packet "type")) (VNum 2) = true →
     (∃ items, prop packet "data" = Some (VArr items)) ∧
     prop opts "flags" ≠ Some VNull).

End Capture.
Export Capture.

(** ** Traces of the server *)

Module Trace.

(** An event that is neither session [p]'s [password] message, nor the expiry
    of its timer, nor the close of its connection. *)
Definition quiet_for (p : nat) (ev : Event) : Prop :=
  match ev with
  | Receive q name _ => q ≠ p ∨ name ≠ "password"
  | TimerFires q | Close q => q ≠ p
  | Connection | Immediate | Publish _ _ | HubUpdate _ => True
  end.

(** Publishing canonical events one after the other, each with its name and
    the fields of its payload. *)
Definition publish_all (evs : list (string * list (string * Val))) : list Event :=
  map (λ e, Publish e.1 (VObj e.2)) evs.

(** The session numbers in the roster, in the immediate queue and in the
    send log all belong to accepted connections. *)
Definition numbered (w : World) : Prop :=
  ∀ q, (q ∈ protos w) ∨ (q ∈ immediates w) ∨ (q ∈ (sent w).*1) →
       (q < length (conns w))%nat.

(** Two worlds that differ by session [p] only: [p] may be missing from the
    second roster, and what was sent to [p] is not compared. *)
Definition same_but (p : nat) (w1 w2 : World) : Prop :=
  e_listeners w2 = e_listeners w1 ∧
  protos w2 = List.filter (λ q, negb (Nat.eqb q p)) (protos w1) ∧
  ∀ q, q ≠ p → outbox q w2 = outbox q w1.

(** The second world comes from the first by steps that concern the sessions
    in [S] only: the connection, roster membership, pending [init] and
    outbox of every other session are as they were, and so are the listeners
    of the canonical event hub. *)
Definition touches (S : nat → Prop) (w w' : World) : Prop :=
  e_listeners w' = e_listeners w ∧
  (length (conns w) ≤ length (conns w'))%nat ∧
  ∀ p, ¬ S p →
    conns w' !! p = conns w !! p ∧
    (p ∈ protos w' ↔ p ∈ protos w) ∧
    (p ∈ immediates w' ↔ p ∈ immediates w) ∧
    outbox p w' = outbox p w.

(** The second world differs from the first by its send log at most. *)
Definition only_sends (w w' : World) : Prop :=
  rooms w' = rooms w ∧ e_listeners w' = e_listeners w ∧ protos w' = protos w ∧
  conns w' = conns w ∧ immediates w' = immediates w.

(** Session [p] has a connection, with no listener on it, and is out of the
    roster. *)
Definition retired (p : nat) (w : World) : Prop :=
  (∃ c, conns w !! p = Some c ∧ conn_listeners c = []) ∧ (p ∉ protos w).

(** The sessions an event may concern. *)
Definition footprint (ev : Event) (w : World) : nat → Prop :=
  match ev with
  | Connection => λ x, x = length (conns w)
  | Receive q _ _ | TimerFires q | Close q => λ x, x = q
  | Immediate => λ x, x ∈ protos w ∨ head (immediates w) = Some x
  | Publish _ _ => λ x, x ∈ protos w
  | HubUpdate _ => λ _, False
  end.

(** Session [p] is out of the roster, with no [init] pending, its connection
    is in state [c] and it was sent [out]. *)
Definition parked (p : nat) (c : Conn) (out : list Msg) (w : World) : Prop :=
  conns w !! p = Some c ∧ (p ∉ protos w) ∧ (p ∉ immediates w) ∧ outbox p w = out.

(** A world the server reaches from its start without an uncaught error. *)
Definition reachable (wire : nat → Msg → result ()) (options : Options) (w : World) : Prop :=
  ∃ rooms debug_enabled evs,
    run wire options evs (initial_world rooms debug_enabled) = (Ok (), w).

End Trace.
Export Trace.

(** ** Concrete scenarios *)

Module Scenario.

(** A wire on which every send returns. *)
Definition wire_up : nat → Msg → result () := λ _ _, Ok ().

Definition secret_options : Options := mkOptions (VStr "secret") 1500.

(** The capture of [add] publishes that connection [a] joined room [r1]. *)
Definition a_joins_r1 : Event :=
  Publish "join" (VObj [("id", VStr "a"); ("room", VStr "r1")]).

(** A hub whose state is the number of [del] operations it has performed. *)
Definition tally_del : Method nat := λ _ _ n, (Ok (VNum (Z.of_nat n)), S n).
Definition tally_adapter : gmap string (Method nat) := {[ "del" := tally_del ]}.
Definition failing_capture : Method nat := λ _ _, throw (Error "capture failed").

(** The same hub next to a monitor that logs the arguments it captured. *)
Definition logged_del : Method (nat * list (list Val)) := λ _ _ w,
  (Ok (VNum (Z.of_nat w.1)), (S w.1, w.2)).
Definition logged_adapter : gmap string (Method (nat * list (list Val))) :=
  {[ "del" := logged_del ]}.
Definition logging_capture : Method (nat * list (list Val)) := λ _ args w,
  (Ok VUndefined, (w.1, w.2 ++ [args])).

(** A wire on which the [leave] messages to session 0 throw. *)
Definition wire_flaky : nat → Msg → result () := λ q m,
  if Nat.eqb q 0 && String.eqb (msg_name m) "leave"
  then Throw (Error "write failed") else Ok ().

(** A hub with a personal room for each of two connections and a room they
    share. *)
Definition two_rooms : list (string * Room) :=
  [("a", mkRoom [("a", true)] 1);
   ("r1", mkRoom [("a", true); ("b", true)] 2);
   ("b", mkRoom [("b", true)] 1)].

(** The server in the open mode after two monitor clients have connected,
    acknowledged and been sent their [init]. *)
Definition two_sessions (wire : nat → Msg → result ()) : World :=
  (run wire default_options
       [Connection; Receive 0 "password" (VStr ""); Immediate;
        Connection; Receive 1 "password" (VStr ""); Immediate]
       (initial_world two_rooms false)).2.

(** The snapshot of [two_rooms] as the [init] message carries it. *)
Definition two_rooms_init : Msg :=
  mkMsg "init"
    (VObj [("rooms", VArr [VObj [("name", VStr "r1");
                                 ("sockets", VArr [VStr "a"; VStr "b"])]]);
           ("sockets", VArr [VStr "a"; VStr "b"])]).

(** A small adapter over the monitor's world: [del] takes the member out of
    the room and drops the room once it is empty; the other operations do
    nothing. *)
Definition leave_room (id room : string) (rs : list (string * Room))
    : list (string * Room) :=
  List.filter (λ r, negb (Z.eqb (room_length r.2) 0))
    (map (λ r, if String.eqb r.1 room
               then let members :=
                      List.filter (λ kv, negb (String.eqb kv.1 id)) (room_sockets r.2) in
                    (r.1, mkRoom members (Z.of_nat (length members)))
               else r) rs).

Definition hub_del : Method World := λ _ args,
  match arg 0 args, arg 1 args with
  | VStr id, VStr room =>
      _ ← modify (set_rooms (leave_room id room)); mret VUndefined
  | _, _ => mret VUndefined
  end.

Definition hub_noop : Method World := λ _ _, mret VUndefined.

Definition hub_adapter : gmap string (Method World) :=
  <["broadcast" := hub_noop]> (<["add" := hub_noop]>
    (<["del" := hub_del]> (<["delAll" := hub_noop]> ∅))).

End Scenario.
Export Scenario.

(** ** What is said of a session *)

Module Session.

(** The listener [connHandler] puts on a new session: [() => init()] with no
    password configured, the password check otherwise. *)
Definition handler_for (options : Options) : ProtoHandler :=
  if truthy (password options) then PasswordCheck else PasswordOpen.

(** A [password] message that admits its sender: any one with no password
    configured, one that carries the configured password otherwise. *)
Definition accepts (options : Options) (pwd : Val) : bool :=
  negb (truthy (password options)) || strict_eq pwd (password options).

(** Whether session [p] sent such a message in the course of [evs]. *)
Definition sent_password (options : Options) (p : nat) (evs : list Event) : bool :=
  existsb (λ ev, match ev with
                 | Receive q name pwd =>
                     Nat.eqb q p && String.eqb name "password" && accepts options pwd
                 | _ => false
                 end) evs.

(** The messages of the handshake. *)
Definition reqAuth_msg (options : Options) : Msg :=
  mkMsg "reqAuth" (VBool (truthy (password options))).
Definition auth_accepted : Msg :=
  mkMsg "auth" (VObj [("authorized", VBool true)]).
Definition auth_timeout : Msg :=
  mkMsg "auth" (VObj [("authorized", VBool false); ("error", VStr "TIMEOUT")]).
Definition auth_invalid : Msg :=
  mkMsg "auth" (VObj [("authorized", VBool false); ("error", VStr "INVALID_PASSWORD")]).

(** What a connection may be sent before it is admitted: the request and
    the two refusals. *)
Definition pre_auth (options : Options) (m : Msg) : Prop :=
  m = reqAuth_msg options ∨ m = auth_timeout ∨ m = auth_invalid.

(** An [init] message, by its name. *)
Definition is_init (m : Msg) : bool := String.eqb (msg_name m) "init".

(** What holds of the session of a connection [p] after the events [hist]:
    it was sent [reqAuth] first; either it has no listener left, or it still
    has the listener it was given, is outside the roster with no [init]
    pending, and was sent no [init]; as long as it has sent no [password]
    message that admits, it is outside the roster with no [init] pending and
    was sent handshake messages only; while an [init] is pending it was sent
    none; it was sent at most one; once it is admitted its timer is not
    pending; and with no password configured it never has a timer and is
    sent no [auth]. *)
Definition session_inv (options : Options) (hist : list Event) (w : World) (p : nat)
    : Prop :=
  ∀ c, conns w !! p = Some c →
    (∃ rest, outbox p w = reqAuth_msg options :: rest) ∧
    (conn_listeners c = [] ∨
     conn_listeners c = [("password", handler_for options)] ∧
     (p ∉ protos w) ∧ (p ∉ immediates w) ∧
     Forall (λ m, is_init m = false) (outbox p w)) ∧
    (sent_password options p hist = false →
     (p ∉ protos w) ∧ (p ∉ immediates w) ∧ Forall (pre_auth options) (outbox p w)) ∧
    (p ∈ immediates w → Forall (λ m, is_init m = false) (outbox p w)) ∧
    (length (List.filter is_init (outbox p w)) ≤ 1)%nat ∧
    (p ∈ protos w ∨ p ∈ immediates w → conn_timeout c = None) ∧
    (truthy (password options) = false →
     conn_timeout c = None ∧ Forall (λ m, msg_name m ≠ "auth") (outbox p w)).

(** What holds of the server after the events [hist]: the canonical event hub
    has the listeners it started with, the session numbers in use belong to
    accepted connections, the roster and the queue of pending [init]s have no
    duplicate, and every session is as above. *)
Definition server_inv (options : Options) (hist : list Event) (w : World) : Prop :=
  (∃ dbg, e_listeners w = initial_listeners dbg) ∧
  numbered w ∧ NoDup (protos w) ∧ NoDup (immediates w) ∧
  ∀ p, session_inv options hist w p.

End Session.
Export Session.

(** ** Starting the server: [initServer] *)

Module Startup.

(** The promise [initServer] returns: settled once, by [resolve(server)], by
    [reject(err)], or by an error thrown in its executor. *)
Inductive Promise : Type :=
| Pending
| Resolved
| Rejected (err : Exn).

Definition resolve (p : Promise) : Promise :=
  match p with Pending => Resolved | _ => p end.

Definition reject (err : Exn) (p : Promise) : Promise :=
  match p with Pending => Rejected err | _ => p end.

(** The [net.Server] as [initServer] leaves it: the port and host given to
    [listen], if the executor came that far, whether the listeners
    registered with [once] for [listening] and for [error] are on it, the
    number of [connection] handlers on it, and the promise. *)
Record NetServer : Type := mkNetServer {
  listen_on : option (Val * Val);
  once_listening : bool;
  once_error : bool;
  connection_handlers : nat;
  promise : Promise
}.

(** [(emitter, options = {}) => ... const { port = 9042, host = 'localhost' } = options]:
    the port and the host, or the [TypeError] of taking [null] apart. *)
Definition listen_args (options : Val) : result (Val * Val) :=
  match or_default (VObj []) options with
  | VNull => Throw (TypeError "Cannot destructure 'options' as it is null")
  | opts =>
      Ok (or_default (VNum 9042) (default VUndefined (prop (own_props opts) "port")),
          or_default (VStr "localhost") (default VUndefined (prop (own_props opts) "host")))
  end.

Section Listener.
(** [server.listen(port, host)] belongs to Node's [net], not to these
    sources.  [listen port host] stands for what the call does before it
    returns: it returns, and the server emits [listening] or [error] later
    on, or it throws at once, as it does for a port out of range. *)
Variable listen : Val → Val → result ().

(** The executor of the promise.  An error thrown in it rejects the promise
    and ends it there: the listeners of the lines that follow are not
    registered.
    [server.listen(port, host);
     server.once('listening', ...); server.once('error', ...)] *)
Definition initServer (options : Val) : NetServer :=
  match listen_args options with
  | Throw err => mkNetServer None false false 0 (Rejected err)
  | Ok (port, host) =>
      match listen port host with
      | Throw err => mkNetServer (Some (port, host)) false false 0 (Rejected err)
      | Ok _ => mkNetServer (Some (port, host)) true true 0 Pending
      end
  end.
End Listener.

(** What the [net.Server] emits. *)
Inductive ServerEvent : Type :=
| Listening
| ServerError (err : Exn).

(** [server.emit(...)] with the listeners of [initServer] and no other.  A
    listener registered with [once] is taken off before it is called; an
    [error] event that finds no listener is thrown by the emitter.  The
    listener of [listening] is
    [() => { resolve(server);
             server.on('connection', connHandler(emitter, options)) }],
    the listener of [error] is [err => reject(err)]. *)
Definition server_emit (ev : ServerEvent) : M NetServer () := λ s,
  match ev with
  | Listening =>
      if once_listening s then
        (Ok (), mkNetServer (listen_on s) false (once_error s)
                            (S (connection_handlers s)) (resolve (promise s)))
      else (Ok (), s)
  | ServerError err =>
      if once_error s then
        (Ok (), mkNetServer (listen_on s) (once_listening s) false
                            (connection_handlers s) (reject err (promise s)))
      else (Throw err, s)
  end.

(** The two kinds of event, as tests. *)
Definition is_error (ev : ServerEvent) : bool :=
  match ev with ServerError _ => true | Listening => false end.

Definition is_listening (ev : ServerEvent) : bool :=
  match ev with Listening => true | ServerError _ => false end.

(** A [listen] that accepts the ports from 0 to 65535 and throws on any
    other number. *)
Definition listen_in_range : Val → Val → result () := λ port _,
  match port with
  | VNum n =>
      if (0 <=? n) && (n <=? 65535) then Ok ()
      else Throw (Error "ERR_SOCKET_BAD_PORT")
  | _ => Ok ()
  end.

End Startup.
Export Startup.

(** ** More scenarios *)

Module Cases.

(** A connection object of the hub with its two operations. *)
Definition ws_object : gmap string (Method World) :=
  <["emit" := hub_noop]> (<["dispatch" := hub_noop]> ∅).

(** A wire on which the [init] message cannot be sent. *)
Definition wire_no_init : nat → Msg → result () := λ _ m,
  if String.eqb (msg_name m) "init" then Throw (Error "write failed") else Ok ().

(** The server in the open mode after one client has connected and
    acknowledged; its [init] is still to be sent. *)
Definition one_pending (wire : nat → Msg → result ()) : World :=
  (run wire default_options [Connection; Receive 0 "password" (VStr "")]
       (initial_world two_rooms false)).2.

(** With the password ["secret"] configured: a connection that waits for
    its password. *)
Definition one_waiting : World :=
  (run wire_up secret_options [Connection] (initial_world [] false)).2.

(** A client that sends a wrong password, and one that sends the right one;
    then a connection of the hub joins a room. *)
Definition wrong_guess : list Event :=
  [Connection; Receive 0 "password" (VStr "guess"); a_joins_r1].

Definition right_password : list Event :=
  [Connection; Receive 0 "password" (VStr "secret"); a_joins_r1].

(** A hub with two rooms named like properties that every object inherits,
    each with one member, and an ordinary room. *)
Definition inherited_names : list (string * Room) :=
  [("toString", mkRoom [("z", true)] 1);
   ("constructor", mkRoom [("y", true)] 1);
   ("r1", mkRoom [("a", true); ("b", true)] 2)].

(** A hub on which two members have identities that are array indices. *)
Definition numeric_ids : list (string * Room) :=
  [("r1", mkRoom [("b", true)] 1);
   ("r2", mkRoom [("9", true); ("10", true); ("a", true); ("b", true)] 4)].

End Cases.
Export Cases.

(** * Properties *)

(** ** The monad *)

Lemma bind_ok {W A B} (c : M W A) (k : A → M W B) w a w' :
  c w = (Ok a, w') → (c ≫= k) w = k a w'.
Proof. intros Hc. unfold mbind, M_bind. by rewrite Hc. Qed.

Lemma bind_throw {W A B} (c : M W A) (k : A → M W B) w e w' :
  c w = (Throw e, w') → (c ≫= k) w = (Throw e, w').
Proof. intros Hc. unfold mbind, M_bind. by rewrite Hc. Qed.

Lemma forEach_app {W A} (f : A → M W ()) xs ys w :
  forEach f (xs ++ ys) w =
    match forEach f xs w with
    | (Ok _, w') => forEach f ys w'
    | (Throw e, w') => (Throw e, w')
    end.
Proof.
  revert w. induction xs as [|x xs IH]; intros w; [done|].
  cbn [forEach app]. unfold mbind, M_bind.
  destruct (f x w) as [[[]|e] w1]; [apply IH|done].
Qed.

(** ** The interceptor *)

Section PatchFacts.
Context {W : Type}.
Implicit Types (object : gmap string (Method W)) (fn orig : Method W).

(** The wrapper is the capture followed by the original. *)
Lemma invoke_monkeyPatch object method fn orig this args w :
  object !! method = Some orig →
  invoke (monkeyPatch object method fn) method this args w
    = (fn this args ≫= λ _, orig this args) w.
Proof.
  intros Ho. unfold invoke, monkeyPatch. rewrite lookup_insert_eq.
  unfold mbind, M_bind. destruct (fn this args w) as [[v|e] w1]; [|done].
  by rewrite Ho.
Qed.

(** The other operations of the object are left alone. *)
Lemma invoke_monkeyPatch_other object method fn m this args w :
  m ≠ method →
  invoke (monkeyPatch object method fn) m this args w = invoke object m this args w.
Proof.
  intros Hne. unfold invoke, monkeyPatch. by rewrite lookup_insert_ne.
Qed.

Lemma monkeyPatch_is_Some object method fn m :
  is_Some (object !! m) → is_Some (monkeyPatch object method fn !! m).
Proof.
  intros Hm. unfold monkeyPatch.
  destruct (decide (method = m)) as [->|Hne].
  - rewrite lookup_insert_eq. eauto.
  - by rewrite lookup_insert_ne.
Qed.
End PatchFacts.

Section PreservationFacts.
Context {W H : Type} (view : W → H).
Implicit Types (o object : gmap string (Method W)).

Lemma agree_on_refl c object :
  (∀ m f, object !! m = Some f → hub_local view f) →
  agree_on view c object object.
Proof.
  intros Hloc w1 w2 Hv. unfold invoke.
  destruct (object !! call_method c) as [f|] eqn:Hf.
  - by apply (Hloc _ _ Hf).
  - done.
Qed.

Lemma agree_on_monkeyPatch c o1 o2 m fn :
  agree_on view c o1 o2 →
  is_Some (o1 !! m) →
  (m = call_method c → quiet_at view fn (call_this c) (call_args c)) →
  agree_on view c (monkeyPatch o1 m fn) o2.
Proof.
  intros Hag [orig Ho] Hq w1 w2 Hv.
  destruct (decide (call_method c = m)) as [Hm|Hne].
  - subst m. destruct (Hq eq_refl w1) as (v & w1' & Hfn & Hv').
    rewrite (invoke_monkeyPatch _ _ _ orig) by done.
    rewrite (bind_ok _ _ _ _ _ Hfn).
    specialize (Hag w1' w2). unfold invoke in Hag at 1 3. rewrite Ho in Hag.
    apply Hag. congruence.
  - rewrite invoke_monkeyPatch_other by done. by apply Hag.
Qed.

Lemma agree_on_attach c captures o1 o2 :
  agree_on view c o1 o2 →
  (∀ k, k ∈ captures → is_Some (o1 !! k.1)) →
  (∀ k, k ∈ captures → k.1 = call_method c →
        quiet_at view k.2 (call_this c) (call_args c)) →
  agree_on view c (attach o1 captures) o2.
Proof.
  revert o1. induction captures as [|k ks IH]; intros o1 Hag Hdom Hq; [done|].
  cbn [attach foldl]. apply IH.
  - apply agree_on_monkeyPatch; [done| |].
    + apply Hdom. left.
    + apply Hq. left.
  - intros k' Hk'. apply monkeyPatch_is_Some, Hdom. by right.
  - intros k' Hk'. apply Hq. by right.
Qed.

Lemma run_calls_agree calls o1 o2 w1 w2 :
  (∀ c, c ∈ calls → agree_on view c o1 o2) →
  view w1 = view w2 →
  (run_calls o1 calls w1).1 = (run_calls o2 calls w2).1 ∧
  view (run_calls o1 calls w1).2 = view (run_calls o2 calls w2).2.
Proof.
  revert w1 w2. induction calls as [|c cs IH]; intros w1 w2 Hag Hv; [done|].
  cbn [run_calls].
  destruct (Hag c (list_elem_of_here _ _) w1 w2 Hv) as [Hr Hv1].
  destruct (invoke o1 _ _ _ w1) as [r1 w1'], (invoke o2 _ _ _ w2) as [r2 w2'].
  simpl in Hr, Hv1. subst r2.
  destruct (IH w1' w2') as [Hrs Hvs]; [|done|].
  { intros c' Hc'. apply Hag. by right. }
  destruct (run_calls o1 cs w1') as [rs1 w1''], (run_calls o2 cs w2') as [rs2 w2''].
  simpl in *. by subst.
Qed.
End PreservationFacts.

Section AttachFacts.
Context {W : Type}.
Implicit Types (object : gmap string (Method W)) (captures : list (string * Method W)).

(** A patch touches one name of the object. *)
Lemma lookup_monkeyPatch_ne object method fn m :
  m ≠ method → monkeyPatch object method fn !! m = object !! m.
Proof. intros Hne. unfold monkeyPatch. by rewrite lookup_insert_ne. Qed.

(** Attaching captures leaves the operations they do not name alone. *)
Lemma invoke_attach_other object captures m this args w :
  m ∉ captures.*1 →
  invoke (attach object captures) m this args w = invoke object m this args w.
Proof.
  revert object. induction captures as [|[k fn] ks IH]; intros object Hm; [done|].
  change (attach object ((k, fn) :: ks)) with (attach (monkeyPatch object k fn) ks).
  apply not_elem_of_cons in Hm as [Hne Hm].
  rewrite IH by done. by apply invoke_monkeyPatch_other.
Qed.

(** With one capture per operation, a call of a captured operation is its
    capture followed by the original. *)
Lemma invoke_attach object captures m fn orig this args w :
  NoDup captures.*1 →
  (m, fn) ∈ captures →
  object !! m = Some orig →
  invoke (attach object captures) m this args w = (fn this args ≫= λ _, orig this args) w.
Proof.
  revert object. induction captures as [|[k f] ks IH]; intros object Hnd Hin Ho.
  - by apply elem_of_nil in Hin.
  - cbn [fmap list_fmap fst] in Hnd. apply NoDup_cons in Hnd as [Hk Hnd].
    change (attach object ((k, f) :: ks)) with (attach (monkeyPatch object k f) ks).
    apply elem_of_cons in Hin as [[= <- <-]|Hin].
    + rewrite invoke_attach_other by done. by apply invoke_monkeyPatch.
    + apply IH; [done|done|]. rewrite lookup_monkeyPatch_ne; [done|].
      intros ->. apply Hk. apply list_elem_of_fmap. by exists (k, fn).
Qed.
End AttachFacts.

(** C1 (as amended): when the capture throws, the wrapped operation throws the
    same error to its caller and leaves the world as the capture left it, the
    original operation not being run; when the capture returns, the original
    operation runs on the same receiver and arguments and its outcome is the
    outcome of the call. *)
Theorem C1_capture_error_reaches_caller {W} (object : gmap string (Method W))
    (method : string) (fn orig : Method W) (this : Val) (args : list Val) (w : W) :
  object !! method = Some orig →
  (∀ e w', fn this args w = (Throw e, w') →
     invoke (monkeyPatch object method fn) method this args w = (Throw e, w')) ∧
  (∀ v w', fn this args w = (Ok v, w') →
     invoke (monkeyPatch object method fn) method this args w = orig this args w').
Proof.
  intros Ho. split; intros x w' Hfn; rewrite (invoke_monkeyPatch _ _ _ orig) by done.
  - by apply bind_throw.
  - by rewrite (bind_ok _ _ _ _ _ Hfn).
Qed.

Lemma C1_capture_error_reaches_caller_witness :
  invoke (monkeyPatch tally_adapter "del" failing_capture) "del" VNull [VStr "a"; VStr "r"] 0%nat
    = (Throw (Error "capture failed"), 0%nat).
Proof.
  apply (C1_capture_error_reaches_caller tally_adapter "del" failing_capture tally_del);
    reflexivity.
Defined.

(** C1, counterexample: with a capture that throws, the call of the
    wrapped [del] throws, and it is not a run of the original [del] from any
    state, where the bare [del] returns its result. *)
Lemma C1_capture_error_not_swallowed :
  failing_capture VNull [VStr "a"; VStr "r"] 0%nat = (Throw (Error "capture failed"), 0%nat) ∧
  invoke tally_adapter "del" VNull [VStr "a"; VStr "r"] 0%nat = (Ok (VNum 0), 1%nat) ∧
  invoke (monkeyPatch tally_adapter "del" failing_capture) "del" VNull [VStr "a"; VStr "r"] 0%nat
    = (Throw (Error "capture failed"), 0%nat) ∧
  ¬ ∃ n, invoke (monkeyPatch tally_adapter "del" failing_capture) "del" VNull
           [VStr "a"; VStr "r"] 0%nat = tally_del VNull [VStr "a"; VStr "r"] n.
Proof.
  assert (Hp : invoke (monkeyPatch tally_adapter "del" failing_capture) "del" VNull
                 [VStr "a"; VStr "r"] 0%nat = (Throw (Error "capture failed"), 0%nat)).
  { by rewrite (invoke_monkeyPatch _ _ _ tally_del). }
  split; [reflexivity|]. split; [reflexivity|]. split; [exact Hp|].
  intros [n Hn]. rewrite Hp in Hn. discriminate.
Qed.

(** C2 (as amended): a wrapped call is the capture on the original receiver
    and arguments followed, when the capture returns, by the original
    operation on the same receiver and arguments, whose outcome is the
    outcome of the call.  Attaching the monitor, with one capture per
    operation, wraps the operations it has a capture for and leaves the
    others alone.  Hence, for a hub whose operations see the hub's part of
    the world only, and for calls on which the captures return and leave
    that part alone, every call has the same outcome and leaves the same
    hub whether the captures are attached or not. *)
Theorem C2_wrapper_preserves_behaviour {W H} (view : W → H)
    (object : gmap string (Method W)) (captures : list (string * Method W)) :
  (∀ m f, object !! m = Some f → hub_local view f) →
  (∀ k, k ∈ captures → is_Some (object !! k.1)) →
  (∀ method fn orig this args w,
     object !! method = Some orig →
     invoke (monkeyPatch object method fn) method this args w
       = (fn this args ≫= λ _, orig this args) w) ∧
  (∀ method fn orig this args w v w',
     object !! method = Some orig →
     fn this args w = (Ok v, w') →
     invoke (monkeyPatch object method fn) method this args w = orig this args w') ∧
  (∀ method fn orig this args w,
     NoDup captures.*1 →
     (method, fn) ∈ captures →
     object !! method = Some orig →
     invoke (attach object captures) method this args w
       = (fn this args ≫= λ _, orig this args) w) ∧
  (∀ method this args w,
     method ∉ captures.*1 →
     invoke (attach object captures) method this args w = invoke object method this args w) ∧
  (∀ calls,
     (∀ c k, c ∈ calls → k ∈ captures → k.1 = call_method c →
             quiet_at view k.2 (call_this c) (call_args c)) →
     ∀ w1 w2, view w1 = view w2 →
       (run_calls (attach object captures) calls w1).1 = (run_calls object calls w2).1 ∧
       view (run_calls (attach object captures) calls w1).2
         = view (run_calls object calls w2).2).
Proof.
  intros Hloc Hdom. split_and!.
  - intros. by apply invoke_monkeyPatch.
  - intros * Ho Hfn. rewrite (invoke_monkeyPatch _ _ _ orig) by done.
    by rewrite (bind_ok _ _ _ _ _ Hfn).
  - intros * Hnd Hin Ho. by apply invoke_attach.
  - intros * Hm. by apply invoke_attach_other.
  - intros calls Hq w1 w2 Hv. apply run_calls_agree; [|done].
    intros c Hc. apply agree_on_attach; [by apply agree_on_refl|done|].
    intros k Hk. by apply Hq.
Qed.

Lemma C2_wrapper_preserves_behaviour_witness :
  (run_calls (attach logged_adapter [("del", logging_capture)])
             [mkCall "del" VNull [VStr "a"; VStr "r1"];
              mkCall "del" VNull [VStr "b"; VStr "r1"]] (0%nat, [])).1
    = (run_calls logged_adapter
                 [mkCall "del" VNull [VStr "a"; VStr "r1"];
                  mkCall "del" VNull [VStr "b"; VStr "r1"]] (0%nat, [])).1 ∧
  (run_calls (attach logged_adapter [("del", logging_capture)])
             [mkCall "del" VNull [VStr "a"; VStr "r1"];
              mkCall "del" VNull [VStr "b"; VStr "r1"]] (0%nat, [])).2.1
    = (run_calls logged_adapter
                 [mkCall "del" VNull [VStr "a"; VStr "r1"];
                  mkCall "del" VNull [VStr "b"; VStr "r1"]] (0%nat, [])).2.1.
Proof.
  assert (Hloc : ∀ m f, logged_adapter !! m = Some f → hub_local fst f).
  { intros m f Hm. unfold logged_adapter in Hm.
    apply lookup_singleton_Some in Hm as [_ <-].
    intros this args [n1 l1] [n2 l2] Hv. simpl in *. by subst. }
  assert (Hdom : ∀ k, k ∈ [("del", logging_capture)] → is_Some (logged_adapter !! k.1)).
  { intros k ->%list_elem_of_singleton. by eexists. }
  destruct (C2_wrapper_preserves_behaviour fst logged_adapter
              [("del", logging_capture)] Hloc Hdom) as (_ & _ & _ & _ & Hsame).
  apply Hsame; [|done].
  intros c k _ ->%list_elem_of_singleton _ [n l]. by eexists _, _.
Defined.

(** C2, counterexample: two runs of one call each, from the same state, with
    and without the captures of [initEmitter] attached to the adapter.  With
    two sessions in the roster and a wire on which the [leave] message to
    the first one cannot be sent, a [del] returns and the room is left
    without the captures; with them the call throws and the rooms are as
    they were.  On a wire whose sends all return, a [broadcast] of an event
    packet whose options give [flags: null] returns without the captures;
    with them it throws a [TypeError], the capture reading the keys of
    [null]. *)
Lemma C2_monitoring_changes_outcomes :
  (run_calls hub_adapter [mkCall "del" VNull [VStr "b"; VStr "r1"]]
             (two_sessions wire_flaky)).1 = [Ok VUndefined] ∧
  (run_calls (attach hub_adapter (adapter_captures wire_flaky))
             [mkCall "del" VNull [VStr "b"; VStr "r1"]]
             (two_sessions wire_flaky)).1 = [Throw (Error "write failed")] ∧
  rooms (run_calls hub_adapter [mkCall "del" VNull [VStr "b"; VStr "r1"]]
                   (two_sessions wire_flaky)).2 = leave_room "b" "r1" two_rooms ∧
  rooms (run_calls (attach hub_adapter (adapter_captures wire_flaky))
                   [mkCall "del" VNull [VStr "b"; VStr "r1"]]
                   (two_sessions wire_flaky)).2 = two_rooms ∧
  leave_room "b" "r1" two_rooms ≠ two_rooms ∧
  (run_calls hub_adapter
             [mkCall "broadcast" VNull
                     [VObj [("type", VNum 2); ("data", VArr [VStr "chat"; VStr "hi"])];
                      VObj [("flags", VNull)]]]
             (two_sessions wire_up)).1 = [Ok VUndefined] ∧
  (run_calls (attach hub_adapter (adapter_captures wire_up))
             [mkCall "broadcast" VNull
                     [VObj [("type", VNum 2); ("data", VArr [VStr "chat"; VStr "hi"])];
                      VObj [("flags", VNull)]]]
             (two_sessions wire_up)).1
    = [Throw (TypeError "Cannot convert undefined or null to object")].
Proof. split_and!; try (vm_compute; reflexivity). vm_compute. discriminate. Qed.

(** ** The snapshot aggregator *)

Section ObjectFacts.
Context {A : Type}.
Implicit Types (o : list (string * A)) (k : string).

Lemma prop_Some_key o k v : prop o k = Some v → k ∈ Object_keys o.
Proof.
  induction o as [|[k' v'] o IH]; [done|]. cbn [prop Object_keys fmap list_fmap fst].
  destruct (String.eqb_spec k' k) as [->|Hne].
  - intros _. left.
  - intros Hp. right. by apply IH.
Qed.

Lemma key_prop_is_Some o k : k ∈ Object_keys o → is_Some (prop o k).
Proof.
  induction o as [|[k' v'] o IH]; [by intros ?%elem_of_nil|].
  cbn [prop Object_keys fmap list_fmap fst].
  destruct (String.eqb_spec k' k) as [->|Hne]; [by eauto|].
  intros [?|?]%elem_of_cons; [congruence|by apply IH].
Qed.

Lemma prop_None_key o k : prop o k = None → k ∉ Object_keys o.
Proof.
  intros Hp [v Hv]%key_prop_is_Some. congruence.
Qed.

(** Overwriting a property leaves the keys and their order as they are. *)
Lemma keys_overwrite o k v :
  Object_keys (map (λ kv : string * A, if String.eqb kv.1 k then (kv.1, v) else kv) o)
    = Object_keys o.
Proof.
  induction o as [|[k' v'] o IH]; [done|].
  cbn [map Object_keys fmap list_fmap fst]. unfold Object_keys in IH. rewrite IH.
  by destruct (String.eqb k' k).
Qed.

(** A new property is put somewhere among the others. *)
Lemma add_key_Permutation o k v : add_key o k v ≡ₚ (k, v) :: o.
Proof.
  induction o as [|[k' v'] o IH]; [done|]. cbn [add_key].
  destruct (array_index k) as [i|], (array_index k') as [i'|];
    [destruct (i <? i')%N| | |]; try done;
    by rewrite IH, Permutation_swap.
Qed.

Lemma keys_assign o k v :
  Object_keys (assign o k v) ≡ₚ
    if decide (k ∈ Object_keys o ∨ k = "__proto__") then Object_keys o
    else k :: Object_keys o.
Proof.
  unfold assign. destruct (prop o k) as [v'|] eqn:Hp.
  - rewrite keys_overwrite, decide_True; [done|]. left. by eapply prop_Some_key.
  - apply prop_None_key in Hp. destruct (String.eqb_spec k "__proto__") as [->|Hne].
    + rewrite decide_True; [done|]. by right.
    + rewrite decide_False by (intros [?|?]; done).
      unfold Object_keys. by rewrite add_key_Permutation.
Qed.

Lemma elem_of_keys_assign o k v x :
  x ∈ Object_keys (assign o k v) ↔ x ∈ Object_keys o ∨ (x = k ∧ k ≠ "__proto__").
Proof.
  rewrite keys_assign. case_decide as Hk.
  - split; [by left|]. intros [?|[-> Hne]]; [done|]. by destruct Hk.
  - rewrite elem_of_cons. split.
    + intros [->|?]; [right|by left]. split; [done|]. intros ->. apply Hk. by right.
    + intros [?|[-> _]]; [by right|by left].
Qed.

Lemma NoDup_keys_assign o k v :
  NoDup (Object_keys o) → NoDup (Object_keys (assign o k v)).
Proof.
  intros Hnd. rewrite keys_assign. case_decide as Hk; [done|].
  apply NoDup_cons. split; [|done]. intros Hin. apply Hk. by left.
Qed.
End ObjectFacts.

(** With its keys bound once, an object is read entry by entry. *)
Lemma prop_NoDup_elem {A} (o : list (string * A)) k v :
  NoDup (Object_keys o) → (k, v) ∈ o → prop o k = Some v.
Proof.
  induction o as [|[k' v'] o IH]; intros Hnd Hin; [by apply elem_of_nil in Hin|].
  cbn [Object_keys fmap list_fmap fst] in Hnd. apply NoDup_cons in Hnd as [Hk Hnd].
  cbn [prop]. apply elem_of_cons in Hin as [[= -> ->]|Hin].
  - by rewrite String.eqb_refl.
  - destruct (String.eqb_spec k' k) as [->|Hne]; [|by apply IH].
    destruct Hk. apply list_elem_of_fmap. by exists (k, v).
Qed.

Lemma prop_Some_elem {A} (o : list (string * A)) k v : prop o k = Some v → (k, v) ∈ o.
Proof.
  induction o as [|[k' v'] o IH]; [done|]. cbn [prop].
  destruct (String.eqb_spec k' k) as [->|Hne].
  - intros [= ->]. left.
  - intros Hp. right. by apply IH.
Qed.

Lemma inherited_spec k : inherited k = true ↔ k ∈ Object_prototype.
Proof.
  unfold inherited. rewrite existsb_exists. split.
  - intros (x & Hx%list_elem_of_In & ->%String.eqb_eq). done.
  - intros Hk. exists k. split; [by apply list_elem_of_In|apply String.eqb_refl].
Qed.

(** The identities [getState] lists for a room are those whose flag is set. *)
Lemma elem_of_active_sockets info id :
  id ∈ active_sockets info ↔ prop (room_sockets info) id = Some true.
Proof.
  unfold active_sockets. rewrite list_elem_of_In, filter_In, <- list_elem_of_In.
  unfold active. split.
  - intros [[b Hb]%key_prop_is_Some Ha]. rewrite Hb in Ha |- *. by subst.
  - intros Hp. split; [by eapply prop_Some_key|]. by rewrite Hp.
Qed.

(** What the test of [getState] finds: a room of length 1 that has a set flag
    of the room's name, or no flag of that name when the name is one every
    object inherits. *)
Lemma is_personal_true info name :
  is_personal info name = true ↔
  room_length info = 1 ∧
  (prop (room_sockets info) name = Some true ∨
   (prop (room_sockets info) name = None ∧ name ∈ Object_prototype)).
Proof.
  unfold is_personal, active. rewrite andb_true_iff, Z.eqb_eq, <- inherited_spec.
  destruct (prop (room_sockets info) name) as [[]|]; split.
  - intros [? _]. split; [done|by left].
  - by intros [? _].
  - by intros [_ ?].
  - intros [_ [?|[? _]]]; done.
  - intros [? ?]. split; [done|]. by right.
  - intros [? [?|[_ ?]]]; done.
Qed.

(** With [length] counting the members, and for a name that no object
    inherits, the test of [getState] finds the rooms whose one member is
    active and named like the room. *)
Lemma is_personal_spec info name :
  room_counted info → name ∉ Object_prototype →
  is_personal info name = true ↔ personal_room name info.
Proof.
  unfold room_counted, personal_room. intros Hlen Hname.
  rewrite is_personal_true. split.
  - intros [H1 Ha]. rewrite H1 in Hlen.
    destruct (room_sockets info) as [|[k b] [|? ?]]; simpl in *; try lia.
    destruct (String.eqb_spec k name) as [->|]; [|by destruct Ha as [?|[_ ?]]].
    destruct Ha as [[= ->]|[[=] _]]. done.
  - intros Hs. rewrite Hs in *. simpl in *. rewrite String.eqb_refl. split; [lia|by left].
Qed.

Lemma forEachRoom_rooms (rooms : list (string * Room)) names acc :
  foldl (λ (data : list RoomState) name,
           match prop rooms name with
           | Some info =>
               if is_personal info name then data
               else data ++ [mkRoomState name (active_sockets info)]
           | None => data
           end) acc names
  = acc ++ (names ≫= λ name,
              match prop rooms name with
              | Some info =>
                  if is_personal info name then []
                  else [mkRoomState name (active_sockets info)]
              | None => []
              end).
Proof.
  revert acc. induction names as [|n ns IH]; intros acc; simpl.
  - by rewrite app_nil_r.
  - rewrite IH. destruct (prop rooms n) as [info|]; [|done].
    destruct (is_personal info n); [done|]. by rewrite <- app_assoc.
Qed.

Lemma elem_of_st_rooms rooms r :
  r ∈ st_rooms (getState rooms) ↔
  ∃ info, prop rooms (name r) = Some info ∧ is_personal info (name r) = false ∧
          sockets r = active_sockets info.
Proof.
  unfold getState, forEachRoom. cbn [st_rooms].
  rewrite forEachRoom_rooms, app_nil_l, list_elem_of_bind. split.
  - intros (n & Hr & Hn). destruct (prop rooms n) as [info|] eqn:Hp; [|by apply elem_of_nil in Hr].
    destruct (is_personal info n) eqn:Hpers; [by apply elem_of_nil in Hr|].
    apply list_elem_of_singleton in Hr. subst r. simpl. eauto.
  - intros (info & Hp & Hpers & Hs). exists (name r). split.
    + rewrite Hp, Hpers. apply list_elem_of_singleton. destruct r; simpl in *. by subst.
    + by eapply prop_Some_key.
Qed.

(** C5, at the failing input: a room named [toString], or [constructor],
    whose one member has another identity.  Its membership is not that of a
    personal room, and [getState] skips it all the same, because the read
    [info.sockets[name]] finds the property of that name every object
    inherits; a room with the same membership and an ordinary name is
    listed.  The member is in the flat list either way. *)
Theorem C5_room_with_inherited_name_is_skipped :
  room_counted (mkRoom [("z", true)] 1) ∧
  ¬ personal_room "toString" (mkRoom [("z", true)] 1) ∧
  getState [("toString", mkRoom [("z", true)] 1)] = mkState [] ["z"] ∧
  getState [("lobby", mkRoom [("z", true)] 1)] = mkState [mkRoomState "lobby" ["z"]] ["z"] ∧
  getState [("toString", mkRoom [("z", true)] 1);
            ("constructor", mkRoom [("y", true)] 1);
            ("r1", mkRoom [("a", true); ("b", true)] 2)]
    = mkState [mkRoomState "r1" ["a"; "b"]] ["z"; "y"; "a"; "b"].
Proof. split_and!; [reflexivity|discriminate|vm_compute; reflexivity..]. Qed.

Lemma sockets_inner info ks (d : list (string * bool)) :
  let d' := foldl (λ d id, if active info id then assign d id true else d) d ks in
  NoDup (Object_keys d) →
  NoDup (Object_keys d') ∧
  ∀ x, x ∈ Object_keys d' ↔
       x ∈ Object_keys d ∨ (x ∈ ks ∧ active info x = true ∧ x ≠ "__proto__").
Proof.
  revert d. induction ks as [|k ks IH]; intros d d' Hnd; subst d'; simpl.
  - split; [done|]. intros x. split; [by left|]. intros [?|[?%elem_of_nil _]]; done.
  - destruct (active info k) eqn:Hk.
    + destruct (IH (assign d k true)) as [Hnd' Hmem]; [by apply NoDup_keys_assign|].
      split; [done|]. intros x. rewrite Hmem, elem_of_keys_assign, elem_of_cons.
      split; [intros [[?|[-> ?]]|(? & ? & ?)]|intros [?|([->|?] & ? & ?)]]; eauto 10.
    + destruct (IH d Hnd) as [Hnd' Hmem]. split; [done|].
      intros x. rewrite Hmem, elem_of_cons.
      split; [intros [?|(? & ? & ?)]|intros [?|([->|?] & ? & ?)]]; eauto 10. congruence.
Qed.

Lemma sockets_outer (rooms : list (string * Room)) names (d : list (string * bool)) :
  let d' := foldl (λ data name,
                     match prop rooms name with
                     | Some info =>
                         foldl (λ d id, if active info id then assign d id true else d)
                               data (Object_keys (room_sockets info))
                     | None => data
                     end) d names in
  NoDup (Object_keys d) →
  NoDup (Object_keys d') ∧
  ∀ x, x ∈ Object_keys d' ↔
       x ∈ Object_keys d ∨
       x ≠ "__proto__" ∧
       ∃ n info, n ∈ names ∧ prop rooms n = Some info ∧
                 prop (room_sockets info) x = Some true.
Proof.
  revert d. induction names as [|n ns IH]; intros d d' Hnd; subst d'; simpl.
  - split; [done|]. intros x. split; [by left|].
    intros [?|(_ & ? & ? & ?%elem_of_nil & _)]; done.
  - destruct (prop rooms n) as [info|] eqn:Hp.
    + destruct (sockets_inner info (Object_keys (room_sockets info)) d Hnd) as [Hnd1 Hm1].
      destruct (IH _ Hnd1) as [Hnd2 Hm2]. split; [done|].
      intros x. rewrite Hm2, Hm1. split.
      * intros [[?|(Hx & Ha & Hne)]|(Hne & n' & info' & Hn' & Hp' & Hx)]; [by left| |].
        -- right. split; [done|]. exists n, info. split; [left|]. split; [done|].
           apply elem_of_active_sockets. unfold active_sockets.
           rewrite list_elem_of_In, filter_In, <- list_elem_of_In. done.
        -- right. split; [done|]. exists n', info'. split; [by right|done].
      * intros [?|(Hne & n' & info' & [->|Hn']%elem_of_cons & Hp' & Hx)]; [by left; left| |].
        -- rewrite Hp in Hp'. injection Hp' as <-. left. right.
           apply elem_of_active_sockets in Hx. unfold active_sockets in Hx.
           rewrite list_elem_of_In, filter_In, <- list_elem_of_In in Hx.
           by destruct Hx.
        -- right. eauto 10.
    + destruct (IH d Hnd) as [Hnd2 Hm2]. split; [done|].
      intros x. rewrite Hm2. split.
      * intros [?|(Hne & n' & info' & Hn' & Hp' & Hx)]; [by left|].
        right. split; [done|]. exists n', info'. split; [by right|done].
      * intros [?|(Hne & n' & info' & [->|Hn']%elem_of_cons & Hp' & Hx)];
          [by left|congruence|].
        right. eauto 10.
Qed.

(** The flat list of [getState], by membership. *)
Lemma elem_of_st_sockets rooms id :
  id ∈ st_sockets (getState rooms) ↔
  id ≠ "__proto__" ∧
  ∃ n info, prop rooms n = Some info ∧ prop (room_sockets info) id = Some true.
Proof.
  unfold getState, forEachRoom. cbn [st_sockets].
  destruct (sockets_outer rooms (Object_keys rooms) []) as [_ Hmem]; [apply NoDup_nil_2|].
  rewrite Hmem. split.
  - intros [?%elem_of_nil|(Hne & n & info & _ & Hp & Hx)]; [done|eauto].
  - intros (Hne & n & info & Hp & Hx). right. split; [done|]. exists n, info.
    split; [by eapply prop_Some_key|done].
Qed.

Lemma NoDup_st_sockets rooms : NoDup (st_sockets (getState rooms)).
Proof.
  unfold getState, forEachRoom. cbn [st_sockets].
  by destruct (sockets_outer rooms (Object_keys rooms) []) as [Hnd _]; [apply NoDup_nil_2|].
Qed.

(** C8, at the failing input: a member whose identity is [__proto__].  Its
    flag is set and [getState] lists it in its room, but the assignment
    [dict[id] = true] that collects the flat list creates no property of
    that name: the identity is missing from the flat list, which is not the
    union of the members.  A member of any other name is in it. *)
Theorem C8_identity_proto_is_left_out :
  getState [("r1", mkRoom [("__proto__", true); ("a", true)] 2)]
    = mkState [mkRoomState "r1" ["__proto__"; "a"]] ["a"] ∧
  getState [("r1", mkRoom [("p", true); ("a", true)] 2)]
    = mkState [mkRoomState "r1" ["p"; "a"]] ["p"; "a"].
Proof. split; vm_compute; reflexivity. Qed.

(** ** Sessions, roster and dispatcher *)

Ltac munfold :=
  unfold mbind, M_bind, mret, M_ret, gets, modify, throw, try_catch in *.

Lemma outbox_set_sent_app p w l :
  outbox p (set_sent (λ s, s ++ l) w)
    = outbox p w ++ (List.filter (λ pm, Nat.eqb pm.1 p) l).*2.
Proof. unfold outbox. simpl. by rewrite List.filter_app, fmap_app. Qed.

Lemma outbox_set_sent_other p q m w :
  q ≠ p → outbox p (set_sent (λ s, s ++ [(q, m)]) w) = outbox p w.
Proof.
  intros Hne. rewrite outbox_set_sent_app. simpl.
  destruct (Nat.eqb_spec q p); [done|]. simpl. by rewrite app_nil_r.
Qed.

Lemma outbox_set_sent_same p m w :
  outbox p (set_sent (λ s, s ++ [(p, m)]) w) = outbox p w ++ [m].
Proof. rewrite outbox_set_sent_app. simpl. by rewrite Nat.eqb_refl. Qed.

Lemma elem_of_sent_outbox p w : p ∈ (sent w).*1 ↔ outbox p w ≠ [].
Proof.
  unfold outbox. induction (sent w) as [|[q m] l IH]; simpl.
  - split; [by intros ?%elem_of_nil|done].
  - rewrite elem_of_cons. destruct (Nat.eqb_spec q p) as [->|Hne]; simpl.
    + split; [done|by left].
    + rewrite <- IH. split; [intros [?|?]; [congruence|done]|by right].
Qed.

Section Touches.
Implicit Types (S : nat → Prop) (w : World).

Lemma touches_refl S w : touches S w w.
Proof. by repeat split. Qed.

Lemma touches_trans S w1 w2 w3 : touches S w1 w2 → touches S w2 w3 → touches S w1 w3.
Proof.
  intros (He1 & Hl1 & H1) (He2 & Hl2 & H2).
  split; [congruence|]. split; [lia|].
  intros p Hp. destruct (H1 p Hp) as (? & ? & ? & ?), (H2 p Hp) as (? & ? & ? & ?).
  split; [congruence|]. split; [tauto|]. split; [tauto|congruence].
Qed.

Lemma touches_mono S S' w w' : (∀ x, S x → S' x) → touches S w w' → touches S' w w'.
Proof.
  intros Hsub (He & Hl & H). repeat (split; [done|]).
  intros p Hp. apply H. eauto.
Qed.

Lemma touches_bind {A B} S (c : M World A) (k : A → M World B) w :
  touches S w (c w).2 →
  (∀ a w', c w = (Ok a, w') → touches S w' (k a w').2) →
  touches S w ((c ≫= k) w).2.
Proof.
  intros Hc Hk. unfold mbind, M_bind. destruct (c w) as [[a|e] w'] eqn:Hcw; [|done].
  eapply touches_trans; [exact Hc|]. by apply Hk.
Qed.

Lemma touches_forEach {A} S (f : A → M World ()) xs w :
  (∀ x w1, x ∈ xs → touches S w w1 → touches S w1 (f x w1).2) →
  touches S w (forEach f xs w).2.
Proof.
  intros Hf. cut (∀ w1, touches S w w1 → touches S w (forEach f xs w1).2).
  { intros Hcut. apply Hcut, touches_refl. }
  induction xs as [|x xs IH]; intros w1 Hw1; [done|].
  cbn [forEach]. unfold mbind, M_bind.
  pose proof (Hf x w1 (list_elem_of_here _ _) Hw1) as Hx.
  destruct (f x w1) as [[[]|e] w2]; simpl in Hx.
  - apply IH; [|by eapply touches_trans]. intros. apply Hf; [by right|done].
  - by eapply touches_trans.
Qed.

(** Under [touches S], a session that joined the roster is in [S]. *)
Lemma touches_protos S w w' x :
  (S x ∨ ¬ S x) → touches S w w' → x ∈ protos w' → x ∈ protos w ∨ S x.
Proof.
  intros [HS|HS] (_ & _ & H) Hx; [by right|].
  destruct (H x HS) as (_ & Hp & _). left. tauto.
Qed.
End Touches.

Ltac wsimpl :=
  cbn [fst snd rooms e_listeners protos conns immediates sent
       set_rooms set_protos set_conns set_immediates set_sent] in *.

Section Footprints.
Variable wire : nat → Msg → result ().
Variable options : Options.
Implicit Types (w : World) (p q : nat).

Lemma proto_emit_ok q n d w :
  wire q (mkMsg n d) = Ok () →
  proto_emit wire q n d w = (Ok (), set_sent (λ s, s ++ [(q, mkMsg n d)]) w).
Proof. intros Hw. unfold proto_emit. by rewrite Hw. Qed.

Lemma proto_emit_throw q n d w e :
  wire q (mkMsg n d) = Throw e → proto_emit wire q n d w = (Throw e, w).
Proof. intros Hw. unfold proto_emit. by rewrite Hw. Qed.

Lemma proto_emit_touches q n d w : touches (λ x, x = q) w (proto_emit wire q n d w).2.
Proof.
  unfold proto_emit. destruct (wire q _) as [[]|e]; [|apply touches_refl].
  split; [done|]. split; [done|].
  intros p Hp. split; [done|]. split; [done|]. split; [done|].
  apply outbox_set_sent_other. congruence.
Qed.

Lemma update_conn_touches q f w : touches (λ x, x = q) w (update_conn q f w).2.
Proof.
  unfold update_conn, modify, touches. wsimpl. split; [done|].
  split; [by rewrite length_alter|]. intros p Hp.
  split; [|done]. apply list_lookup_alter_ne. congruence.
Qed.

Lemma addProto_touches q w : touches (λ x, x = q) w (addProto q w).2.
Proof.
  unfold addProto, touches. munfold. wsimpl. split; [done|]. split; [done|].
  intros p Hp. split; [done|].
  split; [|split; [|done]]; rewrite elem_of_app, list_elem_of_singleton; tauto.
Qed.

Lemma init_touches q w : touches (λ x, x = q) w (init q w).2.
Proof.
  unfold init. apply touches_bind; [apply update_conn_touches|].
  intros. apply addProto_touches.
Qed.

Lemma socket_end_touches q w : touches (λ x, x = q) w (socket_end q w).2.
Proof. apply update_conn_touches. Qed.

Lemma on_timeout_touches q w : touches (λ x, x = q) w (on_timeout wire q w).2.
Proof.
  unfold on_timeout. apply touches_bind; [apply proto_emit_touches|].
  intros. apply socket_end_touches.
Qed.

Lemma run_proto_handler_touches q h pwd w :
  touches (λ x, x = q) w (run_proto_handler wire options q h pwd w).2.
Proof.
  destruct h; simpl; [apply init_touches|].
  apply touches_bind; [apply update_conn_touches|]. intros _ w' _.
  destruct (strict_eq _ _).
  - apply touches_bind; [apply proto_emit_touches|]. intros. apply init_touches.
  - apply touches_bind; [apply proto_emit_touches|]. intros. apply socket_end_touches.
Qed.

Lemma removeProto_touches q w : touches (λ x, x = q) w (removeProto q w).2.
Proof.
  unfold removeProto, touches. munfold. wsimpl. split; [done|].
  split; [by rewrite length_alter|]. intros p Hp.
  split; [apply list_lookup_alter_ne; congruence|]. split; [|done].
  rewrite !list_elem_of_In, filter_In.
  destruct (Nat.eqb_spec p q); [done|]. simpl. tauto.
Qed.

Lemma dispatch_touches n d w : touches (λ x, x ∈ protos w) w (dispatch wire n d w).2.
Proof.
  unfold dispatch. munfold. wsimpl. apply touches_forEach.
  intros x w1 Hx _. eapply touches_mono; [|apply proto_emit_touches].
  by intros ? ->.
Qed.

Lemma e_emit_touches n d w : touches (λ x, x ∈ protos w) w (e_emit wire n d w).2.
Proof.
  unfold e_emit. munfold. wsimpl. apply touches_forEach.
  intros [n' h] w1 _ Hw1. destruct h; simpl; [destruct d; apply touches_refl|].
  eapply touches_mono; [|apply dispatch_touches].
  intros x Hx. simpl in Hx.
  assert (Hdec : x ∈ protos w ∨ ¬ x ∈ protos w).
  { destruct (decide (x ∈ protos w)); [by left|by right]. }
  destruct (touches_protos _ _ _ x Hdec Hw1 Hx); done.
Qed.

Lemma touches_try_catch {A} S (c : M World A) (h : Exn → M World A) w :
  touches S w (c w).2 →
  (∀ e w', touches S w' (h e w').2) →
  touches S w (try_catch c h w).2.
Proof.
  intros Hc Hh. unfold try_catch. destruct (c w) as [[a|e] w']; [done|].
  eapply touches_trans; [exact Hc|apply Hh].
Qed.

Lemma addProto_immediate_touches q w :
  touches (λ x, x ∈ protos w ∨ x = q) w (addProto_immediate wire q w).2.
Proof.
  unfold addProto_immediate. apply touches_try_catch.
  - apply touches_bind; [apply touches_refl|]. intros data w' [= <- <-].
    apply touches_bind.
    + eapply touches_mono; [|apply e_emit_touches]. by left.
    + intros _ w' _. eapply touches_mono; [|apply proto_emit_touches]. by right.
  - intros e w'. eapply touches_mono; [|apply proto_emit_touches]. by right.
Qed.

Lemma connection_touches w :
  touches (λ x, x = length (conns w)) w (connection wire options w).2.
Proof.
  unfold connection.
  apply touches_bind; [apply touches_refl|]. intros proto w' [= <- <-].
  apply touches_bind.
  { unfold modify, touches. wsimpl. split; [done|].
    split; [rewrite length_app; lia|]. intros p Hp. split; [|done].
    destruct (decide (p < length (conns w))%nat).
    - by rewrite lookup_app_l.
    - rewrite !lookup_ge_None_2; [done|lia|rewrite length_app; simpl; lia]. }
  intros _ w' _. destruct (negb _).
  - apply touches_bind; [apply proto_emit_touches|]. intros _ w'' _.
    apply touches_bind; [apply update_conn_touches|]. intros. apply touches_refl.
  - apply touches_bind; [apply proto_emit_touches|]. intros _ w'' _.
    apply touches_bind; [apply update_conn_touches|]. intros _ w''' _.
    apply touches_bind; [apply update_conn_touches|]. intros. apply touches_refl.
Qed.

Lemma proto_receive_touches q n d w :
  touches (λ x, x = q) w (proto_receive wire options q n d w).2.
Proof.
  unfold proto_receive.
  apply touches_bind; [apply touches_refl|]. intros ls w' _.
  apply touches_bind; [apply update_conn_touches|]. intros _ w'' _.
  apply touches_forEach. intros l w1 _ _. apply run_proto_handler_touches.
Qed.

Lemma timer_fires_touches q w : touches (λ x, x = q) w (timer_fires wire q w).2.
Proof.
  unfold timer_fires.
  apply touches_bind; [apply touches_refl|]. intros [t|] w' _; [|apply touches_refl].
  apply touches_bind; [apply update_conn_touches|]. intros. apply on_timeout_touches.
Qed.

Lemma run_immediate_touches w :
  touches (λ x, x ∈ protos w ∨ head (immediates w) = Some x) w (run_immediate wire w).2.
Proof.
  unfold run_immediate.
  apply touches_bind; [apply touches_refl|]. intros q w' [= <- <-].
  destruct (immediates w) as [|proto q'] eqn:Hq; [apply touches_refl|].
  apply touches_bind.
  - unfold modify, touches. wsimpl. split; [done|]. split; [done|].
    intros p Hp. split; [done|]. split; [done|]. split; [|done].
    rewrite Hq, elem_of_cons. split; [by right|]. intros [-> |?]; [|done].
    destruct Hp. by right.
  - intros a w' Heq. unfold modify in Heq. simplify_eq.
    eapply touches_mono; [|apply addProto_immediate_touches].
    intros x [?| ->]; wsimpl; [by left|right; reflexivity].
Qed.

Lemma step_touches ev w : touches (footprint ev w) w (step wire options ev w).2.
Proof.
  destruct ev; simpl.
  - apply touches_bind; [apply connection_touches|]. intros. apply touches_refl.
  - apply proto_receive_touches.
  - apply timer_fires_touches.
  - apply removeProto_touches.
  - apply run_immediate_touches.
  - apply e_emit_touches.
  - unfold modify, touches. by wsimpl.
Qed.

(** No step of the server adds a listener to the canonical event hub or
    takes one off. *)
Lemma run_e_listeners evs w :
  e_listeners (run wire options evs w).2 = e_listeners w.
Proof.
  revert w. induction evs as [|ev evs IH]; intros w; [done|].
  unfold run in *. cbn [forEach]. unfold mbind, M_bind.
  pose proof (step_touches ev w) as (He & _).
  destruct (step wire options ev w) as [[[]|e] w']; simpl in *; [|done].
  by rewrite IH.
Qed.
End Footprints.

Lemma filter_all {A} (f : A → bool) l :
  (∀ x, x ∈ l → f x = true) → List.filter f l = l.
Proof.
  induction l as [|x l IH]; intros Hf; [done|]. simpl.
  rewrite (Hf x) by left. f_equal. apply IH. intros. apply Hf. by right.
Qed.

Lemma filter_none {A} (f : A → bool) l :
  (∀ x, x ∈ l → f x = false) → List.filter f l = [].
Proof.
  induction l as [|x l IH]; intros Hf; [done|]. simpl.
  rewrite (Hf x) by left. apply IH. intros. apply Hf. by right.
Qed.

Lemma alter_fixed {A} (f : A → A) i (l : list A) :
  (∀ x, l !! i = Some x → f x = x) → alter f i l = l.
Proof.
  intros Hf. apply list_eq. intros j. destruct (decide (i = j)) as [->|Hne].
  - rewrite list_lookup_alter_eq. destruct (l !! j) eqn:Hj; [|done]. simpl. by rewrite Hf.
  - by rewrite list_lookup_alter_ne.
Qed.

Lemma set_conns_fixed f w : f (conns w) = conns w → set_conns f w = w.
Proof. intros Hf. destruct w. unfold set_conns. simpl in *. by rewrite Hf. Qed.

Section Parked.
Variable wire : nat → Msg → result ().
Variable options : Options.
Implicit Types (w : World) (p q : nat) (c : Conn).

Lemma touches_parked S p c out w w' :
  ¬ S p → touches S w w' → parked p c out w → parked p c out w'.
Proof.
  intros HS (_ & _ & H) (Hc & Hp & Hi & Ho).
  destruct (H p HS) as (Hc' & Hp' & Hi' & Ho').
  split; [congruence|]. split; [tauto|]. split; [tauto|congruence].
Qed.

(** A message no listener waits for leaves the world as it is. *)
Lemma proto_receive_unheard p n d w :
  (∀ c l, conns w !! p = Some c → l ∈ conn_listeners c → l.1 ≠ n) →
  proto_receive wire options p n d w = (Ok (), w).
Proof.
  intros Hl. unfold proto_receive, update_conn. munfold.
  assert (Hfix : set_conns (alter (set_listeners
            (List.filter (λ l : string * ProtoHandler, negb (String.eqb l.1 n)))) p) w = w).
  { apply set_conns_fixed, alter_fixed. intros c Hc. destruct c as [ls t a e].
    unfold set_listeners. simpl. f_equal. apply filter_all. intros l Hin.
    specialize (Hl _ l Hc Hin). by destruct (String.eqb_spec l.1 n). }
  rewrite Hfix.
  destruct (conns w !! p) as [c|] eqn:Hc; [|done].
  rewrite filter_none; [done|]. intros l Hin.
  specialize (Hl _ l eq_refl Hin). by destruct (String.eqb_spec l.1 n).
Qed.

Lemma timer_fires_disarmed p w :
  (∀ c, conns w !! p = Some c → conn_timeout c = None) →
  timer_fires wire p w = (Ok (), w).
Proof.
  intros Ht. unfold timer_fires. munfold.
  destruct (conns w !! p) as [c|] eqn:Hc; simpl; [|done]. by rewrite (Ht c).
Qed.

Lemma step_parked_quiet p c out ev w :
  quiet_for p ev →
  (∀ l, l ∈ conn_listeners c → l.1 = "password") →
  parked p c out w → parked p c out (step wire options ev w).2.
Proof.
  intros Hq Hl Hpk.
  assert (Hfp : (∀ n d, ev = Receive p n d → n ≠ "password") →
                ¬ footprint ev w p ∨ ∃ n d, ev = Receive p n d).
  { destruct Hpk as (Hc & Hp & Hi & _). intros Hn. destruct ev; simpl in *.
    - left. intros ->. apply lookup_lt_Some in Hc. lia.
    - destruct (decide (proto = p)) as [->|]; [right; eauto|left; congruence].
    - left. congruence.
    - left. congruence.
    - left. intros [?|Hh]; [done|]. apply Hi. destruct (immediates w); simplify_eq/=. left.
    - left. done.
    - left. tauto. }
  destruct Hfp as [Hfp|(n & d & ->)].
  - intros n d ->. simpl in Hq. by destruct Hq.
  - eapply touches_parked; [exact Hfp|apply step_touches|done].
  - simpl in *. destruct Hq as [?|Hn]; [done|].
    rewrite proto_receive_unheard; [done|].
    intros c' l Hc' Hin. destruct Hpk as (Hc & _). simplify_eq.
    rewrite (Hl l Hin). done.
Qed.

Lemma step_parked_closed p c out ev w :
  conn_listeners c = [] → conn_timeout c = None →
  parked p c out w → parked p c out (step wire options ev w).2.
Proof.
  intros Hl Ht Hpk.
  assert (Hnone : ∀ l : string * ProtoHandler, l ∈ conn_listeners c → l.1 = "password").
  { rewrite Hl. by intros ? ?%elem_of_nil. }
  destruct ev as [|q n d|q|q| | |rs]; try (by apply step_parked_quiet).
  - destruct (decide (q = p)) as [->|Hne]; [|by apply step_parked_quiet; [left|..]].
    simpl. rewrite proto_receive_unheard; [done|].
    intros c' l Hc' Hin. destruct Hpk as (Hc & _). simplify_eq.
    rewrite Hl in Hin. by apply elem_of_nil in Hin.
  - destruct (decide (q = p)) as [->|Hne]; [|by apply step_parked_quiet].
    simpl. rewrite timer_fires_disarmed; [done|].
    intros c' Hc'. destruct Hpk as (Hc & _). by simplify_eq.
  - destruct (decide (q = p)) as [->|Hne]; [|by apply step_parked_quiet].
    destruct Hpk as (Hc & Hp & Hi & Ho). simpl. unfold removeProto. munfold. wsimpl.
    rewrite set_conns_fixed.
    + split; [done|]. split; [|done]. wsimpl.
      rewrite list_elem_of_In, filter_In, <- list_elem_of_In. tauto.
    + wsimpl. apply alter_fixed. intros c' Hc'. rewrite Hc in Hc'. injection Hc' as <-.
      destruct c as [ls t a e]. simpl in *. by subst.
Qed.

Lemma run_parked_quiet p c out evs w :
  Forall (quiet_for p) evs →
  (∀ l, l ∈ conn_listeners c → l.1 = "password") →
  parked p c out w → parked p c out (run wire options evs w).2.
Proof.
  intros Hq Hl. revert w. induction Hq as [|ev evs Hev _ IH]; intros w Hpk; [done|].
  unfold run in *. cbn [forEach]. unfold mbind, M_bind.
  pose proof (step_parked_quiet p c out ev w Hev Hl Hpk) as Hstep.
  destruct (step wire options ev w) as [[[]|e] w']; simpl in *; [by apply IH|done].
Qed.

(** A session with no listener and no timer, out of the roster and with no
    [init] pending, stays so whatever happens. *)
Lemma run_parked_closed p c out evs w :
  conn_listeners c = [] → conn_timeout c = None →
  parked p c out w → parked p c out (run wire options evs w).2.
Proof.
  intros Hl Ht. revert w. induction evs as [|ev evs IH]; intros w Hpk; [done|].
  unfold run in *. cbn [forEach]. unfold mbind, M_bind.
  pose proof (step_parked_closed p c out ev w Hl Ht Hpk) as Hstep.
  destruct (step wire options ev w) as [[[]|e] w']; simpl in *; [by apply IH|done].
Qed.
End Parked.

Section Numbered.
Variable wire : nat → Msg → result ().
Variable options : Options.
Implicit Types (w : World) (p q : nat).

Lemma connection_length w :
  length (conns (connection wire options w).2) = S (length (conns w)).
Proof.
  unfold connection, proto_emit, update_conn. munfold.
  destruct (negb _); destruct (wire _ _) as [[]|e]; wsimpl;
    rewrite ?length_alter, length_app; simpl; lia.
Qed.

Lemma removeProto_absent q w :
  conns w !! q = None →
  removeProto q w
    = (Ok (), set_protos (List.filter (λ x, negb (Nat.eqb x q))) w).
Proof.
  intros Hq. unfold removeProto. munfold. f_equal.
  apply set_conns_fixed. wsimpl. apply alter_fixed. intros c Hc. congruence.
Qed.

Lemma step_numbered ev w : numbered w → numbered (step wire options ev w).2.
Proof.
  intros Hn.
  destruct (step_touches wire options ev w) as (_ & Hlen & H).
  assert (Hkeep : ∀ x, ¬ footprint ev w x →
            (x ∈ protos (step wire options ev w).2) ∨
            (x ∈ immediates (step wire options ev w).2) ∨
            (x ∈ (sent (step wire options ev w).2).*1) →
            (x < length (conns (step wire options ev w).2))%nat).
  { intros x Hx Hin. destruct (H x Hx) as (_ & Hp & Hi & Ho).
    rewrite elem_of_sent_outbox, Ho, <- elem_of_sent_outbox, Hp, Hi in Hin.
    specialize (Hn x Hin). lia. }
  assert (Hold : ∀ x, (x < length (conns w))%nat →
            (x < length (conns (step wire options ev w).2))%nat) by (intros; lia).
  intros x Hin. destruct ev as [|q n d|q|q| | |rs]; simpl in Hkeep.
  - destruct (decide (x = length (conns w))) as [->|Hne]; [|by apply Hkeep].
    simpl. munfold. pose proof (connection_length w) as Hl.
    destruct (connection wire options w) as [[a|e] w']; simpl in *; lia.
  - destruct (decide (x = q)) as [->|Hne]; [|by apply Hkeep].
    destruct (conns w !! q) as [c|] eqn:Hq; [by apply Hold; eapply lookup_lt_Some|].
    assert (Hw : (step wire options (Receive q n d) w).2 = w).
    { simpl. rewrite proto_receive_unheard; [done|congruence]. }
    rewrite Hw in *. by apply Hn.
  - destruct (decide (x = q)) as [->|Hne]; [|by apply Hkeep].
    destruct (conns w !! q) as [c|] eqn:Hq; [by apply Hold; eapply lookup_lt_Some|].
    assert (Hw : (step wire options (TimerFires q) w).2 = w).
    { simpl. rewrite timer_fires_disarmed; [done|congruence]. }
    rewrite Hw in *. by apply Hn.
  - destruct (decide (x = q)) as [->|Hne]; [|by apply Hkeep].
    destruct (conns w !! q) as [c|] eqn:Hq; [by apply Hold; eapply lookup_lt_Some|].
    assert (Hw : (step wire options (Close q) w).2
                   = set_protos (List.filter (λ x, negb (Nat.eqb x q))) w).
    { cbn [step]. by rewrite removeProto_absent. }
    rewrite Hw in *. wsimpl. apply Hn. destruct Hin as [Hin|Hin]; [|by right].
    left. rewrite list_elem_of_In, filter_In, <- list_elem_of_In in Hin. tauto.
  - destruct (decide (x ∈ protos w)) as [Hp|Hp]; [by apply Hold, Hn; left|].
    destruct (decide (head (immediates w) = Some x)) as [Hh|Hh].
    + apply Hold, Hn. right. left. destruct (immediates w); simplify_eq/=. left.
    + apply Hkeep; [tauto|done].
  - destruct (decide (x ∈ protos w)) as [Hp|Hp]; [by apply Hold, Hn; left|].
    by apply Hkeep.
  - apply Hkeep; [tauto|done].
Qed.

Lemma run_numbered evs w : numbered w → numbered (run wire options evs w).2.
Proof.
  revert w. induction evs as [|ev evs IH]; intros w Hn; [done|].
  unfold run in *. cbn [forEach]. unfold mbind, M_bind.
  pose proof (step_numbered ev w Hn) as Hstep.
  destruct (step wire options ev w) as [[[]|e] w']; simpl in *; [by apply IH|done].
Qed.

Lemma reachable_numbered w : reachable wire options w → numbered w.
Proof.
  intros (rs & dbg & evs & Hrun).
  pose proof (run_numbered evs (initial_world rs dbg)) as Hn.
  rewrite Hrun in Hn. apply Hn.
  intros q [Hq|[Hq|Hq]]; by apply elem_of_nil in Hq.
Qed.

(** The number of the next connection is not in use. *)
Lemma numbered_fresh w :
  numbered w →
  (length (conns w) ∉ protos w) ∧ (length (conns w) ∉ immediates w) ∧
  outbox (length (conns w)) w = [].
Proof.
  intros Hn. split; [|split].
  - intros Hin. specialize (Hn _ (or_introl Hin)). lia.
  - intros Hin. specialize (Hn _ (or_intror (or_introl Hin))). lia.
  - destruct (outbox (length (conns w)) w) eqn:Ho; [done|].
    assert (Hin : length (conns w) ∈ (sent w).*1).
    { apply elem_of_sent_outbox. by rewrite Ho. }
    specialize (Hn _ (or_intror (or_intror Hin))). lia.
Qed.

Lemma run_cons_Ok ev evs w w1 :
  run wire options (ev :: evs) w = (Ok (), w1) →
  ∃ w0, step wire options ev w = (Ok (), w0) ∧ run wire options evs w0 = (Ok (), w1).
Proof.
  unfold run. cbn [forEach]. unfold mbind, M_bind.
  destruct (step wire options ev w) as [[[]|e] w0]; [eauto|done].
Qed.
End Numbered.

(** ** The handshake *)

Section Handshake.
Variable wire : nat → Msg → result ().
Variable options : Options.
Implicit Types (w : World) (p q : nat).

Lemma outbox_sent_snoc p w w' m :
  sent w' = sent w ++ [(p, m)] → outbox p w' = outbox p w ++ [m].
Proof.
  intros Hs. unfold outbox. rewrite Hs, List.filter_app, fmap_app. simpl.
  by rewrite Nat.eqb_refl.
Qed.

(** With a password configured, a new connection is asked for it, its
    timer is started with [authTimeout] and the session waits. *)
Lemma connection_secured w wc :
  truthy (password options) = true →
  numbered w →
  step wire options Connection w = (Ok (), wc) →
  parked (length (conns w))
         (mkConn [("password", PasswordCheck)] (Some (authTimeout options)) false false)
         [mkMsg "reqAuth" (VBool true)] wc.
Proof.
  intros Ht Hn. destruct (numbered_fresh w Hn) as (Hp & Hi & Ho).
  cbn [step]. unfold connection, proto_emit, update_conn. munfold. rewrite Ht.
  cbn [negb]. destruct (wire _ _) as [[]|e]; [|by intros [=]].
  intros [= <-]. unfold parked. wsimpl. split; [|split; [done|split; [done|]]].
  - by rewrite !list_lookup_alter_eq, list_lookup_middle.
  - rewrite (outbox_sent_snoc _ w _ (mkMsg "reqAuth" (VBool true))) by reflexivity.
    by rewrite Ho.
Qed.

(** With no password configured, a new connection is told so, no timer is
    started and the session waits for the acknowledgment. *)
Lemma connection_open w wc :
  truthy (password options) = false →
  numbered w →
  step wire options Connection w = (Ok (), wc) →
  parked (length (conns w))
         (mkConn [("password", PasswordOpen)] None false false)
         [mkMsg "reqAuth" (VBool false)] wc.
Proof.
  intros Ht Hn. destruct (numbered_fresh w Hn) as (Hp & Hi & Ho).
  cbn [step]. unfold connection, proto_emit, update_conn. munfold. rewrite Ht.
  cbn [negb]. destruct (wire _ _) as [[]|e]; [|by intros [=]].
  intros [= <-]. unfold parked. wsimpl. split; [|split; [done|split; [done|]]].
  - by rewrite !list_lookup_alter_eq, list_lookup_middle.
  - rewrite (outbox_sent_snoc _ w _ (mkMsg "reqAuth" (VBool false))) by reflexivity.
    by rewrite Ho.
Qed.

(** The password listener accepts a matching password, whatever became of
    the timer and of the socket in between. *)
Lemma password_accepted p pwd t a e w :
  conns w !! p = Some (mkConn [("password", PasswordCheck)] t a e) →
  strict_eq pwd (password options) = true →
  wire p (mkMsg "auth" (VObj [("authorized", VBool true)])) = Ok () →
  ∃ w2, step wire options (Receive p "password" pwd) w = (Ok (), w2) ∧
        protos w2 = protos w ++ [p] ∧
        immediates w2 = immediates w ++ [p] ∧
        outbox p w2 = outbox p w ++ [mkMsg "auth" (VObj [("authorized", VBool true)])] ∧
        conns w2 !! p = Some (mkConn [] None true e).
Proof.
  intros Hc Hpw Hw. eexists. split.
  - cbn [step]. unfold proto_receive, update_conn. munfold. rewrite Hc.
    cbn. unfold update_conn, proto_emit, init, addProto, update_conn. munfold.
    rewrite Hpw, Hw. reflexivity.
  - wsimpl. split; [done|]. split; [done|]. split.
    + by apply outbox_sent_snoc.
    + by rewrite !list_lookup_alter_eq, Hc.
Qed.

Lemma password_rejected p pwd t a e w :
  conns w !! p = Some (mkConn [("password", PasswordCheck)] t a e) →
  strict_eq pwd (password options) = false →
  wire p (mkMsg "auth" (VObj [("authorized", VBool false);
                              ("error", VStr "INVALID_PASSWORD")])) = Ok () →
  ∃ w2, step wire options (Receive p "password" pwd) w = (Ok (), w2) ∧
        protos w2 = protos w ∧
        immediates w2 = immediates w ∧
        outbox p w2 = outbox p w ++ [mkMsg "auth" (VObj [("authorized", VBool false);
                                               ("error", VStr "INVALID_PASSWORD")])] ∧
        conns w2 !! p = Some (mkConn [] None a true).
Proof.
  intros Hc Hpw Hw. eexists. split.
  - cbn [step]. unfold proto_receive, update_conn. munfold. rewrite Hc.
    cbn. unfold update_conn, proto_emit, socket_end, update_conn. munfold.
    rewrite Hpw, Hw. reflexivity.
  - wsimpl. split; [done|]. split; [done|]. split.
    + by apply outbox_sent_snoc.
    + by rewrite !list_lookup_alter_eq, Hc.
Qed.

Lemma timer_expired p ls t a e w :
  conns w !! p = Some (mkConn ls (Some t) a e) →
  wire p (mkMsg "auth" (VObj [("authorized", VBool false); ("error", VStr "TIMEOUT")]))
    = Ok () →
  ∃ w2, step wire options (TimerFires p) w = (Ok (), w2) ∧
        protos w2 = protos w ∧
        immediates w2 = immediates w ∧
        outbox p w2 = outbox p w ++ [mkMsg "auth" (VObj [("authorized", VBool false);
                                                        ("error", VStr "TIMEOUT")])] ∧
        conns w2 !! p = Some (mkConn ls None a true).
Proof.
  intros Hc Hw. eexists. split.
  - cbn [step]. unfold timer_fires, on_timeout, socket_end, update_conn, proto_emit.
    munfold. rewrite Hc. cbn. rewrite Hw. reflexivity.
  - wsimpl. split; [done|]. split; [done|]. split.
    + by apply outbox_sent_snoc.
    + by rewrite !list_lookup_alter_eq, Hc.
Qed.

(** In the open mode the listener admits the session without looking at what
    came with the message, and sends nothing. *)
Lemma password_open p t a e w :
  conns w !! p = Some (mkConn [("password", PasswordOpen)] t a e) →
  ∃ w2, (∀ pwd, step wire options (Receive p "password" pwd) w = (Ok (), w2)) ∧
        protos w2 = protos w ++ [p] ∧
        immediates w2 = immediates w ++ [p] ∧
        sent w2 = sent w ∧
        conns w2 !! p = Some (mkConn [] t true e).
Proof.
  intros Hc. eexists. split.
  - intros pwd. cbn [step]. unfold proto_receive, update_conn. munfold. rewrite Hc.
    cbn. unfold init, addProto, update_conn. munfold. reflexivity.
  - wsimpl. split; [done|]. split; [done|]. split; [done|].
    by rewrite !list_lookup_alter_eq, Hc.
Qed.
End Handshake.

(** A connection that was just accepted waits, through the events that are
    not its own, in the state its handshake started in. *)
Lemma handshake_waits wire options w mid w1 c out :
  (∀ l, l ∈ conn_listeners c → l.1 = "password") →
  Forall (quiet_for (length (conns w))) mid →
  (∀ wc, step wire options Connection w = (Ok (), wc) → parked (length (conns w)) c out wc) →
  run wire options (Connection :: mid) w = (Ok (), w1) →
  parked (length (conns w)) c out w1.
Proof.
  intros Hl Hq Hconn (wc & Hstep & Hmid)%run_cons_Ok.
  pose proof (run_parked_quiet wire options _ c out mid wc Hq Hl (Hconn wc Hstep)) as Hpk.
  by rewrite Hmid in Hpk.
Qed.

(** C3: with a password configured, a new connection on a working wire is sent
    [reqAuth(true)] and waits outside the roster with its timer started for
    [authTimeout].  Whatever else happens meanwhile, when its first [password]
    message comes before the timer expires, a matching password gets
    [auth({authorized: true})] and the session joins the roster at its end; a
    password that does not match gets [auth({authorized: false, error:
    "INVALID_PASSWORD"})], the socket is ended and the roster is unchanged;
    and when the timer expires first, the connection gets
    [auth({authorized: false, error: "TIMEOUT"})], the socket is ended and the
    roster is unchanged. *)
Theorem C3_password_handshake (wire : nat → Msg → result ()) (options : Options)
    (w w1 : World) (mid : list Event) (p : nat) (pwd : Val) :
  truthy (password options) = true →
  reachable wire options w →
  p = length (conns w) →
  Forall (quiet_for p) mid →
  run wire options (Connection :: mid) w = (Ok (), w1) →
  (∀ m, wire p m = Ok ()) →
  (outbox p w1 = [mkMsg "reqAuth" (VBool true)] ∧ (p ∉ protos w1) ∧
   conn_timeout <$> conns w1 !! p = Some (Some (authTimeout options))) ∧
  (strict_eq pwd (password options) = true →
   ∃ w2, step wire options (Receive p "password" pwd) w1 = (Ok (), w2) ∧
         outbox p w2 = [mkMsg "reqAuth" (VBool true);
                        mkMsg "auth" (VObj [("authorized", VBool true)])] ∧
         protos w2 = protos w1 ++ [p] ∧
         conn_authorized <$> conns w2 !! p = Some true) ∧
  (strict_eq pwd (password options) = false →
   ∃ w2, step wire options (Receive p "password" pwd) w1 = (Ok (), w2) ∧
         outbox p w2 = [mkMsg "reqAuth" (VBool true);
                        mkMsg "auth" (VObj [("authorized", VBool false);
                                            ("error", VStr "INVALID_PASSWORD")])] ∧
         protos w2 = protos w1 ∧
         conn_ended <$> conns w2 !! p = Some true) ∧
  (∃ w2, step wire options (TimerFires p) w1 = (Ok (), w2) ∧
         outbox p w2 = [mkMsg "reqAuth" (VBool true);
                        mkMsg "auth" (VObj [("authorized", VBool false);
                                            ("error", VStr "TIMEOUT")])] ∧
         protos w2 = protos w1 ∧
         conn_ended <$> conns w2 !! p = Some true).
Proof.
  intros Ht Hreach -> Hq Hrun Hwire.
  assert (Hpk : parked (length (conns w))
                  (mkConn [("password", PasswordCheck)] (Some (authTimeout options)) false false)
                  [mkMsg "reqAuth" (VBool true)] w1).
  { eapply handshake_waits; [|done| |done].
    - by intros l ->%list_elem_of_singleton.
    - intros wc Hwc.
      apply (connection_secured wire options); [done|by eapply reachable_numbered|done]. }
  destruct Hpk as (Hc & Hp & Hi & Ho). split; [|split; [|split]].
  - by rewrite Hc.
  - intros Hpw.
    destruct (password_accepted wire options _ pwd _ _ _ w1 Hc Hpw (Hwire _))
      as (w2 & Hstep & Hp2 & _ & Ho2 & Hc2).
    exists w2. rewrite Ho2, Ho, Hc2. done.
  - intros Hpw.
    destruct (password_rejected wire options _ pwd _ _ _ w1 Hc Hpw (Hwire _))
      as (w2 & Hstep & Hp2 & _ & Ho2 & Hc2).
    exists w2. rewrite Ho2, Ho, Hc2. done.
  - destruct (timer_expired wire options _ _ _ _ _ w1 Hc (Hwire _))
      as (w2 & Hstep & Hp2 & _ & Ho2 & Hc2).
    exists w2. rewrite Ho2, Ho, Hc2. done.
Qed.

Lemma C3_password_handshake_witness :
  ∃ w2, step wire_up secret_options (Receive 0 "password" (VStr "secret"))
             (run wire_up secret_options [Connection; a_joins_r1]
                  (initial_world [] false)).2 = (Ok (), w2) ∧
        outbox 0 w2 = [mkMsg "reqAuth" (VBool true);
                       mkMsg "auth" (VObj [("authorized", VBool true)])] ∧
        protos w2 = [] ++ [0%nat] ∧
        conn_authorized <$> conns w2 !! 0%nat = Some true.
Proof.
  assert (Hreach : reachable wire_up secret_options (initial_world [] false)).
  { by exists [], false, []. }
  assert (Hq : Forall (quiet_for 0) [a_joins_r1]).
  { by repeat constructor. }
  destruct (C3_password_handshake wire_up secret_options (initial_world [] false)
              (run wire_up secret_options [Connection; a_joins_r1]
                   (initial_world [] false)).2
              [a_joins_r1] 0%nat (VStr "secret")
              eq_refl Hreach eq_refl Hq eq_refl (λ _, eq_refl)) as (_ & Hok & _).
  exact (Hok eq_refl).
Defined.

(** C10: with no password configured, a new connection is sent
    [reqAuth(false)] and waits with no timer started.  Whatever else happens
    meanwhile, its first [password] message admits it at the end of the
    roster in the same way for every payload, and by then it has been sent
    nothing but [reqAuth(false)], so no [auth] message. *)
Theorem C10_open_mode_admits_any_password (wire : nat → Msg → result ())
    (options : Options) (w w1 : World) (mid : list Event) (p : nat) :
  truthy (password options) = false →
  reachable wire options w →
  p = length (conns w) →
  Forall (quiet_for p) mid →
  run wire options (Connection :: mid) w = (Ok (), w1) →
  (outbox p w1 = [mkMsg "reqAuth" (VBool false)] ∧ (p ∉ protos w1) ∧
   conn_timeout <$> conns w1 !! p = Some None ∧
   step wire options (TimerFires p) w1 = (Ok (), w1)) ∧
  ∃ w2, (∀ pwd, step wire options (Receive p "password" pwd) w1 = (Ok (), w2)) ∧
        protos w2 = protos w1 ++ [p] ∧
        outbox p w2 = [mkMsg "reqAuth" (VBool false)] ∧
        (∀ m, m ∈ outbox p w2 → msg_name m ≠ "auth") ∧
        conn_timeout <$> conns w2 !! p = Some None.
Proof.
  intros Ht Hreach -> Hq Hrun.
  assert (Hpk : parked (length (conns w))
                  (mkConn [("password", PasswordOpen)] None false false)
                  [mkMsg "reqAuth" (VBool false)] w1).
  { eapply handshake_waits; [|done| |done].
    - by intros l ->%list_elem_of_singleton.
    - intros wc Hwc.
      apply (connection_open wire options); [done|by eapply reachable_numbered|done]. }
  destruct Hpk as (Hc & Hp & Hi & Ho). split.
  - split; [done|]. split; [done|]. split; [by rewrite Hc|].
    cbn [step]. apply timer_fires_disarmed. intros c Hc'. by simplify_eq.
  - destruct (password_open wire options _ _ _ _ w1 Hc) as (w2 & Hstep & Hp2 & _ & Hs2 & Hc2).
    exists w2. split; [done|]. split; [done|].
    assert (Ho2 : outbox (length (conns w)) w2 = [mkMsg "reqAuth" (VBool false)]).
    { unfold outbox in *. by rewrite Hs2. }
    split; [done|]. split; [|by rewrite Hc2].
    rewrite Ho2. by intros m ->%list_elem_of_singleton.
Qed.

Lemma C10_open_mode_admits_any_password_witness :
  ∃ w2, (∀ pwd, step wire_up default_options (Receive 0 "password" pwd)
                  (run wire_up default_options [Connection] (initial_world [] false)).2
                = (Ok (), w2)) ∧
        protos w2 = [] ++ [0%nat] ∧
        outbox 0 w2 = [mkMsg "reqAuth" (VBool false)] ∧
        (∀ m, m ∈ outbox 0 w2 → msg_name m ≠ "auth") ∧
        conn_timeout <$> conns w2 !! 0%nat = Some None.
Proof.
  assert (Hreach : reachable wire_up default_options (initial_world [] false)).
  { by exists [], false, []. }
  exact (proj2 (C10_open_mode_admits_any_password wire_up default_options
                  (initial_world [] false)
                  (run wire_up default_options [Connection] (initial_world [] false)).2
                  [] 0%nat eq_refl Hreach eq_refl (Forall_nil_2 _) eq_refl)).
Defined.

(** The part of C4 that holds: a connection whose password was refused has no
    listener and no timer left, and it never joins the roster, whatever
    comes later, a matching password included. *)
Lemma rejected_never_admitted wire options p pwd t a e w w2 evs :
  conns w !! p = Some (mkConn [("password", PasswordCheck)] t a e) →
  (p ∉ protos w) → (p ∉ immediates w) →
  strict_eq pwd (password options) = false →
  step wire options (Receive p "password" pwd) w = (Ok (), w2) →
  p ∉ protos (run wire options evs w2).2.
Proof.
  intros Hc Hp Hi Hpw Hstep.
  assert (Hpk : parked p (mkConn [] None a true) (outbox p w2) w2).
  { revert Hstep. cbn [step]. unfold proto_receive, update_conn. munfold. rewrite Hc.
    cbn. unfold update_conn, proto_emit, socket_end, update_conn. munfold.
    rewrite Hpw. destruct (wire _ _) as [[]|err]; [|by intros [=]].
    intros [= <-]. unfold parked. wsimpl.
    split; [by rewrite !list_lookup_alter_eq, Hc|done]. }
  by destruct (run_parked_closed wire options p (mkConn [] None a true) _ evs w2
                 eq_refl eq_refl Hpk) as (_ & ? & _).
Qed.

(** The defect behind C4: the expiry of the timer leaves the [password]
    listener on the session, so a matching password that comes after the
    [TIMEOUT] answer, and before the connection closes, is accepted. *)
Lemma late_password_admitted wire options p pwd t a e w :
  conns w !! p = Some (mkConn [("password", PasswordCheck)] (Some t) a e) →
  strict_eq pwd (password options) = true →
  (∀ m, wire p m = Ok ()) →
  ∃ w2 w3, step wire options (TimerFires p) w = (Ok (), w2) ∧
           step wire options (Receive p "password" pwd) w2 = (Ok (), w3) ∧
           protos w3 = protos w ++ [p] ∧
           conns w3 !! p = Some (mkConn [] None true true).
Proof.
  intros Hc Hpw Hwire.
  destruct (timer_expired wire options p _ _ _ _ w Hc (Hwire _))
    as (w2 & Hstep2 & Hp2 & _ & _ & Hc2).
  destruct (password_accepted wire options p pwd _ _ _ w2 Hc2 Hpw (Hwire _))
    as (w3 & Hstep3 & Hp3 & _ & _ & Hc3).
  exists w2, w3. by rewrite Hp3, Hp2.
Qed.

(** C4, at the failing input: the password is ["secret"], a connection lets
    its timer expire and then sends ["secret"].  It is answered [TIMEOUT] and
    its socket is ended, and then it is answered [authorized: true] and put
    in the roster. *)
Theorem C4_late_password_after_timeout :
  ∃ w, run wire_up secret_options
           [Connection; TimerFires 0; Receive 0 "password" (VStr "secret")]
           (initial_world [] false) = (Ok (), w) ∧
       protos w = [0%nat] ∧
       conns w !! 0%nat = Some (mkConn [] None true true) ∧
       outbox 0 w = [mkMsg "reqAuth" (VBool true);
                     mkMsg "auth" (VObj [("authorized", VBool false);
                                         ("error", VStr "TIMEOUT")]);
                     mkMsg "auth" (VObj [("authorized", VBool true)])].
Proof. eexists. split; [vm_compute; reflexivity|]. by vm_compute. Qed.

(** ** The dispatcher *)

Section Dispatcher.
Variable wire : nat → Msg → result ().
Variable options : Options.
Implicit Types (w : World) (p q : nat).

Lemma only_sends_refl w : only_sends w w.
Proof. by repeat split. Qed.

Lemma only_sends_trans w1 w2 w3 : only_sends w1 w2 → only_sends w2 w3 → only_sends w1 w3.
Proof.
  intros (? & ? & ? & ? & ?) (? & ? & ? & ? & ?). repeat split; congruence.
Qed.

Lemma forEach_only_sends {A} (f : A → M World ()) xs w :
  (∀ x w1, only_sends w1 (f x w1).2) → only_sends w (forEach f xs w).2.
Proof.
  intros Hf. revert w. induction xs as [|x xs IH]; intros w; [apply only_sends_refl|].
  cbn [forEach]. unfold mbind, M_bind. pose proof (Hf x w) as Hx.
  destruct (f x w) as [[[]|e] w1]; [|done].
  eapply only_sends_trans; [exact Hx|apply IH].
Qed.

Lemma proto_emit_only_sends q n d w : only_sends w (proto_emit wire q n d w).2.
Proof. unfold proto_emit. by destruct (wire _ _) as [[]|e]. Qed.

Lemma dispatch_only_sends n d w : only_sends w (dispatch wire n d w).2.
Proof.
  unfold dispatch. munfold. apply forEach_only_sends.
  intros. apply proto_emit_only_sends.
Qed.

Lemma e_emit_only_sends n d w : only_sends w (e_emit wire n d w).2.
Proof.
  unfold e_emit. munfold. apply forEach_only_sends.
  intros [? []] w1; [destruct d; apply only_sends_refl|apply dispatch_only_sends].
Qed.

Lemma addProto_immediate_only_sends q w :
  only_sends w (addProto_immediate wire q w).2.
Proof.
  unfold addProto_immediate. munfold.
  pose proof (e_emit_only_sends "client"
    (VObj [("client", VRef q); ("state", State_val (getState (rooms w)))]) w) as He.
  destruct (e_emit wire _ _ w) as [[[]|e] w1].
  - pose proof (proto_emit_only_sends q "init" (State_val (getState (rooms w))) w1) as Hi.
    destruct (proto_emit wire q "init" _ w1) as [[[]|e] w2];
      [by eapply only_sends_trans| ].
    eapply only_sends_trans; [exact He|].
    eapply only_sends_trans; [exact Hi|apply proto_emit_only_sends].
  - eapply only_sends_trans; [exact He|apply proto_emit_only_sends].
Qed.

(** The fan-out of one event when every send returns: one message per
    session of the roster, in the order of the roster. *)
Lemma forEach_emit_ok n d ps w :
  (∀ q, q ∈ ps → wire q (mkMsg n d) = Ok ()) →
  forEach (λ proto, proto_emit wire proto n d) ps w
    = (Ok (), set_sent (λ s, s ++ map (λ q, (q, mkMsg n d)) ps) w).
Proof.
  revert w. induction ps as [|x ps IH]; intros w Hok.
  - simpl. unfold mret, M_ret. f_equal. destruct w. unfold set_sent. simpl.
    by rewrite app_nil_r.
  - cbn [forEach]. unfold mbind, M_bind.
    rewrite proto_emit_ok by (apply Hok; left).
    rewrite IH by (intros; apply Hok; by right).
    f_equal. unfold set_sent. simpl. by rewrite <- app_assoc.
Qed.

(** The fan-out when a send throws: it ends there. *)
Lemma forEach_emit_throw n d pre q post e w :
  (∀ x, x ∈ pre → wire x (mkMsg n d) = Ok ()) →
  wire q (mkMsg n d) = Throw e →
  forEach (λ proto, proto_emit wire proto n d) (pre ++ q :: post) w
    = (Throw e, set_sent (λ s, s ++ map (λ x, (x, mkMsg n d)) pre) w).
Proof.
  intros Hpre Hq. rewrite forEach_app, forEach_emit_ok by done.
  cbn [forEach]. unfold mbind, M_bind. by rewrite (proto_emit_throw _ _ _ _ _ e).
Qed.

Lemma filter_initial_listeners dbg n :
  n ∈ event_names →
  List.filter (λ l : string * Handler, String.eqb l.1 n) (initial_listeners dbg)
    = (if dbg then [(n, HDebug n)] else []) ++ [(n, HDispatch n)].
Proof.
  intros Hn. unfold event_names in Hn.
  repeat (apply elem_of_cons in Hn as [->|Hn]; [by destruct dbg|]).
  by apply elem_of_nil in Hn.
Qed.

(** Publishing a retransmitted event is dispatching it. *)
Lemma e_emit_initial dbg n fields w :
  e_listeners w = initial_listeners dbg →
  n ∈ event_names →
  e_emit wire n (VObj fields) w = dispatch wire n (VObj fields) w.
Proof.
  intros He Hn. unfold e_emit. munfold. rewrite He, filter_initial_listeners by done.
  destruct dbg; simpl; munfold;
    by destruct (dispatch wire n (VObj fields) w) as [[[]|e] w'].
Qed.
End Dispatcher.

(** [addProto] puts the session at the end of the roster: the roster lists
    the sessions in the order they were admitted. *)
Lemma addProto_appends q w :
  addProto q w = (Ok (), set_immediates (λ i, i ++ [q]) (set_protos (λ ps, ps ++ [q]) w)).
Proof. reflexivity. Qed.

(** The canonical event hub of a reachable world has the listeners it
    started with. *)
Lemma reachable_listeners wire options w :
  reachable wire options w → ∃ dbg, e_listeners w = initial_listeners dbg.
Proof.
  intros (rs & dbg & evs & Hrun). exists dbg.
  pose proof (run_e_listeners wire options evs (initial_world rs dbg)) as He.
  by rewrite Hrun in He.
Qed.

(** C6: in every state the server reaches, with sends that return, publishing
    a list of events of the retransmitted names sends, for each event in
    turn, one message with the event's name and payload to each session of
    the roster, in the order of the roster; nothing else is sent and nothing
    else changes.  The roster is in admission order, since [addProto]
    appends. *)
Theorem C6_events_forwarded_in_admission_order (wire : nat → Msg → result ())
    (options : Options) (evs : list (string * list (string * Val))) (w : World) :
  reachable wire options w →
  (∀ ev, ev ∈ evs → ev.1 ∈ event_names) →
  (∀ ev q, ev ∈ evs → q ∈ protos w → wire q (mkMsg ev.1 (VObj ev.2)) = Ok ()) →
  run wire options (publish_all evs) w
    = (Ok (), set_sent (λ s, s ++ (evs ≫= λ ev,
                               map (λ q, (q, mkMsg ev.1 (VObj ev.2))) (protos w))) w)
  ∧ ∀ q, protos (addProto q w).2 = protos w ++ [q].
Proof.
  intros [debug_enabled He]%reachable_listeners Hn Hok. split; [|done].
  revert w He Hok. induction evs as [|[n d] evs IH]; intros w He Hok.
  - simpl. unfold run. simpl. unfold mret, M_ret. f_equal.
    destruct w. unfold set_sent. simpl. by rewrite app_nil_r.
  - unfold run, publish_all in *. cbn [map forEach step fst snd]. unfold mbind, M_bind.
    rewrite (e_emit_initial wire debug_enabled) by (done || apply (Hn (n, d)); left).
    unfold dispatch. munfold.
    rewrite forEach_emit_ok by (intros q Hq; apply (Hok (n, d)); [left|done]).
    rewrite IH.
    + f_equal. unfold set_sent. simpl. by rewrite <- app_assoc.
    + intros. apply Hn. by right.
    + done.
    + intros ev q Hev Hq. apply Hok; [by right|done].
Qed.

Lemma C6_events_forwarded_in_admission_order_witness :
  run wire_up default_options
      (publish_all [("broadcast", [("name", VStr "chat"); ("args", VArr [VStr "hi"]);
                                   ("rooms", VArr [VStr "r1"]); ("flags", VArr [])]);
                    ("leave", [("id", VStr "a"); ("room", VStr "r1")])])
      (two_sessions wire_up)
  = (Ok (),
     set_sent (λ s, s ++
        [(0%nat, mkMsg "broadcast" (VObj [("name", VStr "chat"); ("args", VArr [VStr "hi"]);
                                          ("rooms", VArr [VStr "r1"]); ("flags", VArr [])]));
         (1%nat, mkMsg "broadcast" (VObj [("name", VStr "chat"); ("args", VArr [VStr "hi"]);
                                          ("rooms", VArr [VStr "r1"]); ("flags", VArr [])]));
         (0%nat, mkMsg "leave" (VObj [("id", VStr "a"); ("room", VStr "r1")]));
         (1%nat, mkMsg "leave" (VObj [("id", VStr "a"); ("room", VStr "r1")]))])
       (two_sessions wire_up)).
Proof.
  refine (proj1 (C6_events_forwarded_in_admission_order wire_up default_options
                   _ (two_sessions wire_up) _ _ _)).
  - exists two_rooms, false,
      [Connection; Receive 0 "password" (VStr ""); Immediate;
       Connection; Receive 1 "password" (VStr ""); Immediate].
    vm_compute. reflexivity.
  - intros ev Hev. unfold event_names.
    repeat (apply elem_of_cons in Hev as [->|Hev]; [set_solver|]).
    by apply elem_of_nil in Hev.
  - reflexivity.
Defined.

(** [initEmitter] installs one capture per operation of the adapter. *)
Lemma adapter_captures_NoDup wire : NoDup (adapter_captures wire).*1.
Proof.
  unfold adapter_captures. cbn [fmap list_fmap fst]. compute_done.
Qed.

(** With its keys bound once, the keys of an object that pass a test on
    their value are the keys of the entries that pass it. *)
Lemma filter_keys_by_value {A} (f : option A → bool) (o : list (string * A)) :
  NoDup (Object_keys o) →
  List.filter (λ k, f (prop o k)) (Object_keys o)
    = (List.filter (λ kv, f (Some kv.2)) o).*1.
Proof.
  intros Hnd.
  cut (∀ l, (∀ kv, kv ∈ l → kv ∈ o) →
            List.filter (λ k, f (prop o k)) l.*1 = (List.filter (λ kv, f (Some kv.2)) l).*1).
  { intros Hcut. by apply Hcut. }
  induction l as [|[k v] l IH]; intros Hsub; [done|].
  cbn [fmap list_fmap fst List.filter snd].
  rewrite (prop_NoDup_elem o k v) by (done || apply Hsub; left).
  assert (IH' := IH (λ kv Hkv, Hsub kv (list_elem_of_further _ _ _ Hkv))).
  destruct (f (Some v)); cbn [fmap list_fmap fst]; [f_equal|]; exact IH'.
Qed.

(** The connection object as the listener of [connection] leaves it. *)
Lemma on_io_connection_Ok wire ws id w ws' w' :
  on_io_connection wire ws id w = (Ok ws', w') →
  ws' = monkeyPatch (monkeyPatch ws "emit" (capture_ws_emit wire id))
                    "dispatch" (capture_ws_dispatch wire id).
Proof.
  unfold on_io_connection. munfold.
  destruct (e_emit wire "connect" _ w) as [[[]|e] w1]; by intros [= <- <-].
Qed.

(** C7 (as amended): in every state the server reaches, when the send to a
    session of the roster throws, the dispatch of the event ends there.  The
    sessions before it in the roster were sent the event, the sessions after
    it are not, and the error is thrown to the publisher.  Whatever
    published the event throws it to its caller: the [add], [del], [delAll]
    or [broadcast] of the adapter, or the [emit] or [dispatch] of a
    connection, wrapped by the captures of [initEmitter], the original
    operation not being run; and the listeners that publish [connect] and
    [disconnect]. *)
Theorem C7_send_failure_stops_dispatch (wire : nat → Msg → result ())
    (options : Options) (n : string) (fields : list (string * Val)) (w : World)
    (pre post : list nat) (q : nat) (e : Exn) :
  reachable wire options w →
  n ∈ event_names →
  protos w = pre ++ q :: post →
  (∀ x, x ∈ pre → wire x (mkMsg n (VObj fields)) = Ok ()) →
  wire q (mkMsg n (VObj fields)) = Throw e →
  e_emit wire n (VObj fields) w
    = (Throw e, set_sent (λ s, s ++ map (λ x, (x, mkMsg n (VObj fields))) pre) w) ∧
  (∀ (adapter : gmap string (Method World)) orig this args,
      adapter !! "add" = Some orig →
      strict_eq (arg 0 args) (arg 1 args) = false →
      n = "join" →
      fields = [("id", arg 0 args); ("room", arg 1 args)] →
      invoke (attach adapter (adapter_captures wire)) "add" this args w
        = (Throw e, set_sent (λ s, s ++ map (λ x, (x, mkMsg n (VObj fields))) pre) w)) ∧
  (∀ (adapter : gmap string (Method World)) orig this args,
      adapter !! "del" = Some orig →
      n = "leave" →
      fields = [("id", arg 0 args); ("room", arg 1 args)] →
      invoke (attach adapter (adapter_captures wire)) "del" this args w
        = (Throw e, set_sent (λ s, s ++ map (λ x, (x, mkMsg n (VObj fields))) pre) w)) ∧
  (∀ (adapter : gmap string (Method World)) orig this args,
      adapter !! "delAll" = Some orig →
      n = "leaveAll" →
      fields = [("id", arg 0 args)] →
      invoke (attach adapter (adapter_captures wire)) "delAll" this args w
        = (Throw e, set_sent (λ s, s ++ map (λ x, (x, mkMsg n (VObj fields))) pre) w)) ∧
  (∀ (adapter : gmap string (Method World)) orig this args packet opts fl items,
      adapter !! "broadcast" = Some orig →
      arg 0 args = VObj packet →
      arg 1 args = VObj opts →
      prop packet "type" = Some (VNum 2) →
      prop packet "data" = Some (VArr items) →
      or_default (VObj []) (default VUndefined (prop opts "flags")) = VObj fl →
      NoDup (Object_keys fl) →
      n = "broadcast" →
      fields = [("name", arg 0 items);
                ("args", VArr (drop 1 items));
                ("rooms", or_default (VArr []) (default VUndefined (prop opts "rooms")));
                ("flags", VArr (map VStr (List.filter (λ kv, truthy kv.2) fl).*1))] →
      invoke (attach adapter (adapter_captures wire)) "broadcast" this args w
        = (Throw e, set_sent (λ s, s ++ map (λ x, (x, mkMsg n (VObj fields))) pre) w)) ∧
  (∀ (ws ws' : gmap string (Method World)) id orig w0 w0' this args,
      on_io_connection wire ws id w0 = (Ok ws', w0') →
      ws !! "emit" = Some orig →
      n = "emit" →
      fields = [("id", id); ("name", arg 0 args);
                ("args", VArr (strip_callback (drop 1 args)))] →
      invoke ws' "emit" this args w
        = (Throw e, set_sent (λ s, s ++ map (λ x, (x, mkMsg n (VObj fields))) pre) w)) ∧
  (∀ (ws ws' : gmap string (Method World)) id orig w0 w0' this args items,
      on_io_connection wire ws id w0 = (Ok ws', w0') →
      ws !! "dispatch" = Some orig →
      arg 0 args = VArr items →
      n = "recv" →
      fields = [("id", id); ("name", arg 0 items);
                ("args", VArr (strip_callback (drop 1 items)))] →
      invoke ws' "dispatch" this args w
        = (Throw e, set_sent (λ s, s ++ map (λ x, (x, mkMsg n (VObj fields))) pre) w)) ∧
  (∀ (ws : gmap string (Method World)) id,
      n = "connect" →
      fields = [("id", id)] →
      on_io_connection wire ws id w
        = (Throw e, set_sent (λ s, s ++ map (λ x, (x, mkMsg n (VObj fields))) pre) w)) ∧
  (∀ id,
      n = "disconnect" →
      fields = [("id", id)] →
      on_ws_disconnect wire id w
        = (Throw e, set_sent (λ s, s ++ map (λ x, (x, mkMsg n (VObj fields))) pre) w)).
Proof.
  intros [debug_enabled He]%reachable_listeners Hn Hp Hpre Hq.
  assert (Hemit : e_emit wire n (VObj fields) w
            = (Throw e, set_sent (λ s, s ++ map (λ x, (x, mkMsg n (VObj fields))) pre) w)).
  { rewrite (e_emit_initial wire debug_enabled) by done.
    unfold dispatch. munfold. rewrite Hp. by apply forEach_emit_throw. }
  split_and!; [done|..].
  - intros adapter orig this args Ho Hne -> ->.
    rewrite (invoke_attach _ _ _ (capture_add wire) orig);
      [|apply adapter_captures_NoDup|unfold adapter_captures; right; left|done].
    apply bind_throw. unfold capture_add. rewrite Hne. cbn [negb]. by apply bind_throw.
  - intros adapter orig this args Ho -> ->.
    rewrite (invoke_attach _ _ _ (capture_del wire) orig);
      [|apply adapter_captures_NoDup|unfold adapter_captures; do 2 right; left|done].
    apply bind_throw. unfold capture_del. by apply bind_throw.
  - intros adapter orig this args Ho -> ->.
    rewrite (invoke_attach _ _ _ (capture_delAll wire) orig);
      [|apply adapter_captures_NoDup|unfold adapter_captures; do 3 right; left|done].
    apply bind_throw. unfold capture_delAll. by apply bind_throw.
  - intros adapter orig this args packet opts fl items Ho Hpk Hopts Htype Hdata Hfl Hnd -> ->.
    rewrite (invoke_attach _ _ _ (capture_broadcast wire) orig);
      [|apply adapter_captures_NoDup|unfold adapter_captures; left|done].
    apply bind_throw.
    unfold capture_broadcast, get_prop. rewrite Hpk, Hopts. munfold. cbn [own_props].
    rewrite Htype, Hdata, Hfl. cbn [default from_option Datatypes.id strict_eq Z.eqb Pos.eqb iterate].
    unfold keys_of. munfold. cbn [own_props].
    rewrite (filter_keys_by_value (λ o, truthy (default VUndefined o)) fl Hnd).
    cbn [default from_option Datatypes.id]. by rewrite Hemit.
  - intros ws ws' id orig w0 w0' this args ->%on_io_connection_Ok Ho -> ->.
    rewrite invoke_monkeyPatch_other by done.
    rewrite (invoke_monkeyPatch _ _ _ orig) by done.
    apply bind_throw. unfold capture_ws_emit. by apply bind_throw.
  - intros ws ws' id orig w0 w0' this args items ->%on_io_connection_Ok Ho Hitems -> ->.
    rewrite (invoke_monkeyPatch _ _ _ orig) by (by rewrite lookup_monkeyPatch_ne).
    apply bind_throw. unfold capture_ws_dispatch. rewrite Hitems. cbn [iterate].
    munfold. by rewrite Hemit.
  - intros ws id -> ->. unfold on_io_connection. by apply bind_throw.
  - intros id -> ->. exact Hemit.
Qed.

Lemma C7_send_failure_stops_dispatch_witness :
  e_emit wire_flaky "leave" (VObj [("id", VStr "b"); ("room", VStr "r1")])
         (two_sessions wire_flaky)
    = (Throw (Error "write failed"),
       set_sent (λ s, s ++ map (λ x, (x, mkMsg "leave"
                                  (VObj [("id", VStr "b"); ("room", VStr "r1")]))) [])
                (two_sessions wire_flaky)).
Proof.
  refine (proj1 (C7_send_failure_stops_dispatch wire_flaky default_options "leave"
                   [("id", VStr "b"); ("room", VStr "r1")]
                   (two_sessions wire_flaky) [] [1%nat] 0%nat (Error "write failed")
                   _ _ eq_refl _ eq_refl)).
  - exists two_rooms, false,
      [Connection; Receive 0 "password" (VStr ""); Immediate;
       Connection; Receive 1 "password" (VStr ""); Immediate].
    vm_compute. reflexivity.
  - unfold event_names. set_solver.
  - by intros x ?%elem_of_nil.
Defined.

(** C7, counterexample: two sessions are in the roster, and the
    send of [leave] to the first one throws.  The [del] of the hub that
    publishes [leave] throws that error to its caller instead of returning,
    the room is not left, and the second session, whose send would return,
    is sent nothing. *)
Lemma C7_send_failure_reaches_hub_caller :
  protos (two_sessions wire_flaky) = [0; 1]%nat ∧
  wire_flaky 1 (mkMsg "leave" (VObj [("id", VStr "b"); ("room", VStr "r1")])) = Ok () ∧
  invoke hub_adapter "del" VNull [VStr "b"; VStr "r1"] (two_sessions wire_flaky)
    = (Ok VUndefined, set_rooms (leave_room "b" "r1") (two_sessions wire_flaky)) ∧
  invoke (attach hub_adapter (adapter_captures wire_flaky)) "del" VNull
         [VStr "b"; VStr "r1"] (two_sessions wire_flaky)
    = (Throw (Error "write failed"), two_sessions wire_flaky) ∧
  outbox 1 (two_sessions wire_flaky) = [mkMsg "reqAuth" (VBool false); two_rooms_init].
Proof. split_and!; vm_compute; reflexivity. Qed.

(** ** Retiring a session *)

Section Retire.
Variable wire : nat → Msg → result ().
Variable options : Options.
Implicit Types (w : World) (p q : nat).

(** One fan-out, with and without session [p] in the roster. *)
Lemma forEach_emit_same_but p n d ps w1 w2 :
  wire p (mkMsg n d) = Ok () →
  (∀ q, q ≠ p → outbox q w2 = outbox q w1) →
  (forEach (λ proto, proto_emit wire proto n d)
           (List.filter (λ q, negb (Nat.eqb q p)) ps) w2).1
    = (forEach (λ proto, proto_emit wire proto n d) ps w1).1 ∧
  ∀ q, q ≠ p →
    outbox q (forEach (λ proto, proto_emit wire proto n d)
                      (List.filter (λ q, negb (Nat.eqb q p)) ps) w2).2
      = outbox q (forEach (λ proto, proto_emit wire proto n d) ps w1).2.
Proof.
  intros Hp. revert w1 w2. induction ps as [|x ps IH]; intros w1 w2 Ho; [done|].
  cbn [List.filter forEach]. destruct (Nat.eqb_spec x p) as [->|Hne]; cbn [negb].
  - unfold mbind, M_bind. rewrite (proto_emit_ok _ p) by done.
    apply IH. intros q Hq. rewrite outbox_set_sent_other by done. by apply Ho.
  - cbn [forEach]. unfold mbind, M_bind, proto_emit.
    destruct (wire x (mkMsg n d)) as [[]|e].
    + apply IH. intros q Hq. rewrite !outbox_set_sent_app. by rewrite Ho.
    + done.
Qed.

Lemma e_emit_same_but p n d w1 w2 :
  (∀ m, wire p m = Ok ()) →
  same_but p w1 w2 →
  (e_emit wire n d w2).1 = (e_emit wire n d w1).1 ∧
  same_but p (e_emit wire n d w1).2 (e_emit wire n d w2).2.
Proof.
  intros Hp (He & Hps & Ho).
  cut ((e_emit wire n d w2).1 = (e_emit wire n d w1).1 ∧
       ∀ q, q ≠ p → outbox q (e_emit wire n d w2).2 = outbox q (e_emit wire n d w1).2).
  { intros [Hr Ho']. split; [done|].
    destruct (e_emit_only_sends wire n d w1) as (_ & He1 & Hp1 & _).
    destruct (e_emit_only_sends wire n d w2) as (_ & He2 & Hp2 & _).
    split; [congruence|]. split; [congruence|done]. }
  unfold e_emit. munfold. rewrite He.
  generalize (List.filter (λ l : string * Handler, String.eqb l.1 n) (e_listeners w1)).
  intros hs. clear He. revert w1 w2 Hps Ho.
  induction hs as [|[n' h] hs IH]; intros w1 w2 Hps Ho; [done|].
  cbn [forEach]. unfold mbind, M_bind. destruct h as [?|n'']; cbn [snd run_handler].
  - destruct d; unfold mret, M_ret, throw; try done; by apply IH.
  - unfold dispatch. munfold. rewrite Hps.
    destruct (forEach_emit_same_but p n'' d (protos w1) w1 w2 (Hp _) Ho) as [Hr Ho'].
    pose proof (forEach_only_sends (λ proto, proto_emit wire proto n'' d) (protos w1) w1
                  (λ x w, proto_emit_only_sends wire x n'' d w)) as (_ & _ & Hp1 & _).
    pose proof (forEach_only_sends (λ proto, proto_emit wire proto n'' d)
                  (List.filter (λ q, negb (Nat.eqb q p)) (protos w1)) w2
                  (λ x w, proto_emit_only_sends wire x n'' d w)) as (_ & _ & Hp2 & _).
    destruct (forEach _ (protos w1) w1) as [r1 w1'].
    destruct (forEach _ (List.filter _ (protos w1)) w2) as [r2 w2'].
    simpl in *. subst r2. destruct r1 as [[]|e]; [|done].
    apply IH; [congruence|done].
Qed.

(** Publishing a list of events, with and without session [p] in the
    roster. *)
Lemma publish_same_but p evs w1 w2 :
  (∀ m, wire p m = Ok ()) →
  same_but p w1 w2 →
  (run wire options (publish_all evs) w2).1 = (run wire options (publish_all evs) w1).1 ∧
  same_but p (run wire options (publish_all evs) w1).2
             (run wire options (publish_all evs) w2).2.
Proof.
  intros Hp. revert w1 w2. induction evs as [|[n d] evs IH]; intros w1 w2 Hsim; [done|].
  unfold run, publish_all in *. cbn [map forEach step fst snd]. unfold mbind, M_bind.
  destruct (e_emit_same_but p n (VObj d) w1 w2 Hp Hsim) as [Hr Hsim'].
  destruct (e_emit wire n (VObj d) w1) as [r1 w1'], (e_emit wire n (VObj d) w2) as [r2 w2'].
  simpl in *. subst r2. destruct r1 as [[]|e]; [by apply IH|done].
Qed.

Lemma removeProto_same_but p w : same_but p w (removeProto p w).2.
Proof. by repeat split. Qed.

(** A retired session stays out of the roster, whatever happens. *)
Lemma step_retired p ev w : retired p w → retired p (step wire options ev w).2.
Proof.
  intros [(c & Hc & Hl) Hp].
  assert (Hkeep : ¬ footprint ev w p → retired p (step wire options ev w).2).
  { intros Hfp. destruct (step_touches wire options ev w) as (_ & _ & H).
    destruct (H p Hfp) as (Hc' & Hp' & _). split; [|tauto].
    exists c. by rewrite Hc'. }
  destruct ev as [|q n d|q|q| | |rs]; cbn [footprint] in Hkeep.
  - apply Hkeep. intros ->. apply lookup_lt_Some in Hc. lia.
  - destruct (decide (p = q)) as [<-|Hne]; [|by apply Hkeep].
    cbn [step]. rewrite proto_receive_unheard; [by split; eauto|].
    intros c' l Hc' Hin. simplify_eq. rewrite Hl in Hin. by apply elem_of_nil in Hin.
  - destruct (decide (p = q)) as [<-|Hne]; [|by apply Hkeep].
    cbn [step]. unfold timer_fires, on_timeout, socket_end, update_conn, proto_emit.
    munfold. rewrite Hc. cbn.
    destruct (conn_timeout c); [|by split; eauto].
    destruct (wire _ _) as [[]|e]; cbn; unfold retired; wsimpl; (split; [|done]);
      rewrite !list_lookup_alter_eq, Hc; (eexists; split; [reflexivity|done]).
  - destruct (decide (p = q)) as [<-|Hne]; [|by apply Hkeep].
    cbn [step]. unfold removeProto, retired. munfold. wsimpl. split.
    + rewrite list_lookup_alter_eq, Hc. eexists; split; [reflexivity|done].
    + rewrite list_elem_of_In, filter_In, <- list_elem_of_In. tauto.
  - destruct (decide (head (immediates w) = Some p)) as [Hh|Hh];
      [|apply Hkeep; tauto].
    cbn [step]. unfold run_immediate. munfold.
    destruct (immediates w) as [|x qs]; simplify_eq/=.
    destruct (addProto_immediate_only_sends wire p (set_immediates (λ _, qs) w))
      as (_ & _ & Hp' & Hc' & _).
    split; [exists c; by rewrite Hc'|by rewrite Hp'].
  - by apply Hkeep.
  - apply Hkeep. tauto.
Qed.

Lemma run_retired p evs w : retired p w → retired p (run wire options evs w).2.
Proof.
  revert w. induction evs as [|ev evs IH]; intros w Hr; [done|].
  unfold run in *. cbn [forEach]. unfold mbind, M_bind.
  pose proof (step_retired p ev w Hr) as Hstep.
  destruct (step wire options ev w) as [[[]|e] w']; simpl in *; [by apply IH|done].
Qed.

(** A dispatch sends nothing to a session that is not in the roster. *)
Lemma e_emit_outside p n d w :
  (p ∉ protos w) → outbox p (e_emit wire n d w).2 = outbox p w.
Proof.
  intros Hp. destruct (e_emit_touches wire n d w) as (_ & _ & H).
  by destruct (H p Hp) as (_ & _ & _ & ?).
Qed.
End Retire.

(** C9: [removeProto] returns; the session is then out of the roster, the
    other sessions keep their places, the session object has no listener
    left, and the listeners of the canonical event hub are what they were (no
    step of the server ever changes them).  A connected session that was
    retired is never in the roster again, whatever happens, and a dispatch
    sends nothing to a session outside the roster.  If the retired session's
    own sends return, the events published afterwards have, for every other
    session, the outcome and the deliveries they would have had with the
    session still in the roster.  Retiring twice is retiring once; retiring a
    session that is not in the roster leaves the roster as it is, and
    changes nothing at all when the session has no listener left. *)
Theorem C9_retire_session (wire : nat → Msg → result ()) (options : Options)
    (p : nat) (w : World) :
  removeProto p w = (Ok (), (removeProto p w).2) ∧
  (p ∉ protos (removeProto p w).2) ∧
  protos (removeProto p w).2 = List.filter (λ q, negb (Nat.eqb q p)) (protos w) ∧
  (∀ q, q ≠ p → q ∈ protos (removeProto p w).2 ↔ q ∈ protos w) ∧
  (∀ c, conns (removeProto p w).2 !! p = Some c → conn_listeners c = []) ∧
  e_listeners (removeProto p w).2 = e_listeners w ∧
  (∀ evs w0, e_listeners (run wire options evs w0).2 = e_listeners w0) ∧
  (is_Some (conns w !! p) →
   ∀ evs, p ∉ protos (run wire options evs (removeProto p w).2).2) ∧
  (∀ n d w0, (p ∉ protos w0) → outbox p (e_emit wire n d w0).2 = outbox p w0) ∧
  ((∀ m, wire p m = Ok ()) →
   ∀ evs,
     (run wire options (publish_all evs) (removeProto p w).2).1
       = (run wire options (publish_all evs) w).1 ∧
     ∀ q, q ≠ p →
       outbox q (run wire options (publish_all evs) (removeProto p w).2).2
         = outbox q (run wire options (publish_all evs) w).2) ∧
  removeProto p (removeProto p w).2 = (Ok (), (removeProto p w).2) ∧
  ((p ∉ protos w) → protos (removeProto p w).2 = protos w) ∧
  ((p ∉ protos w) → (∀ c, conns w !! p = Some c → conn_listeners c = []) →
   removeProto p w = (Ok (), w)).
Proof.
  assert (Hout : p ∉ protos (removeProto p w).2).
  { unfold removeProto. munfold. wsimpl.
    rewrite list_elem_of_In, filter_In. intros [_ Hp]. by rewrite Nat.eqb_refl in Hp. }
  assert (Hnol : ∀ c, conns (removeProto p w).2 !! p = Some c → conn_listeners c = []).
  { unfold removeProto. munfold. wsimpl. intros c. rewrite list_lookup_alter_eq.
    destruct (conns w !! p); intros [= <-]. done. }
  split; [done|]. split; [done|]. split; [done|]. split.
  { intros q Hq. unfold removeProto. munfold. wsimpl.
    rewrite !list_elem_of_In, filter_In. destruct (Nat.eqb_spec q p); [done|]. simpl. tauto. }
  split; [done|]. split; [done|]. split; [apply run_e_listeners|]. split.
  { intros [c Hc] evs. apply run_retired. split; [|done].
    destruct (conns (removeProto p w).2 !! p) as [c'|] eqn:Hc'; [by eauto|].
    revert Hc'. unfold removeProto. munfold. wsimpl.
    by rewrite list_lookup_alter_eq, Hc. }
  split; [apply e_emit_outside|]. split.
  { intros Hwire evs.
    destruct (publish_same_but wire options p evs w (removeProto p w).2 Hwire
                (removeProto_same_but p w)) as (Hr & _ & _ & Ho).
    done. }
  split.
  - unfold removeProto. munfold. wsimpl. f_equal. unfold set_conns, set_protos. wsimpl.
    f_equal.
    + induction (protos w) as [|x ps IH]; [done|]. simpl.
      destruct (Nat.eqb_spec x p); simpl; [done|].
      destruct (Nat.eqb_spec x p); simpl; [done|]. by f_equal.
    + apply alter_fixed. intros c. rewrite list_lookup_alter_eq.
      destruct (conns w !! p) as [[]|]; by intros [= <-].
  - assert (Hsame : (p ∉ protos w) →
              List.filter (λ q, negb (Nat.eqb q p)) (protos w) = protos w).
    { intros Hp. apply filter_all.
      intros x Hx. destruct (Nat.eqb_spec x p); [by subst|done]. }
    split; [done|]. intros Hp Hl. unfold removeProto. munfold. f_equal.
    rewrite set_conns_fixed.
    + destruct w. unfold set_protos. simpl in *. by rewrite Hsame.
    + wsimpl. apply alter_fixed. intros c Hc. specialize (Hl c Hc).
      destruct c. simpl in *. by subst.
Qed.

Lemma C9_retire_session_witness :
  (run wire_up default_options
       (publish_all [("join", [("id", VStr "b"); ("room", VStr "r2")])])
       (removeProto 0 (two_sessions wire_up)).2).1 = Ok () ∧
  ∀ q, q ≠ 0%nat →
    outbox q (run wire_up default_options
                  (publish_all [("join", [("id", VStr "b"); ("room", VStr "r2")])])
                  (removeProto 0 (two_sessions wire_up)).2).2
      = outbox q (run wire_up default_options
                      (publish_all [("join", [("id", VStr "b"); ("room", VStr "r2")])])
                      (two_sessions wire_up)).2.
Proof.
  destruct (C9_retire_session wire_up default_options 0 (two_sessions wire_up))
    as (_ & _ & _ & _ & _ & _ & _ & _ & _ & Hsame & _).
  exact (Hsame (λ _, eq_refl)
               [("join", [("id", VStr "b"); ("room", VStr "r2")])]).
Defined.

(** ** The captures of [initEmitter] on a working wire *)

Section WorkingWire.
Variable wire : nat → Msg → result ().
Hypothesis wire_returns : ∀ q m, wire q m = Ok ().

Lemma forEach_returns {A} (f : A → M World ()) xs w :
  (∀ x w1, ∃ w2, f x w1 = (Ok (), w2)) → ∃ w', forEach f xs w = (Ok (), w').
Proof.
  intros Hf. revert w. induction xs as [|x xs IH]; intros w; [by eexists|].
  cbn [forEach]. unfold mbind, M_bind. destruct (Hf x w) as [w1 ->]. apply IH.
Qed.

Lemma e_emit_returns n fields w :
  ∃ w', e_emit wire n (VObj fields) w = (Ok (), w') ∧ rooms w' = rooms w.
Proof.
  assert (Hret : ∃ w', e_emit wire n (VObj fields) w = (Ok (), w')).
  { unfold e_emit. munfold. apply forEach_returns.
    intros [? [?|n']] w1; cbn [snd run_handler]; [by eexists|].
    unfold dispatch. munfold. apply forEach_returns.
    intros x w2. rewrite proto_emit_ok by done. by eexists. }
  destruct Hret as [w' Hw']. exists w'. split; [done|].
  destruct (e_emit_only_sends wire n (VObj fields) w) as (Hr & _). by rewrite Hw' in Hr.
Qed.

Lemma capture_del_quiet this args : quiet_at rooms (capture_del wire) this args.
Proof.
  intros w. unfold capture_del. munfold.
  destruct (e_emit_returns "leave" [("id", arg 0 args); ("room", arg 1 args)] w)
    as (w' & -> & Hr).
  by eexists _, _.
Qed.

Lemma capture_delAll_quiet this args : quiet_at rooms (capture_delAll wire) this args.
Proof.
  intros w. unfold capture_delAll. munfold.
  destruct (e_emit_returns "leaveAll" [("id", arg 0 args)] w) as (w' & -> & Hr).
  by eexists _, _.
Qed.

Lemma capture_add_quiet this args : quiet_at rooms (capture_add wire) this args.
Proof.
  intros w. unfold capture_add. munfold. destruct (negb _); [|by eexists _, _].
  destruct (e_emit_returns "join" [("id", arg 0 args); ("room", arg 1 args)] w)
    as (w' & -> & Hr).
  by eexists _, _.
Qed.

Lemma capture_broadcast_quiet this args :
  broadcast_args_ok args → quiet_at rooms (capture_broadcast wire) this args.
Proof.
  intros (packet & opts & Hp & Ho & Hdata) w.
  unfold capture_broadcast, get_prop. rewrite Hp, Ho. munfold. cbn [own_props].
  destruct (strict_eq _ _) eqn:Ht; [|by eexists _, _].
  destruct (Hdata eq_refl) as [[items Hitems] Hflags]. rewrite Hitems.
  remember (or_default (VObj []) (default VUndefined (prop opts "flags"))) as flags
    eqn:Hfl.
  assert (Hnn : flags ≠ VUndefined ∧ flags ≠ VNull).
  { subst flags. destruct (prop opts "flags") as [[]|]; by cbn. }
  destruct Hnn as [Hnu Hnn]. clear Hfl.
  cbn [from_option id iterate]. unfold keys_of. munfold.
  destruct flags; try done; lazy beta iota zeta;
    match goal with
    | |- context [e_emit wire ?n (VObj ?f) ?w0] =>
        destruct (e_emit_returns n f w0) as (w' & -> & Hr)
    end; by eexists _, _.
Qed.

(** On a wire whose sends return, the operations of the adapter, called as
    the hub calls them, have the same outcomes and leave the same rooms with
    the captures of [initEmitter] attached as without. *)
Lemma monitored_adapter_same_outcomes (adapter : gmap string (Method World))
    (calls : list Call) (w : World) :
  (∀ m f, adapter !! m = Some f → hub_local rooms f) →
  (∀ k, k ∈ adapter_captures wire → is_Some (adapter !! k.1)) →
  (∀ c, c ∈ calls → call_method c = "broadcast" → broadcast_args_ok (call_args c)) →
  (run_calls (attach adapter (adapter_captures wire)) calls w).1
    = (run_calls adapter calls w).1 ∧
  rooms (run_calls (attach adapter (adapter_captures wire)) calls w).2
    = rooms (run_calls adapter calls w).2.
Proof.
  intros Hloc Hdom Hnb. apply run_calls_agree; [|done].
  intros c Hc. apply agree_on_attach; [by apply agree_on_refl|done|].
  intros k Hk Hm. unfold adapter_captures in Hk.
  repeat (apply elem_of_cons in Hk as [->|Hk]).
  - apply capture_broadcast_quiet. by apply Hnb.
  - apply capture_add_quiet.
  - apply capture_del_quiet.
  - apply capture_delAll_quiet.
  - by apply elem_of_nil in Hk.
Qed.
End WorkingWire.

(** The example of the specification: [chat] with ["hi"] broadcast to room
    [r1] with no flag set reaches both sessions, in admission order. *)
Example broadcast_chat :
  invoke (attach hub_adapter (adapter_captures wire_up)) "broadcast" VNull
         [VObj [("type", VNum 2); ("data", VArr [VStr "chat"; VStr "hi"])];
          VObj [("rooms", VArr [VStr "r1"]); ("flags", VObj [("json", VBool false)])]]
         (two_sessions wire_up)
  = (Ok VUndefined,
     set_sent (λ s, s ++
       [(0%nat, mkMsg "broadcast" (VObj [("name", VStr "chat"); ("args", VArr [VStr "hi"]);
                                         ("rooms", VArr [VStr "r1"]); ("flags", VArr [])]));
        (1%nat, mkMsg "broadcast" (VObj [("name", VStr "chat"); ("args", VArr [VStr "hi"]);
                                         ("rooms", VArr [VStr "r1"]); ("flags", VArr [])]))])
      (two_sessions wire_up)).
Proof. vm_compute. reflexivity. Qed.

(** A [broadcast] called without its options: the capture throws on its
    parameter pattern and the hub's own [broadcast] is not reached. *)
Example broadcast_without_options :
  invoke (attach hub_adapter (adapter_captures wire_up)) "broadcast" VNull
         [VObj [("type", VNum 2); ("data", VArr [VStr "chat"; VStr "hi"])]]
         (two_sessions wire_up)
  = (Throw (TypeError "Cannot read properties of undefined"), two_sessions wire_up).
Proof. vm_compute. reflexivity. Qed.

(** A join of the connection's own room is not published, another one is. *)
Example add_personal_room_silent :
  invoke (attach hub_adapter (adapter_captures wire_up)) "add" VNull
         [VStr "a"; VStr "a"] (two_sessions wire_up)
  = (Ok VUndefined, two_sessions wire_up).
Proof. vm_compute. reflexivity. Qed.

(** ** More on the interceptor *)

(** The publication of an event with an object payload, in a world the
    server reaches, when the sends to the roster return. *)
Lemma e_emit_roster wire options n fields w :
  reachable wire options w →
  n ∈ event_names →
  (∀ q, q ∈ protos w → wire q (mkMsg n (VObj fields)) = Ok ()) →
  e_emit wire n (VObj fields) w
    = (Ok (), set_sent (λ s, s ++ map (λ q, (q, mkMsg n (VObj fields))) (protos w)) w).
Proof.
  intros [dbg He]%reachable_listeners Hn Hok.
  rewrite (e_emit_initial wire dbg) by done.
  unfold dispatch. munfold. by apply forEach_emit_ok.
Qed.

(** The scenarios are worlds the server reaches. *)
Lemma two_sessions_reachable : reachable wire_up default_options (two_sessions wire_up).
Proof.
  exists two_rooms, false,
    [Connection; Receive 0 "password" (VStr ""); Immediate;
     Connection; Receive 1 "password" (VStr ""); Immediate].
  vm_compute. reflexivity.
Qed.

Lemma one_pending_reachable wire :
  (∀ m, wire 0%nat m = Ok ()) ∨ wire = wire_no_init →
  reachable wire default_options (one_pending wire).
Proof.
  intros Hw. exists two_rooms, false, [Connection; Receive 0 "password" (VStr "")].
  unfold one_pending, run. cbn [forEach step]. unfold connection, proto_emit. munfold.
  cbn [truthy password default_options negb].
  assert (Hr : wire 0%nat (mkMsg "reqAuth" (VBool false)) = Ok ()).
  { destruct Hw as [Hw| ->]; [apply Hw|done]. }
  cbn [length conns initial_world]. rewrite Hr. reflexivity.
Qed.

(** X1: patching one operation twice stacks the captures.  A call runs the
    capture installed last, then the one installed first, then the original
    operation, each on the call's receiver and arguments: two monitors
    attached to one hub both see every operation. *)
Theorem monkeyPatch_stacks {W} (object : gmap string (Method W)) (method : string)
    (fn1 fn2 orig : Method W) (this : Val) (args : list Val) (w : W) :
  object !! method = Some orig →
  invoke (monkeyPatch (monkeyPatch object method fn1) method fn2) method this args w
    = (fn2 this args ≫= λ _, fn1 this args ≫= λ _, orig this args) w.
Proof.
  intros Ho.
  rewrite (invoke_monkeyPatch _ _ _ (λ this args, fn1 this args ≫= λ _, orig this args)).
  - done.
  - unfold monkeyPatch at 1. rewrite lookup_insert_eq, Ho. done.
Qed.

Lemma monkeyPatch_stacks_witness :
  invoke (monkeyPatch (monkeyPatch logged_adapter "del" logging_capture) "del" logging_capture)
         "del" VNull [VStr "a"; VStr "r1"] (0%nat, [])
    = (Ok (VNum 0), (1%nat, [[VStr "a"; VStr "r1"]; [VStr "a"; VStr "r1"]])).
Proof.
  rewrite (monkeyPatch_stacks logged_adapter "del" logging_capture logging_capture logged_del)
    by reflexivity.
  reflexivity.
Defined.

(** X2: [monkeyPatch] does not look whether the operation exists.  Patching
    a name the object does not have creates it: where the call threw a
    [TypeError] at once, it now runs the capture, whose effects stay, and
    then throws the [TypeError] of [orig.apply]; an error of the capture
    itself is thrown as it is.  The other operations are as they were. *)
Theorem monkeyPatch_missing_method {W} (object : gmap string (Method W)) (method : string)
    (fn : Method W) (this : Val) (args : list Val) (w : W) :
  object !! method = None →
  (∃ msg, invoke object method this args w = (Throw (TypeError msg), w)) ∧
  (∀ v w', fn this args w = (Ok v, w') →
     ∃ msg, invoke (monkeyPatch object method fn) method this args w
              = (Throw (TypeError msg), w')) ∧
  (∀ e w', fn this args w = (Throw e, w') →
     invoke (monkeyPatch object method fn) method this args w = (Throw e, w')) ∧
  (∀ m, m ≠ method → monkeyPatch object method fn !! m = object !! m).
Proof.
  intros Ho. split; [|split; [|split]].
  - unfold invoke. rewrite Ho. by eexists.
  - intros v w' Hfn. unfold invoke, monkeyPatch. rewrite lookup_insert_eq, Ho.
    unfold mbind, M_bind. rewrite Hfn. by eexists.
  - intros e w' Hfn. unfold invoke, monkeyPatch. rewrite lookup_insert_eq.
    unfold mbind, M_bind. by rewrite Hfn.
  - intros m Hne. by apply lookup_monkeyPatch_ne.
Qed.

Lemma monkeyPatch_missing_method_witness :
  ∃ msg, invoke (monkeyPatch tally_adapter "delAll" (λ _ _ n, (Ok VUndefined, S n)))
                "delAll" VNull [VStr "a"] 0%nat
           = (Throw (TypeError msg), 1%nat).
Proof.
  destruct (monkeyPatch_missing_method tally_adapter "delAll"
              (λ _ _ n, (Ok VUndefined, S n)) VNull [VStr "a"] 0%nat eq_refl)
    as (_ & Hret & _).
  exact (Hret VUndefined 1%nat eq_refl).
Defined.

(** ** The captures of [initEmitter], end to end *)

(** X3: a monitored [add] in a world the server reaches, with sends that
    return.  A join of another room sends [join {id, room}] to every session
    of the roster, in the order of the roster, and then the hub's [add] runs
    on the same receiver and arguments; a join of the connection's own room
    ([id === room]) sends nothing. *)
Theorem monitored_add_publishes_join (wire : nat → Msg → result ()) (options : Options)
    (adapter : gmap string (Method World)) (orig : Method World)
    (this : Val) (args : list Val) (w : World) :
  reachable wire options w →
  adapter !! "add" = Some orig →
  (∀ q m, q ∈ protos w → wire q m = Ok ()) →
  invoke (attach adapter (adapter_captures wire)) "add" this args w
    = orig this args
        (if strict_eq (arg 0 args) (arg 1 args) then w
         else set_sent (λ s, s ++ map (λ q, (q, mkMsg "join"
                                 (VObj [("id", arg 0 args); ("room", arg 1 args)])))
                                      (protos w)) w).
Proof.
  intros Hreach Ho Hwire.
  rewrite (invoke_attach _ _ _ (capture_add wire) orig);
    [|apply adapter_captures_NoDup|unfold adapter_captures; right; left|done].
  unfold capture_add. destruct (strict_eq _ _); cbn [negb]; [done|].
  munfold. rewrite (e_emit_roster wire options); [done|done|compute_done|].
  intros q Hq. by apply Hwire.
Qed.

Lemma monitored_add_publishes_join_witness :
  invoke (attach hub_adapter (adapter_captures wire_up)) "add" VNull
         [VStr "b"; VStr "r2"] (two_sessions wire_up)
    = hub_noop VNull [VStr "b"; VStr "r2"]
        (set_sent (λ s, s ++ map (λ q, (q, mkMsg "join"
                                (VObj [("id", VStr "b"); ("room", VStr "r2")])))
                                 (protos (two_sessions wire_up)))
                  (two_sessions wire_up)).
Proof.
  exact (monitored_add_publishes_join wire_up default_options hub_adapter hub_noop VNull
           [VStr "b"; VStr "r2"] (two_sessions wire_up)
           two_sessions_reachable eq_refl (λ _ _ _, eq_refl)).
Defined.

(** X4: a monitored [del] sends [leave {id, room}], and a monitored [delAll]
    sends [leaveAll {id}], to every session of the roster, and then the
    hub's operation runs on the same receiver and arguments.  Unlike [add],
    [del] makes no exception of the connection's own room. *)
Theorem monitored_del_publishes_leave (wire : nat → Msg → result ()) (options : Options)
    (adapter : gmap string (Method World)) (this : Val) (args : list Val) (w : World) :
  reachable wire options w →
  (∀ q m, q ∈ protos w → wire q m = Ok ()) →
  (∀ orig, adapter !! "del" = Some orig →
     invoke (attach adapter (adapter_captures wire)) "del" this args w
       = orig this args
           (set_sent (λ s, s ++ map (λ q, (q, mkMsg "leave"
                                   (VObj [("id", arg 0 args); ("room", arg 1 args)])))
                                    (protos w)) w)) ∧
  (∀ orig, adapter !! "delAll" = Some orig →
     invoke (attach adapter (adapter_captures wire)) "delAll" this args w
       = orig this args
           (set_sent (λ s, s ++ map (λ q, (q, mkMsg "leaveAll" (VObj [("id", arg 0 args)])))
                                    (protos w)) w)).
Proof.
  intros Hreach Hwire. split; intros orig Ho.
  - rewrite (invoke_attach _ _ _ (capture_del wire) orig);
      [|apply adapter_captures_NoDup|unfold adapter_captures; do 2 right; left|done].
    unfold capture_del. munfold.
    rewrite (e_emit_roster wire options); [done|done|compute_done|].
    intros q Hq. by apply Hwire.
  - rewrite (invoke_attach _ _ _ (capture_delAll wire) orig);
      [|apply adapter_captures_NoDup|unfold adapter_captures; do 3 right; left|done].
    unfold capture_delAll. munfold.
    rewrite (e_emit_roster wire options); [done|done|compute_done|].
    intros q Hq. by apply Hwire.
Qed.

Lemma monitored_del_publishes_leave_witness :
  invoke (attach hub_adapter (adapter_captures wire_up)) "del" VNull
         [VStr "a"; VStr "a"] (two_sessions wire_up)
    = hub_del VNull [VStr "a"; VStr "a"]
        (set_sent (λ s, s ++ map (λ q, (q, mkMsg "leave"
                                (VObj [("id", VStr "a"); ("room", VStr "a")])))
                                 (protos (two_sessions wire_up)))
                  (two_sessions wire_up)).
Proof.
  exact (proj1 (monitored_del_publishes_leave wire_up default_options hub_adapter VNull
                  [VStr "a"; VStr "a"] (two_sessions wire_up)
                  two_sessions_reachable (λ _ _ _, eq_refl)) hub_del eq_refl).
Defined.

(** X5: a monitored [broadcast] of an event packet (type 2, data
    [[name, ...args]]) sends [broadcast {name, args, rooms, flags}] to every
    session of the roster: [name] is the first element of the data, [args]
    the rest, [rooms] the option as given, or [[]] when it is [undefined],
    and [flags] the names of the flags whose value is truthy, in key order.
    Then the hub's [broadcast] runs on the same receiver and arguments. *)
Theorem monitored_broadcast_payload (wire : nat → Msg → result ()) (options : Options)
    (adapter : gmap string (Method World)) (orig : Method World) (this : Val)
    (args : list Val) (packet opts fl : list (string * Val)) (items : list Val)
    (w : World) :
  reachable wire options w →
  adapter !! "broadcast" = Some orig →
  (∀ q m, q ∈ protos w → wire q m = Ok ()) →
  arg 0 args = VObj packet →
  arg 1 args = VObj opts →
  prop packet "type" = Some (VNum 2) →
  prop packet "data" = Some (VArr items) →
  or_default (VObj []) (default VUndefined (prop opts "flags")) = VObj fl →
  NoDup (Object_keys fl) →
  invoke (attach adapter (adapter_captures wire)) "broadcast" this args w
    = orig this args
        (set_sent (λ s, s ++ map (λ q, (q, mkMsg "broadcast" (VObj
             [("name", arg 0 items);
              ("args", VArr (drop 1 items));
              ("rooms", or_default (VArr []) (default VUndefined (prop opts "rooms")));
              ("flags", VArr (map VStr (List.filter (λ kv, truthy kv.2) fl).*1))])))
            (protos w)) w).
Proof.
  intros Hreach Ho Hwire Hp Hopts Htype Hdata Hfl Hnd.
  rewrite (invoke_attach _ _ _ (capture_broadcast wire) orig);
    [|apply adapter_captures_NoDup|unfold adapter_captures; left|done].
  unfold capture_broadcast, get_prop. rewrite Hp, Hopts. munfold. cbn [own_props].
  rewrite Htype, Hdata, Hfl. cbn [default from_option id strict_eq Z.eqb Pos.eqb iterate].
  unfold keys_of. munfold. cbn [own_props].
  rewrite (filter_keys_by_value (λ o, truthy (default VUndefined o)) fl Hnd).
  cbn [default from_option id].
  rewrite (e_emit_roster wire options); [done|done|compute_done|].
  intros q Hq. by apply Hwire.
Qed.

Lemma monitored_broadcast_payload_witness :
  invoke (attach hub_adapter (adapter_captures wire_up)) "broadcast" VNull
         [VObj [("type", VNum 2); ("data", VArr [VStr "chat"; VStr "hi"])];
          VObj [("flags", VObj [("json", VBool false); ("volatile", VBool true)])]]
         (two_sessions wire_up)
    = hub_noop VNull
         [VObj [("type", VNum 2); ("data", VArr [VStr "chat"; VStr "hi"])];
          VObj [("flags", VObj [("json", VBool false); ("volatile", VBool true)])]]
         (set_sent (λ s, s ++ map (λ q, (q, mkMsg "broadcast" (VObj
              [("name", VStr "chat"); ("args", VArr [VStr "hi"]); ("rooms", VArr []);
               ("flags", VArr [VStr "volatile"])])))
             (protos (two_sessions wire_up))) (two_sessions wire_up)).
Proof.
  refine (monitored_broadcast_payload wire_up default_options hub_adapter hub_noop VNull
            [VObj [("type", VNum 2); ("data", VArr [VStr "chat"; VStr "hi"])];
             VObj [("flags", VObj [("json", VBool false); ("volatile", VBool true)])]]
            [("type", VNum 2); ("data", VArr [VStr "chat"; VStr "hi"])]
            [("flags", VObj [("json", VBool false); ("volatile", VBool true)])]
            [("json", VBool false); ("volatile", VBool true)]
            [VStr "chat"; VStr "hi"] (two_sessions wire_up)
            two_sessions_reachable eq_refl (λ _ _ _, eq_refl)
            eq_refl eq_refl eq_refl eq_refl eq_refl _).
  compute_done.
Defined.

(** X6: a packet whose type is not the number 2 (an acknowledgment, a
    binary event, a type given as a string) is not monitored: the capture
    returns and leaves the world as it is, and the hub's [broadcast] runs as
    if it were not wrapped. *)
Theorem monitored_broadcast_other_packets (wire : nat → Msg → result ())
    (adapter : gmap string (Method World)) (orig : Method World) (this : Val)
    (args : list Val) (packet opts : list (string * Val)) (w : World) :
  adapter !! "broadcast" = Some orig →
  arg 0 args = VObj packet →
  arg 1 args = VObj opts →
  strict_eq (default VUndefined (prop packet "type")) (VNum 2) = false →
  capture_broadcast wire this args w = (Ok VUndefined, w) ∧
  invoke (attach adapter (adapter_captures wire)) "broadcast" this args w = orig this args w.
Proof.
  intros Ho Hp Hopts Htype.
  assert (Hcap : capture_broadcast wire this args w = (Ok VUndefined, w)).
  { unfold capture_broadcast, get_prop. rewrite Hp, Hopts. munfold. cbn [own_props].
    by rewrite Htype. }
  split; [done|].
  rewrite (invoke_attach _ _ _ (capture_broadcast wire) orig);
    [|apply adapter_captures_NoDup|unfold adapter_captures; left|done].
  by rewrite (bind_ok _ _ _ _ _ Hcap).
Qed.

Lemma monitored_broadcast_other_packets_witness :
  invoke (attach hub_adapter (adapter_captures wire_up)) "broadcast" VNull
         [VObj [("type", VNum 5); ("data", VArr [VStr "chat"; VStr "hi"])];
          VObj [("rooms", VArr [VStr "r1"])]]
         (two_sessions wire_up)
    = hub_noop VNull
         [VObj [("type", VNum 5); ("data", VArr [VStr "chat"; VStr "hi"])];
          VObj [("rooms", VArr [VStr "r1"])]]
         (two_sessions wire_up).
Proof.
  exact (proj2 (monitored_broadcast_other_packets wire_up hub_adapter hub_noop VNull
                  [VObj [("type", VNum 5); ("data", VArr [VStr "chat"; VStr "hi"])];
                   VObj [("rooms", VArr [VStr "r1"])]]
                  [("type", VNum 5); ("data", VArr [VStr "chat"; VStr "hi"])]
                  [("rooms", VArr [VStr "r1"])]
                  (two_sessions wire_up) eq_refl eq_refl eq_refl eq_refl)).
Defined.

(** X7: the calls on which a monitored [broadcast] throws a [TypeError]
    without running the hub's [broadcast] and without sending anything: a
    call with no options object ([undefined] or [null]), and an event packet
    whose data is missing or cannot be iterated. *)
Theorem monitored_broadcast_throws (wire : nat → Msg → result ())
    (adapter : gmap string (Method World)) (orig : Method World) (this : Val)
    (args : list Val) (w : World) :
  adapter !! "broadcast" = Some orig →
  ((arg 1 args = VUndefined ∨ arg 1 args = VNull) →
   ∃ msg, invoke (attach adapter (adapter_captures wire)) "broadcast" this args w
            = (Throw (TypeError msg), w)) ∧
  (∀ packet opts,
     arg 0 args = VObj packet → arg 1 args = VObj opts →
     prop packet "type" = Some (VNum 2) →
     match default VUndefined (prop packet "data") with
     | VUndefined | VNull | VBool _ | VNum _ | VObj _ => True
     | _ => False
     end →
     ∃ msg, invoke (attach adapter (adapter_captures wire)) "broadcast" this args w
              = (Throw (TypeError msg), w)).
Proof.
  intros Ho.
  assert (Hinv : ∀ w0, invoke (attach adapter (adapter_captures wire)) "broadcast" this args w0
                  = (capture_broadcast wire this args ≫= λ _, orig this args) w0).
  { intros w0. apply invoke_attach;
      [apply adapter_captures_NoDup|unfold adapter_captures; left|done]. }
  split.
  - intros Hopts. rewrite Hinv. unfold capture_broadcast, get_prop.
    destruct Hopts as [-> | ->]; munfold; by eexists.
  - intros packet opts Hp Hopts Htype Hdata. rewrite Hinv.
    unfold capture_broadcast, get_prop. rewrite Hp, Hopts. munfold. cbn [own_props].
    rewrite Htype. cbn [default from_option id strict_eq Z.eqb Pos.eqb].
    destruct (prop packet "data") as [[]|]; cbn in Hdata |- *; try done; by eexists.
Qed.

Lemma monitored_broadcast_throws_witness :
  ∃ msg, invoke (attach hub_adapter (adapter_captures wire_up)) "broadcast" VNull
                [VObj [("type", VNum 2); ("data", VArr [VStr "chat"; VStr "hi"])]]
                (two_sessions wire_up)
           = (Throw (TypeError msg), two_sessions wire_up).
Proof.
  exact (proj1 (monitored_broadcast_throws wire_up hub_adapter hub_noop VNull
                  [VObj [("type", VNum 2); ("data", VArr [VStr "chat"; VStr "hi"])]]
                  (two_sessions wire_up) eq_refl) (or_introl eq_refl)).
Defined.

(** ** The captures on a connection of the hub *)

(** A callback at the end of the arguments is dropped, and nothing else. *)
Lemma strip_callback_snoc xs f : strip_callback (xs ++ [VFun f]) = xs.
Proof. unfold strip_callback. by rewrite last_snoc, removelast_last. Qed.

Lemma strip_callback_other xs : (∀ f, last xs ≠ Some (VFun f)) → strip_callback xs = xs.
Proof.
  intros Hl. unfold strip_callback. destruct (last xs) as [[]|] eqn:E; try done.
  by destruct (Hl f).
Qed.

Lemma ws_object_patched :
  on_io_connection wire_up ws_object (VStr "a") (initial_world [] false)
    = (Ok (monkeyPatch (monkeyPatch ws_object "emit" (capture_ws_emit wire_up (VStr "a")))
                       "dispatch" (capture_ws_dispatch wire_up (VStr "a"))),
       initial_world [] false).
Proof. reflexivity. Qed.

(** X8: when the hub reports a connection, [connect {id}] is sent to every
    session of the roster and the connection object gets its [emit] and its
    [dispatch] wrapped: from then on a call of either runs its capture on
    the call's receiver and arguments and then the connection's own
    operation, and the other operations are as they were; when the
    connection goes, [disconnect {id}] is sent. *)
Theorem io_connection_publishes_connect (wire : nat → Msg → result ()) (options : Options)
    (ws : gmap string (Method World)) (id : Val) (w : World) :
  reachable wire options w →
  (∀ q m, q ∈ protos w → wire q m = Ok ()) →
  (∃ ws', on_io_connection wire ws id w
            = (Ok ws', set_sent (λ s, s ++ map (λ q, (q, mkMsg "connect" (VObj [("id", id)])))
                                               (protos w)) w) ∧
          (∀ m, m ≠ "emit" → m ≠ "dispatch" → ws' !! m = ws !! m) ∧
          (∀ orig this args w1, ws !! "emit" = Some orig →
             invoke ws' "emit" this args w1
               = (capture_ws_emit wire id this args ≫= λ _, orig this args) w1) ∧
          (∀ orig this args w1, ws !! "dispatch" = Some orig →
             invoke ws' "dispatch" this args w1
               = (capture_ws_dispatch wire id this args ≫= λ _, orig this args) w1)) ∧
  on_ws_disconnect wire id w
    = (Ok (), set_sent (λ s, s ++ map (λ q, (q, mkMsg "disconnect" (VObj [("id", id)])))
                                      (protos w)) w).
Proof.
  intros Hreach Hwire. split.
  - eexists. split; [|split; [|split]].
    + unfold on_io_connection. munfold.
      rewrite (e_emit_roster wire options); [done|done|compute_done|].
      intros q Hq. by apply Hwire.
    + intros m Hm1 Hm2. by rewrite !lookup_monkeyPatch_ne.
    + intros orig this args w1 Ho. rewrite invoke_monkeyPatch_other by done.
      by apply invoke_monkeyPatch.
    + intros orig this args w1 Ho. apply invoke_monkeyPatch.
      by rewrite lookup_monkeyPatch_ne.
  - unfold on_ws_disconnect.
    rewrite (e_emit_roster wire options); [done|done|compute_done|].
    intros q Hq. by apply Hwire.
Qed.

Lemma io_connection_publishes_connect_witness :
  on_ws_disconnect wire_up (VStr "a") (two_sessions wire_up)
    = (Ok (), set_sent (λ s, s ++ map (λ q, (q, mkMsg "disconnect" (VObj [("id", VStr "a")])))
                                      (protos (two_sessions wire_up)))
                       (two_sessions wire_up)) ∧
  ∃ ws', on_io_connection wire_up ws_object (VStr "a") (two_sessions wire_up)
           = (Ok ws', set_sent (λ s, s ++ map (λ q, (q, mkMsg "connect"
                                                   (VObj [("id", VStr "a")])))
                                              (protos (two_sessions wire_up)))
                               (two_sessions wire_up)) ∧
         invoke ws' "emit" VNull [VStr "chat"; VStr "hi"] (two_sessions wire_up)
           = (capture_ws_emit wire_up (VStr "a") VNull [VStr "chat"; VStr "hi"]
                ≫= λ _, hub_noop VNull [VStr "chat"; VStr "hi"]) (two_sessions wire_up).
Proof.
  destruct (io_connection_publishes_connect wire_up default_options ws_object (VStr "a")
              (two_sessions wire_up) two_sessions_reachable (λ _ _ _, eq_refl))
    as [(ws' & Hconn & _ & Hemit & _) Hdisc].
  split; [exact Hdisc|]. exists ws'. split; [exact Hconn|].
  by apply Hemit.
Defined.

(** X9: a monitored [ws.emit(name, ...args)] sends [emit {id, name, args}] to
    every session of the roster, without the last argument when that is a
    function (the acknowledgment callback; one only is dropped), and then
    the connection's own [emit] runs on all the arguments, the callback
    included. *)
Theorem monitored_ws_emit (wire : nat → Msg → result ()) (options : Options)
    (ws ws' : gmap string (Method World)) (id : Val) (orig : Method World)
    (w0 w0' w : World) (this name : Val) (rest : list Val) :
  on_io_connection wire ws id w0 = (Ok ws', w0') →
  ws !! "emit" = Some orig →
  reachable wire options w →
  (∀ q m, q ∈ protos w → wire q m = Ok ()) →
  (∀ f, invoke ws' "emit" this (name :: rest ++ [VFun f]) w
          = orig this (name :: rest ++ [VFun f])
              (set_sent (λ s, s ++ map (λ q, (q, mkMsg "emit"
                   (VObj [("id", id); ("name", name); ("args", VArr rest)]))) (protos w)) w)) ∧
  ((∀ f, last rest ≠ Some (VFun f)) →
   invoke ws' "emit" this (name :: rest) w
     = orig this (name :: rest)
         (set_sent (λ s, s ++ map (λ q, (q, mkMsg "emit"
              (VObj [("id", id); ("name", name); ("args", VArr rest)]))) (protos w)) w)).
Proof.
  intros ->%on_io_connection_Ok Ho Hreach Hwire.
  assert (Hinv : ∀ args, invoke (monkeyPatch (monkeyPatch ws "emit" (capture_ws_emit wire id))
                            "dispatch" (capture_ws_dispatch wire id)) "emit" this args w
                  = (capture_ws_emit wire id this args ≫= λ _, orig this args) w).
  { intros args. rewrite invoke_monkeyPatch_other by done. by apply invoke_monkeyPatch. }
  split.
  - intros f. rewrite Hinv. unfold capture_ws_emit. munfold. cbn [drop arg lookup list_lookup from_option Datatypes.id].
    rewrite drop_0, strip_callback_snoc.
    rewrite (e_emit_roster wire options); [done|done|compute_done|].
    intros q Hq. by apply Hwire.
  - intros Hl. rewrite Hinv. unfold capture_ws_emit. munfold. cbn [drop arg lookup list_lookup from_option Datatypes.id].
    rewrite drop_0, strip_callback_other by done.
    rewrite (e_emit_roster wire options); [done|done|compute_done|].
    intros q Hq. by apply Hwire.
Qed.

Lemma monitored_ws_emit_witness :
  invoke (monkeyPatch (monkeyPatch ws_object "emit" (capture_ws_emit wire_up (VStr "a")))
                      "dispatch" (capture_ws_dispatch wire_up (VStr "a")))
         "emit" VNull ([VStr "chat"; VStr "hi"] ++ [VFun 7]) (two_sessions wire_up)
    = hub_noop VNull ([VStr "chat"; VStr "hi"] ++ [VFun 7])
        (set_sent (λ s, s ++ map (λ q, (q, mkMsg "emit"
             (VObj [("id", VStr "a"); ("name", VStr "chat"); ("args", VArr [VStr "hi"])])))
            (protos (two_sessions wire_up))) (two_sessions wire_up)).
Proof.
  exact (proj1 (monitored_ws_emit wire_up default_options ws_object _ (VStr "a") hub_noop
                  (initial_world [] false) (initial_world [] false) (two_sessions wire_up)
                  VNull (VStr "chat") [VStr "hi"]
                  ws_object_patched eq_refl two_sessions_reachable (λ _ _ _, eq_refl)) 7%nat).
Defined.

(** X10: a monitored [ws.dispatch([name, ...args])] sends
    [recv {id, name, args}] to every session of the roster, without the last
    element when that is a function, and then the connection's own
    [dispatch] runs on the packet as it was given.  On a packet that cannot
    be iterated the call throws a [TypeError] and [dispatch] does not run. *)
Theorem monitored_ws_dispatch (wire : nat → Msg → result ()) (options : Options)
    (ws ws' : gmap string (Method World)) (id : Val) (orig : Method World)
    (w0 w0' w : World) (this name : Val) (rest : list Val) :
  on_io_connection wire ws id w0 = (Ok ws', w0') →
  ws !! "dispatch" = Some orig →
  reachable wire options w →
  (∀ q m, q ∈ protos w → wire q m = Ok ()) →
  (∀ f, invoke ws' "dispatch" this [VArr (name :: rest ++ [VFun f])] w
          = orig this [VArr (name :: rest ++ [VFun f])]
              (set_sent (λ s, s ++ map (λ q, (q, mkMsg "recv"
                   (VObj [("id", id); ("name", name); ("args", VArr rest)]))) (protos w)) w)) ∧
  ((∀ f, last rest ≠ Some (VFun f)) →
   invoke ws' "dispatch" this [VArr (name :: rest)] w
     = orig this [VArr (name :: rest)]
         (set_sent (λ s, s ++ map (λ q, (q, mkMsg "recv"
              (VObj [("id", id); ("name", name); ("args", VArr rest)]))) (protos w)) w)) ∧
  (∀ args, match arg 0 args with
           | VUndefined | VNull | VBool _ | VNum _ | VObj _ => True
           | _ => False
           end →
     ∃ msg, invoke ws' "dispatch" this args w = (Throw (TypeError msg), w)).
Proof.
  intros ->%on_io_connection_Ok Ho Hreach Hwire.
  assert (Hinv : ∀ args, invoke (monkeyPatch (monkeyPatch ws "emit" (capture_ws_emit wire id))
                            "dispatch" (capture_ws_dispatch wire id)) "dispatch" this args w
                  = (capture_ws_dispatch wire id this args ≫= λ _, orig this args) w).
  { intros args. apply invoke_monkeyPatch. by rewrite lookup_monkeyPatch_ne. }
  split; [|split].
  - intros f. rewrite Hinv. unfold capture_ws_dispatch. munfold.
    cbn [arg lookup list_lookup from_option Datatypes.id iterate]. munfold.
    cbn [arg lookup list_lookup from_option Datatypes.id drop].
    rewrite drop_0, strip_callback_snoc.
    rewrite (e_emit_roster wire options); [done|done|compute_done|].
    intros q Hq. by apply Hwire.
  - intros Hl. rewrite Hinv. unfold capture_ws_dispatch. munfold.
    cbn [arg lookup list_lookup from_option Datatypes.id iterate]. munfold.
    cbn [arg lookup list_lookup from_option Datatypes.id drop].
    rewrite drop_0, strip_callback_other by done.
    rewrite (e_emit_roster wire options); [done|done|compute_done|].
    intros q Hq. by apply Hwire.
  - intros args Harg. rewrite Hinv. unfold capture_ws_dispatch. munfold.
    destruct (arg 0 args); try done; cbn [iterate]; by eexists.
Qed.

Lemma monitored_ws_dispatch_witness :
  invoke (monkeyPatch (monkeyPatch ws_object "emit" (capture_ws_emit wire_up (VStr "a")))
                      "dispatch" (capture_ws_dispatch wire_up (VStr "a")))
         "dispatch" VNull [VArr ([VStr "typing"; VBool true] ++ [VFun 3])]
         (two_sessions wire_up)
    = hub_noop VNull [VArr ([VStr "typing"; VBool true] ++ [VFun 3])]
        (set_sent (λ s, s ++ map (λ q, (q, mkMsg "recv"
             (VObj [("id", VStr "a"); ("name", VStr "typing"); ("args", VArr [VBool true])])))
            (protos (two_sessions wire_up))) (two_sessions wire_up)).
Proof.
  exact (proj1 (monitored_ws_dispatch wire_up default_options ws_object _ (VStr "a") hub_noop
                  (initial_world [] false) (initial_world [] false) (two_sessions wire_up)
                  VNull (VStr "typing") [VBool true]
                  ws_object_patched eq_refl two_sessions_reachable (λ _ _ _, eq_refl)) 3%nat).
Defined.

(** ** The snapshot, list by list *)

(** The identities listed for a room, read off its flags. *)
Lemma active_sockets_flags info :
  NoDup (Object_keys (room_sockets info)) →
  active_sockets info = (List.filter (λ kv : string * bool, kv.2) (room_sockets info)).*1.
Proof.
  intros Hnd. unfold active_sockets.
  transitivity (List.filter (λ k, default false (prop (room_sockets info) k))
                            (Object_keys (room_sockets info))).
  - apply List.filter_ext_in. intros k Hk%list_elem_of_In.
    unfold active. by destruct (key_prop_is_Some _ _ Hk) as [b ->].
  - exact (filter_keys_by_value (λ o, default false o) (room_sockets info) Hnd).
Qed.

(** X11: with every room name and every member bound once, the snapshot
    lists the rooms that the test of [getState] does not skip, in the order
    in which [Object.keys] lists them on the hub, each once, with the
    identities whose flag is set, in the order of the room's keys.  The test
    skips a room of length 1 that holds a set flag of the room's own name,
    or holds no flag of that name when the name is one every object inherits
    ([toString], [constructor], ...). *)
Theorem getState_rooms_in_key_order (rooms : list (string * Room)) :
  NoDup (Object_keys rooms) →
  (∀ n info, (n, info) ∈ rooms → NoDup (Object_keys (room_sockets info))) →
  st_rooms (getState rooms)
    = map (λ r, mkRoomState r.1 (List.filter (λ kv, kv.2) (room_sockets r.2)).*1)
          (List.filter (λ r, negb (is_personal r.2 r.1)) rooms) ∧
  ∀ n info, (n, info) ∈ rooms →
    (is_personal info n = true ↔
     room_length info = 1 ∧
     ((n, true) ∈ room_sockets info ∨
      ((n ∉ Object_keys (room_sockets info)) ∧ n ∈ Object_prototype))).
Proof.
  intros Hnd Hnds. split.
  - unfold getState, forEachRoom. cbn [st_rooms].
    rewrite forEachRoom_rooms, app_nil_l.
    cut (∀ l, (∀ r, r ∈ l → r ∈ rooms) →
           (Object_keys l ≫= λ name,
              match prop rooms name with
              | Some info =>
                  if is_personal info name then []
                  else [mkRoomState name (active_sockets info)]
              | None => []
              end)
           = map (λ r, mkRoomState r.1 (List.filter (λ kv, kv.2) (room_sockets r.2)).*1)
                 (List.filter (λ r, negb (is_personal r.2 r.1)) l)).
    { intros Hcut. by apply Hcut. }
    induction l as [|[n info] l IH]; intros Hsub; [done|].
    cbn [Object_keys fmap list_fmap fst mbind list_bind List.filter snd].
    rewrite (prop_NoDup_elem rooms n info) by (done || apply Hsub; left).
    assert (IH' := IH (λ r Hr, Hsub r (list_elem_of_further _ _ _ Hr))).
    destruct (is_personal info n); cbn [negb map app fst snd]; [exact IH'|].
    rewrite active_sockets_flags by (apply (Hnds n), Hsub; left).
    f_equal. exact IH'.
  - intros n info Hin. rewrite is_personal_true.
    assert (Hn := Hnds n info Hin). split.
    + intros [Hl [Hp|[Hp Hi]]]; (split; [done|]).
      * left. by apply prop_Some_elem.
      * right. split; [by apply prop_None_key|done].
    + intros [Hl [Hp|[Hp Hi]]]; (split; [done|]).
      * left. by apply prop_NoDup_elem.
      * right. split; [|done].
        destruct (prop (room_sockets info) n) as [b|] eqn:E; [|done].
        destruct Hp. by eapply prop_Some_key.
Qed.

Lemma getState_rooms_in_key_order_witness :
  st_rooms (getState inherited_names) = [mkRoomState "r1" ["a"; "b"]] ∧
  is_personal (mkRoom [("z", true)] 1) "toString" = true.
Proof.
  assert (Hnd : NoDup (Object_keys inherited_names)) by compute_done.
  assert (Hnds : ∀ n info, (n, info) ∈ inherited_names →
                   NoDup (Object_keys (room_sockets info))).
  { intros n info Hin. unfold inherited_names in Hin.
    repeat (apply elem_of_cons in Hin as [[= -> ->]|Hin]; [compute_done|]).
    by apply elem_of_nil in Hin. }
  destruct (getState_rooms_in_key_order inherited_names Hnd Hnds) as [Hrooms Htest].
  split.
  - rewrite Hrooms. reflexivity.
  - apply (Htest "toString" (mkRoom [("z", true)] 1)); [left|].
    split; [reflexivity|]. right. split; compute_done.
Defined.

(** X12: the two lists of a snapshot agree, up to the identity [__proto__].
    An identity other than [__proto__] that is listed in a room of the
    snapshot is in the flat list; an identity of the flat list is not
    [__proto__], and it is in a room of the snapshot or has its flag set in
    a room that the test skipped. *)
Theorem getState_lists_agree (rooms : list (string * Room)) (id : string) :
  (∀ r, r ∈ st_rooms (getState rooms) → id ∈ sockets r → id ≠ "__proto__" →
        id ∈ st_sockets (getState rooms)) ∧
  (id ∈ st_sockets (getState rooms) →
     id ≠ "__proto__" ∧
     ((∃ r, r ∈ st_rooms (getState rooms) ∧ id ∈ sockets r) ∨
      (∃ n info, prop rooms n = Some info ∧ is_personal info n = true ∧
                 prop (room_sockets info) id = Some true))).
Proof.
  split.
  - intros r (info & Hp & _ & Hs)%elem_of_st_rooms Hid Hne.
    apply elem_of_st_sockets. split; [done|]. exists (name r), info. split; [done|].
    rewrite Hs in Hid. by apply elem_of_active_sockets.
  - intros (Hne & n & info & Hp & Hid)%elem_of_st_sockets. split; [done|].
    destruct (is_personal info n) eqn:Hpers; [right; eauto|].
    left. exists (mkRoomState n (active_sockets info)). split.
    + apply elem_of_st_rooms. exists info. done.
    + by apply elem_of_active_sockets.
Qed.

(** X27: on a hub whose rooms have names that no object inherits, with every
    room's [length] counting its members, the rooms [getState] skips are
    exactly the personal rooms (one member, active, named like the room).
    The rooms listed are rooms of the hub that are not personal, each with
    the identities whose flag is set; every room that is not personal is
    listed, the empty ones too. *)
Theorem getState_skips_personal_rooms_only (rooms : list (string * Room)) :
  NoDup (Object_keys rooms) →
  (∀ n info, (n, info) ∈ rooms →
     NoDup (Object_keys (room_sockets info)) ∧ room_counted info ∧
     n ∉ Object_prototype) →
  (∀ r, r ∈ st_rooms (getState rooms) →
     ∃ info, (name r, info) ∈ rooms ∧ ¬ personal_room (name r) info ∧
             ∀ id, id ∈ sockets r ↔ (id, true) ∈ room_sockets info) ∧
  (∀ n info, (n, info) ∈ rooms → ¬ personal_room n info →
     ∃ r, r ∈ st_rooms (getState rooms) ∧ name r = n ∧
          ∀ id, id ∈ sockets r ↔ (id, true) ∈ room_sockets info) ∧
  (∀ n info, (n, info) ∈ rooms → personal_room n info →
     ∀ r, r ∈ st_rooms (getState rooms) → name r ≠ n).
Proof.
  intros Hnd Hok.
  assert (Hflag : ∀ n info id, (n, info) ∈ rooms →
            (id ∈ active_sockets info ↔ (id, true) ∈ room_sockets info)).
  { intros n info id Hin. rewrite elem_of_active_sockets. split.
    - apply prop_Some_elem.
    - apply prop_NoDup_elem. by apply (Hok n). }
  split; [|split].
  - intros r (info & Hp%prop_Some_elem & Hpers & Hs)%elem_of_st_rooms.
    exists info. split; [done|]. destruct (Hok _ _ Hp) as (_ & Hlen & Hname). split.
    + rewrite <- is_personal_spec by done. by rewrite Hpers.
    + intros id. rewrite Hs. by apply (Hflag (name r)).
  - intros n info Hin Hpers. destruct (Hok _ _ Hin) as (_ & Hlen & Hname).
    exists (mkRoomState n (active_sockets info)). split; [|split; [done|]].
    + apply elem_of_st_rooms. exists info. simpl.
      split; [by apply prop_NoDup_elem|]. split; [|done].
      rewrite <- is_personal_spec in Hpers by done. by destruct (is_personal info n).
    + intros id. by apply (Hflag n).
  - intros n info Hin Hpers r (info' & Hp' & Hpers' & _)%elem_of_st_rooms Hn.
    subst n. rewrite (prop_NoDup_elem rooms _ info Hnd Hin) in Hp'. injection Hp' as <-.
    destruct (Hok _ _ Hin) as (_ & Hlen & Hname).
    apply is_personal_spec in Hpers; [congruence|done|done].
Qed.

Lemma getState_skips_personal_rooms_only_witness :
  (∀ r, r ∈ st_rooms (getState two_rooms) → name r ≠ "a") ∧
  ∃ r, r ∈ st_rooms (getState two_rooms) ∧ name r = "r1" ∧
       ∀ id, id ∈ sockets r ↔ (id, true) ∈ [("a", true); ("b", true)].
Proof.
  assert (Hnd : NoDup (Object_keys two_rooms)) by compute_done.
  assert (Hok : ∀ n info, (n, info) ∈ two_rooms →
                  NoDup (Object_keys (room_sockets info)) ∧ room_counted info ∧
                  n ∉ Object_prototype).
  { intros n info Hin. unfold two_rooms in Hin.
    repeat (apply elem_of_cons in Hin as [[= -> ->]|Hin];
            [split_and!; [compute_done|reflexivity|compute_done]|]).
    by apply elem_of_nil in Hin. }
  destruct (getState_skips_personal_rooms_only two_rooms Hnd Hok) as (_ & Hin & Hout).
  split.
  - apply (Hout "a" (mkRoom [("a", true)] 1)); [left|reflexivity].
  - apply (Hin "r1" (mkRoom [("a", true); ("b", true)] 2)); [right; left|].
    unfold personal_room. simpl. discriminate.
Defined.

(** X28: with every room name and every member bound once, the flat list of
    sockets has no duplicate and holds exactly the identities other than
    [__proto__] whose flag is set in some room of the hub, the rooms that
    are skipped included: the member of a personal room is in the flat
    list. *)
Theorem flat_sockets_are_the_active_members (rooms : list (string * Room)) :
  NoDup (Object_keys rooms) →
  (∀ n info, (n, info) ∈ rooms → NoDup (Object_keys (room_sockets info))) →
  NoDup (st_sockets (getState rooms)) ∧
  (∀ id, id ∈ st_sockets (getState rooms) ↔
         id ≠ "__proto__" ∧
         ∃ n info, (n, info) ∈ rooms ∧ (id, true) ∈ room_sockets info) ∧
  (∀ n info, (n, info) ∈ rooms → personal_room n info → n ≠ "__proto__" →
             n ∈ st_sockets (getState rooms)).
Proof.
  intros Hnd Hnds.
  assert (Hiff : ∀ id, id ∈ st_sockets (getState rooms) ↔
            id ≠ "__proto__" ∧
            ∃ n info, (n, info) ∈ rooms ∧ (id, true) ∈ room_sockets info).
  { intros id. rewrite elem_of_st_sockets. split.
    - intros (Hne & n & info & Hp%prop_Some_elem & Hid%prop_Some_elem). eauto.
    - intros (Hne & n & info & Hin & Hid). split; [done|]. exists n, info. split.
      + by apply prop_NoDup_elem.
      + apply prop_NoDup_elem; [|done]. by apply (Hnds n). }
  split; [apply NoDup_st_sockets|]. split; [done|].
  intros n info Hin Hpers Hne. apply Hiff. split; [done|]. exists n, info.
  split; [done|]. rewrite Hpers. left.
Qed.

Lemma flat_sockets_are_the_active_members_witness :
  NoDup (st_sockets (getState two_rooms)) ∧ "b" ∈ st_sockets (getState two_rooms).
Proof.
  assert (Hnd : NoDup (Object_keys two_rooms)) by compute_done.
  assert (Hnds : ∀ n info, (n, info) ∈ two_rooms →
                   NoDup (Object_keys (room_sockets info))).
  { intros n info Hin. unfold two_rooms in Hin.
    repeat (apply elem_of_cons in Hin as [[= -> ->]|Hin]; [compute_done|]).
    by apply elem_of_nil in Hin. }
  destruct (flat_sockets_are_the_active_members two_rooms Hnd Hnds) as (Hno & _ & Hpers).
  split; [exact Hno|].
  apply (Hpers "b" (mkRoom [("b", true)] 1)); [do 2 right; left|reflexivity|discriminate].
Defined.

(** ** The flat list, in order *)

Lemma key_before_trans k1 k2 k3 : key_before k1 k2 → key_before k2 k3 → key_before k1 k3.
Proof.
  unfold key_before.
  destruct (array_index k1), (array_index k2), (array_index k3); try done. lia.
Qed.

Section KeyOrder.
Context {A : Type}.
Implicit Types (o : list (string * A)).

Lemma add_key_sorted o k v :
  StronglySorted key_before (Object_keys o) →
  StronglySorted key_before (Object_keys (add_key o k v)).
Proof.
  induction o as [|[k' v'] o IH]; intros Hs.
  - repeat constructor.
  - cbn [Object_keys fmap list_fmap fst] in Hs.
    apply StronglySorted_inv in Hs as [Hs Hall]. cbn [add_key].
    assert (Hrec : StronglySorted key_before (Object_keys ((k', v') :: add_key o k v)) ↔
                   key_before k' k).
    { cbn [Object_keys fmap list_fmap fst]. split.
      - intros [_ Hf]%StronglySorted_inv. rewrite List.Forall_forall in Hf.
        apply Hf. apply list_elem_of_In.
        change (k ∈ Object_keys (add_key o k v)). unfold Object_keys.
        rewrite add_key_Permutation. left.
      - intros Hb. constructor; [by apply IH|].
        apply List.Forall_forall. intros x Hx%list_elem_of_In.
        change (x ∈ Object_keys (add_key o k v)) in Hx. unfold Object_keys in Hx.
        rewrite add_key_Permutation in Hx.
        cbn [fmap list_fmap fst] in Hx. apply elem_of_cons in Hx as [->|Hx]; [done|].
        rewrite List.Forall_forall in Hall. by apply Hall, list_elem_of_In. }
    assert (Hfront : key_before k k' →
              StronglySorted key_before (Object_keys ((k, v) :: (k', v') :: o))).
    { intros Hb. cbn [Object_keys fmap list_fmap fst]. constructor.
      - by constructor.
      - constructor; [done|]. eapply List.Forall_impl; [|exact Hall].
        intros x. by apply key_before_trans. }
    unfold key_before in Hrec, Hfront.
    destruct (array_index k) as [i|] eqn:Ei, (array_index k') as [i'|] eqn:Ei'.
    + destruct (N.ltb_spec i i').
      * apply Hfront. lia.
      * apply Hrec. lia.
    + by apply Hfront.
    + by apply Hrec.
    + by apply Hrec.
Qed.

Lemma assign_sorted o k v :
  StronglySorted key_before (Object_keys o) →
  StronglySorted key_before (Object_keys (assign o k v)).
Proof.
  intros Hs. unfold assign. destruct (prop o k).
  - by rewrite keys_overwrite.
  - destruct (String.eqb k "__proto__"); [done|by apply add_key_sorted].
Qed.

Lemma named_keys_add_key o k v :
  List.filter named (Object_keys (add_key o k v))
    = List.filter named (Object_keys o) ++ (if named k then [k] else []).
Proof.
  induction o as [|[k' v'] o IH].
  - cbn. destruct (named k); done.
  - cbn [add_key]. unfold Object_keys in *.
    destruct (array_index k) as [i|] eqn:Ei.
    + assert (Hk : named k = false) by (unfold named; by rewrite Ei).
      rewrite Hk, app_nil_r in *.
      destruct (array_index k') as [i'|] eqn:Ei'; [destruct (i <? i')%N|];
        cbn [fmap list_fmap fst List.filter]; rewrite ?Hk, ?IH; done.
    + assert (Hk : named k = true) by (unfold named; by rewrite Ei).
      rewrite Hk in *.
      cbn [fmap list_fmap fst List.filter]. rewrite IH.
      destruct (named k'); done.
Qed.
End KeyOrder.


Lemma foldl_if_filter {B} (f : B → string → B) (P : string → bool) l b :
  foldl (λ d id, if P id then f d id else d) b l = foldl f b (List.filter P l).
Proof.
  revert b. induction l as [|x l IH]; intros b; [done|].
  cbn [foldl List.filter]. rewrite IH. by destruct (P x).
Qed.

(** The dictionary of [getState] is filled with the identities whose flag is
    set, room after room. *)
Lemma dict_seen (rooms : list (string * Room)) :
  NoDup (Object_keys rooms) →
  (∀ n info, (n, info) ∈ rooms → NoDup (Object_keys (room_sockets info))) →
  st_sockets (getState rooms)
    = Object_keys (foldl (λ (d : list (string * bool)) id, assign d id true) [] (seen rooms)).
Proof.
  intros Hnd Hnds. unfold getState, forEachRoom. cbn [st_sockets]. f_equal.
  generalize (@nil (string * bool)).
  cut (∀ l, (∀ r, r ∈ l → r ∈ rooms) → ∀ d : list (string * bool),
         foldl (λ data name,
                  match prop rooms name with
                  | Some info =>
                      foldl (λ d id, if active info id then assign d id true else d)
                            data (Object_keys (room_sockets info))
                  | None => data
                  end) d (Object_keys l)
         = foldl (λ d id, assign d id true) d (seen l)).
  { intros Hcut. by apply Hcut. }
  induction l as [|[n info] l IH]; intros Hsub d; [done|].
  cbn [Object_keys fmap list_fmap fst foldl].
  rewrite (prop_NoDup_elem rooms n info) by (done || apply Hsub; left).
  unfold Object_keys in IH. rewrite IH by (intros r Hr; apply Hsub; by right).
  unfold seen. cbn [mbind list_bind snd]. rewrite foldl_app. f_equal.
  rewrite foldl_if_filter.
  change (List.filter (active info) (Object_keys (room_sockets info)))
    with (active_sockets info).
  rewrite active_sockets_flags; [done|]. apply (Hnds n), Hsub. left.
Qed.

Lemma fold_assign_sorted l (d : list (string * bool)) :
  StronglySorted key_before (Object_keys d) →
  StronglySorted key_before (Object_keys (foldl (λ d id, assign d id true) d l)).
Proof.
  revert d. induction l as [|x l IH]; intros d Hs; [done|].
  cbn [foldl]. by apply IH, assign_sorted.
Qed.

Lemma named_keys_assign (d : list (string * bool)) id :
  List.filter named (Object_keys (assign d id true))
    = if named id && negb (String.eqb id "__proto__")
      then (if bool_decide (id ∈ List.filter named (Object_keys d))
            then List.filter named (Object_keys d)
            else List.filter named (Object_keys d) ++ [id])
      else List.filter named (Object_keys d).
Proof.
  unfold assign. destruct (prop d id) as [b|] eqn:Hp.
  - rewrite keys_overwrite. apply prop_Some_key in Hp.
    destruct (named id) eqn:Hn; [|done]. destruct (negb _); [|done].
    rewrite bool_decide_eq_true_2; [done|].
    apply list_elem_of_In, filter_In. split; [by apply list_elem_of_In|done].
  - apply prop_None_key in Hp. destruct (String.eqb id "__proto__").
    + by rewrite andb_false_r.
    + rewrite named_keys_add_key, andb_true_r. destruct (named id); [|by rewrite app_nil_r].
      rewrite bool_decide_eq_false_2; [done|].
      intros [Hin _]%list_elem_of_In%filter_In. by apply Hp, list_elem_of_In.
Qed.

Lemma fold_assign_named l (d : list (string * bool)) :
  List.filter named (Object_keys (foldl (λ d id, assign d id true) d l))
    = foldl (λ acc x, if bool_decide (x ∈ acc) then acc else acc ++ [x])
            (List.filter named (Object_keys d))
            (List.filter (λ k, named k && negb (String.eqb k "__proto__")) l).
Proof.
  revert d. induction l as [|x l IH]; intros d; [done|].
  cbn [foldl List.filter]. rewrite IH, named_keys_assign.
  destruct (named x && negb (String.eqb x "__proto__")); done.
Qed.

(** X29: with every room name and every member bound once, the flat list
    is in the order in which [Object.keys] lists the dictionary it was
    collected in.  The identities that are array indices come first, in
    ascending numeric order; the others follow in the order in which the
    rooms of the hub first show them with their flag set. *)
Theorem flat_sockets_in_key_order (rooms : list (string * Room)) :
  NoDup (Object_keys rooms) →
  (∀ n info, (n, info) ∈ rooms → NoDup (Object_keys (room_sockets info))) →
  StronglySorted key_before (st_sockets (getState rooms)) ∧
  List.filter named (st_sockets (getState rooms))
    = first_seen (List.filter (λ k, named k && negb (String.eqb k "__proto__")) (seen rooms)).
Proof.
  intros Hnd Hnds. rewrite dict_seen by done. split.
  - apply fold_assign_sorted. constructor.
  - by rewrite fold_assign_named.
Qed.

Lemma flat_sockets_in_key_order_witness :
  StronglySorted key_before (st_sockets (getState numeric_ids)) ∧
  List.filter named (st_sockets (getState numeric_ids)) = ["b"; "a"].
Proof.
  assert (Hnd : NoDup (Object_keys numeric_ids)) by compute_done.
  assert (Hnds : ∀ n info, (n, info) ∈ numeric_ids →
                   NoDup (Object_keys (room_sockets info))).
  { intros n info Hin. unfold numeric_ids in Hin.
    repeat (apply elem_of_cons in Hin as [[= -> ->]|Hin]; [compute_done|]).
    by apply elem_of_nil in Hin. }
  destruct (flat_sockets_in_key_order numeric_ids Hnd Hnds) as [Hsorted Hnamed].
  split; [exact Hsorted|]. rewrite Hnamed. vm_compute. reflexivity.
Defined.

(** The identities [9] and [10] are listed before [b] and [a], which the
    rooms show first. *)
Example flat_sockets_numeric_ids :
  st_sockets (getState numeric_ids) = ["9"; "10"; "b"; "a"].
Proof. vm_compute. reflexivity. Qed.

(** ** What every run of the server keeps *)

Section Invariant.
Variable wire : nat → Msg → result ().
Variable options : Options.
Implicit Types (w : World) (p q : nat) (hist : list Event).

Lemma sent_password_snoc p hist ev :
  sent_password options p (hist ++ [ev]) = false → sent_password options p hist = false.
Proof.
  unfold sent_password. rewrite existsb_app. by intros [? _]%orb_false_elim.
Qed.

(** An event that leaves a session alone keeps what holds of it. *)
Lemma session_inv_frame hist ev w w' p :
  conns w' !! p = conns w !! p →
  (p ∈ protos w' ↔ p ∈ protos w) →
  (p ∈ immediates w' ↔ p ∈ immediates w) →
  outbox p w' = outbox p w →
  session_inv options hist w p → session_inv options (hist ++ [ev]) w' p.
Proof.
  intros Hc Hp Hi Ho Hinv c Hc'. rewrite Hc in Hc'.
  destruct (Hinv c Hc') as (S1 & S2 & S3 & S4 & S5 & S6 & S7). rewrite Ho, Hp, Hi.
  split; [done|]. split; [done|]. split; [|done].
  intros Hs. apply S3. by eapply sent_password_snoc.
Qed.

Lemma session_inv_touches S hist ev w w' p :
  ¬ S p → touches S w w' →
  session_inv options hist w p → session_inv options (hist ++ [ev]) w' p.
Proof.
  intros HS (_ & _ & H). destruct (H p HS) as (? & ? & ? & ?). by apply session_inv_frame.
Qed.

(** More messages for a session of the roster, none of them [init]. *)
Lemma session_inv_events hist ev w w' p news :
  conns w' !! p = conns w !! p →
  (p ∈ protos w' ↔ p ∈ protos w) →
  (p ∈ immediates w' ↔ p ∈ immediates w) →
  outbox p w' = outbox p w ++ news →
  Forall (λ m, is_init m = false ∧ msg_name m ≠ "auth") news →
  p ∈ protos w →
  session_inv options hist w p → session_inv options (hist ++ [ev]) w' p.
Proof.
  intros Hc Hp Hi Ho Hnews' Hin Hinv c Hc'. rewrite Hc in Hc'.
  assert (Hnews : Forall (λ m, is_init m = false) news).
  { eapply Forall_impl; [exact Hnews'|]. by intros m [? _]. }
  assert (Hnoauth : Forall (λ m, msg_name m ≠ "auth") news).
  { eapply Forall_impl; [exact Hnews'|]. by intros m [_ ?]. }
  destruct (Hinv c Hc') as ((rest & S1) & S2 & S3 & S4 & S5 & S6 & S7).
  rewrite Ho, Hp, Hi.
  split; [exists (rest ++ news); by rewrite S1|].
  split; [left; destruct S2 as [?|(_ & ? & _)]; done|].
  split.
  { intros Hs%sent_password_snoc. by destruct (S3 Hs) as (? & _). }
  split.
  { intros Hi'. apply Forall_app. split; [by apply S4|done]. }
  split.
  { rewrite List.filter_app, length_app.
    rewrite (filter_none is_init news); [simpl; lia|].
    intros m Hm. rewrite Forall_forall in Hnews. by apply Hnews. }
  split; [done|].
  intros Ht. destruct (S7 Ht) as [? ?]. split; [done|]. apply Forall_app. by split.
Qed.

Lemma filter_initial_listeners_other dbg n :
  n ∉ event_names →
  List.filter (λ l : string * Handler, String.eqb l.1 n) (initial_listeners dbg) = [].
Proof.
  intros Hn. apply filter_none. intros [k h] Hin.
  assert (Hk : k ∈ event_names).
  { unfold initial_listeners in Hin. apply elem_of_app in Hin as [Hin|Hin].
    - destruct dbg; [|by apply elem_of_nil in Hin].
      by apply list_elem_of_fmap in Hin as (x & [= -> _] & Hx).
    - by apply list_elem_of_fmap in Hin as (x & [= -> _] & Hx). }
  cbn [fst]. destruct (String.eqb_spec k n); [by subst|done].
Qed.

(** What a fan-out sends: the message to the sessions it reached. *)
Lemma forEach_emit_sends n d ps w :
  ∃ qs, sent (forEach (λ proto, proto_emit wire proto n d) ps w).2
          = sent w ++ map (λ q, (q, mkMsg n d)) qs.
Proof.
  revert w. induction ps as [|x ps IH]; intros w.
  - exists []. simpl. by rewrite app_nil_r.
  - cbn [forEach]. unfold mbind, M_bind.
    destruct (wire x (mkMsg n d)) as [[]|e] eqn:Hw.
    + rewrite proto_emit_ok by done.
      destruct (IH (set_sent (λ s, s ++ [(x, mkMsg n d)]) w)) as [qs Hqs].
      exists (x :: qs). rewrite Hqs. cbn [sent set_sent map]. by rewrite <- app_assoc.
    + rewrite (proto_emit_throw _ _ _ _ _ e) by done.
      exists []. simpl. by rewrite app_nil_r.
Qed.

(** The publication of an event sends messages that carry it, and any at
    all only for one of the retransmitted names. *)
Lemma e_emit_sends dbg n d w :
  e_listeners w = initial_listeners dbg →
  ∃ qs, sent (e_emit wire n d w).2 = sent w ++ map (λ q, (q, mkMsg n d)) qs ∧
        (qs = [] ∨ n ∈ event_names).
Proof.
  intros He. destruct (decide (n ∈ event_names)) as [Hn|Hn].
  - unfold e_emit. munfold. rewrite He, filter_initial_listeners by done.
    assert (Hd : ∃ qs, sent (dispatch wire n d w).2 = sent w ++ map (λ q, (q, mkMsg n d)) qs).
    { unfold dispatch. munfold. apply forEach_emit_sends. }
    destruct Hd as [qs Hqs].
    assert (Hnone : sent w = sent w ++ map (λ q, (q, mkMsg n d)) []) by (by rewrite app_nil_r).
    destruct dbg; cbn [app forEach snd run_handler]; munfold.
    + destruct d; try (exists []; split; [exact Hnone|by left]);
        (exists qs; split; [|by right]);
        by destruct (dispatch wire n _ w) as [[[]|e] w'].
    + exists qs. split; [|by right]. by destruct (dispatch wire n d w) as [[[]|e] w'].
  - exists []. split; [|by left]. unfold e_emit. munfold.
    rewrite He, filter_initial_listeners_other by done. simpl. by rewrite app_nil_r.
Qed.

(** The [client] event has no listener on the server's side. *)
Lemma e_emit_client dbg d w :
  e_listeners w = initial_listeners dbg → e_emit wire "client" d w = (Ok (), w).
Proof.
  intros He. unfold e_emit. munfold.
  rewrite He, filter_initial_listeners_other; [done|]. compute_done.
Qed.

(** The callback left with [setImmediate], when it returns: it has sent
    [init], or [error] after a failed [init], to the session it was left for. *)
Lemma run_immediate_cases dbg w w' :
  e_listeners w = initial_listeners dbg →
  run_immediate wire w = (Ok (), w') →
  (immediates w = [] ∧ w' = w) ∨
  ∃ p later m, immediates w = p :: later ∧
    w' = set_sent (λ s, s ++ [(p, m)]) (set_immediates (λ _, later) w) ∧
    (m = mkMsg "init" (State_val (getState (rooms w))) ∨
     ∃ err, wire p (mkMsg "init" (State_val (getState (rooms w)))) = Throw err ∧
            m = mkMsg "error" (VStr (message err))).
Proof.
  intros He. unfold run_immediate. munfold.
  destruct (immediates w) as [|p later] eqn:Hq; [intros [= <-]; by left|].
  unfold addProto_immediate. munfold. cbn [rooms set_immediates].
  rewrite (e_emit_client dbg) by done.
  unfold proto_emit.
  destruct (wire p (mkMsg "init" _)) as [[]|err] eqn:Hinit.
  - intros [= <-]. right. exists p, later, (mkMsg "init" (State_val (getState (rooms w)))).
    split; [done|]. split; [done|]. by left.
  - destruct (wire p (mkMsg "error" _)) as [[]|err'] eqn:Herr; [|by intros [=]].
    intros [= <-]. right. exists p, later, (mkMsg "error" (VStr (message err))).
    split; [done|]. split; [done|]. right. by exists err.
Qed.

(** Accepting a connection changes neither the roster nor the pending [init]s. *)
Lemma connection_lists w :
  protos (connection wire options w).2 = protos w ∧
  immediates (connection wire options w).2 = immediates w.
Proof.
  unfold connection, proto_emit, update_conn. munfold.
  by destruct (negb _); destruct (wire _ _) as [[]|e].
Qed.

(** The outcomes of a [password] message for a session that waits for one. *)
Lemma receive_password_cases p pwd t a e w w' :
  conns w !! p = Some (mkConn [("password", handler_for options)] t a e) →
  step wire options (Receive p "password" pwd) w = (Ok (), w') →
  (accepts options pwd = true ∧
   protos w' = protos w ++ [p] ∧ immediates w' = immediates w ++ [p] ∧
   (∃ news, outbox p w' = outbox p w ++ news ∧ Forall (λ m, m = auth_accepted) news ∧
            (truthy (password options) = false → news = [])) ∧
   ∃ c', conns w' !! p = Some c' ∧ conn_listeners c' = [] ∧
         conn_timeout c' = if truthy (password options) then None else t) ∨
  (accepts options pwd = false ∧ truthy (password options) = true ∧
   protos w' = protos w ∧ immediates w' = immediates w ∧
   outbox p w' = outbox p w ++ [auth_invalid] ∧
   ∃ c', conns w' !! p = Some c' ∧ conn_listeners c' = [] ∧ conn_timeout c' = None).
Proof.
  intros Hc. unfold handler_for, accepts in *.
  destruct (truthy (password options)) eqn:Ht; cbn [negb orb].
  - destruct (strict_eq pwd (password options)) eqn:Hpw.
    + destruct (wire p auth_accepted) as [[]|err] eqn:Hw.
      * destruct (password_accepted wire options p pwd _ _ _ w Hc Hpw Hw)
          as (w2 & Hstep & Hp2 & Hi2 & Ho2 & Hc2).
        rewrite Hstep. intros [= <-]. left. split; [done|]. split; [done|]. split; [done|].
        split; [|by eexists]. exists [auth_accepted]. split; [done|].
        split; [by repeat constructor|done].
      * cbn [step]. unfold proto_receive, update_conn. munfold. rewrite Hc.
        cbn. unfold update_conn, proto_emit. munfold. rewrite Hpw.
        unfold auth_accepted in Hw. by rewrite Hw.
    + destruct (wire p auth_invalid) as [[]|err] eqn:Hw.
      * destruct (password_rejected wire options p pwd _ _ _ w Hc Hpw Hw)
          as (w2 & Hstep & Hp2 & Hi2 & Ho2 & Hc2).
        rewrite Hstep. intros [= <-]. right. split; [done|]. split; [done|]. split; [done|].
        split; [done|]. split; [done|]. by eexists.
      * cbn [step]. unfold proto_receive, update_conn. munfold. rewrite Hc.
        cbn. unfold update_conn, proto_emit. munfold. rewrite Hpw.
        unfold auth_invalid in Hw. by rewrite Hw.
  - destruct (password_open wire options p _ _ _ w Hc) as (w2 & Hstep & Hp2 & Hi2 & Hs2 & Hc2).
    rewrite Hstep. intros [= <-]. left. split; [done|]. split; [done|]. split; [done|].
    split; [|by eexists]. exists []. split; [|done].
    unfold outbox. by rewrite Hs2, app_nil_r.
Qed.

(** The expiry of a timer, when it returns: nothing if the timer was not
    pending, the [TIMEOUT] answer otherwise. *)
Lemma timer_fires_cases p w w' :
  step wire options (TimerFires p) w = (Ok (), w') →
  w' = w ∨
  ∃ c, conns w !! p = Some c ∧ is_Some (conn_timeout c) ∧
       protos w' = protos w ∧ immediates w' = immediates w ∧
       outbox p w' = outbox p w ++ [auth_timeout] ∧
       conns w' !! p = Some (set_ended true (set_timeout None c)).
Proof.
  cbn [step]. destruct (conns w !! p) as [c|] eqn:Hc.
  - destruct (conn_timeout c) as [t|] eqn:Ht.
    + destruct (wire p auth_timeout) as [[]|err] eqn:Hw.
      * destruct c as [ls t' a e]. simpl in Ht. subst t'.
        destruct (timer_expired wire options p _ _ _ _ w Hc Hw)
          as (w2 & Hstep & Hp2 & Hi2 & Ho2 & Hc2).
        cbn [step] in Hstep. rewrite Hstep. intros [= <-]. right.
        eexists. split; [done|]. split; [by eexists|]. by rewrite Hc2.
      * unfold timer_fires, on_timeout, update_conn, proto_emit. munfold.
        rewrite Hc. cbn. rewrite Ht. unfold auth_timeout in Hw. by rewrite Hw.
    + rewrite timer_fires_disarmed; [intros [= <-]; by left|].
      intros c' Hc'. by simplify_eq.
  - rewrite timer_fires_disarmed; [intros [= <-]; by left|]. congruence.
Qed.

Lemma is_init_event n d :
  n ∈ event_names → is_init (mkMsg n d) = false ∧ msg_name (mkMsg n d) ≠ "auth".
Proof.
  intros Hn. unfold event_names in Hn.
  repeat (apply elem_of_cons in Hn as [->|Hn]; [done|]). by apply elem_of_nil in Hn.
Qed.

Lemma Forall_not_init_pre_auth l :
  Forall (pre_auth options) l → Forall (λ m, is_init m = false) l.
Proof. intros H. eapply Forall_impl; [exact H|]. by intros m [->|[->| ->]]. Qed.

(** Each kind of event keeps the invariant. *)
Lemma step_inv_connection hist w w' p :
  server_inv options hist w →
  step wire options Connection w = (Ok (), w') →
  NoDup (protos w') ∧ NoDup (immediates w') ∧
  session_inv options (hist ++ [Connection]) w' p.
Proof.
  intros (He & Hn & Hndp & Hndi & Hs) Hstep.
  pose proof (connection_lists w) as [Hp Hi].
  pose proof (step_touches wire options Connection w) as Ht.
  assert (Hw' : (connection wire options w).2 = w').
  { revert Hstep. cbn [step]. munfold.
    by destruct (connection wire options w) as [[x|err] w1]; intros [= <-]. }
  rewrite Hstep in Ht. cbn [snd footprint] in Ht. rewrite Hw' in Hp, Hi.
  split; [by rewrite Hp|]. split; [by rewrite Hi|].
  destruct (decide (p = length (conns w))) as [->|Hne];
    [|by eapply session_inv_touches; [|exact Ht|]].
  assert (Hpk : parked (length (conns w))
                  (mkConn [("password", handler_for options)]
                          (if truthy (password options)
                           then Some (authTimeout options) else None) false false)
                  [reqAuth_msg options] w').
  { unfold handler_for, reqAuth_msg. destruct (truthy (password options)) eqn:Htr.
    - by apply (connection_secured wire options w).
    - by apply (connection_open wire options w). }
  destruct Hpk as (Hc & Hp' & Hi' & Ho).
  intros c Hc'. rewrite Hc in Hc'. injection Hc' as <-. rewrite Ho.
  cbn [conn_listeners conn_timeout].
  split; [by eexists|]. split.
  { right. split; [done|]. split; [done|]. split; [done|]. by repeat constructor. }
  split.
  { intros _. split; [done|]. split; [done|]. repeat constructor. }
  split; [done|]. split; [simpl; lia|]. split; [by intros [?|?]|].
  intros ->. split; [done|]. by repeat constructor.
Qed.

Lemma sent_password_here p pwd hist :
  accepts options pwd = true →
  sent_password options p (hist ++ [Receive p "password" pwd]) = true.
Proof.
  intros Ha. unfold sent_password. rewrite existsb_app. cbn [existsb].
  rewrite Nat.eqb_refl, Ha. cbn. by rewrite !orb_true_r.
Qed.

Lemma filter_init_none l :
  Forall (λ m, is_init m = false) l → List.filter is_init l = [].
Proof. intros Hl. apply filter_none. intros m Hm. rewrite Forall_forall in Hl. by apply Hl. Qed.

Lemma step_inv_receive hist w w' q n d p :
  server_inv options hist w →
  step wire options (Receive q n d) w = (Ok (), w') →
  NoDup (protos w') ∧ NoDup (immediates w') ∧
  session_inv options (hist ++ [Receive q n d]) w' p.
Proof.
  intros (He & Hn & Hndp & Hndi & Hs) Hstep.
  pose proof (step_touches wire options (Receive q n d) w) as Ht.
  rewrite Hstep in Ht. cbn [snd footprint] in Ht.
  assert (Hsame : w' = w → NoDup (protos w') ∧ NoDup (immediates w') ∧
                           session_inv options (hist ++ [Receive q n d]) w' p).
  { intros ->. split; [done|]. split; [done|]. by apply (session_inv_frame hist _ w w). }
  assert (Hunheard : (∀ c l, conns w !! q = Some c → l ∈ conn_listeners c → l.1 ≠ n) →
                     w' = w).
  { intros Hl. cbn [step] in Hstep.
    rewrite (proto_receive_unheard wire options q n d w Hl) in Hstep.
    by injection Hstep. }
  destruct (conns w !! q) as [c|] eqn:Hc; [|apply Hsame, Hunheard; congruence].
  destruct (Hs q c Hc) as (S1 & S2 & S3 & S4 & S5 & S6 & S7).
  destruct S2 as [Hl|(Hl & Hqp & Hqi & Hno)].
  { apply Hsame, Hunheard. intros c' l [= <-]. rewrite Hl. by intros ?%elem_of_nil. }
  destruct (String.eqb_spec n "password") as [->|Hne]; cycle 1.
  { apply Hsame, Hunheard. intros c' l [= <-]. rewrite Hl.
    intros ->%list_elem_of_singleton. cbn. congruence. }
  destruct c as [ls t a e]. cbn [conn_listeners conn_timeout] in *. subst ls.
  destruct (receive_password_cases q d t a e w w' Hc Hstep)
    as [(Hacc & Hp' & Hi' & (news & Ho' & Hnews & Hopen) & c' & Hc' & Hl' & Ht')
       |(Hacc & Htr & Hp' & Hi' & Ho' & c' & Hc' & Hl' & Ht')].
  - split.
    { rewrite Hp'. apply NoDup_app. split; [done|]. split; [|apply NoDup_singleton].
      by intros x Hx ->%list_elem_of_singleton. }
    split.
    { rewrite Hi'. apply NoDup_app. split; [done|]. split; [|apply NoDup_singleton].
      by intros x Hx ->%list_elem_of_singleton. }
    destruct (decide (p = q)) as [->|Hpq];
      [|by eapply session_inv_touches; [|exact Ht|]].
    assert (Hnews' : Forall (λ m, is_init m = false) news).
    { eapply Forall_impl; [exact Hnews|]. by intros m ->. }
    intros c0 Hc0. rewrite Hc' in Hc0. injection Hc0 as <-. rewrite Ho'.
    destruct S1 as [rest S1]. split; [exists (rest ++ news); by rewrite S1|].
    split; [by left|]. split.
    { intros Hsp. by rewrite sent_password_here in Hsp. }
    split; [intros _; apply Forall_app; by split|].
    split; [rewrite filter_init_none; [simpl; lia|]; apply Forall_app; by split|].
    split.
    { intros _. rewrite Ht'. destruct (truthy (password options)) eqn:Htr; [done|].
      by destruct (S7 eq_refl). }
    intros Htr. destruct (S7 Htr) as [Htn Hna]. rewrite Ht', Htr, (Hopen Htr), app_nil_r.
    done.
  - rewrite Hp', Hi'. split; [done|]. split; [done|].
    destruct (decide (p = q)) as [->|Hpq];
      [|by eapply session_inv_touches; [|exact Ht|]].
    intros c0 Hc0. rewrite Hc' in Hc0. injection Hc0 as <-. rewrite Ho', Hp', Hi'.
    destruct S1 as [rest S1]. split; [exists (rest ++ [auth_invalid]); by rewrite S1|].
    split; [by left|]. split.
    { intros Hsp%sent_password_snoc. destruct (S3 Hsp) as (_ & _ & Hpre).
      split; [done|]. split; [done|]. apply Forall_app. split; [done|].
      apply Forall_singleton. right. by right. }
    split; [done|].
    split.
    { rewrite filter_init_none; [simpl; lia|]. apply Forall_app. split; [done|].
      by repeat constructor. }
    split; [done|]. intros Hfalse. congruence.
Qed.

Lemma step_inv_timer hist w w' q p :
  server_inv options hist w →
  step wire options (TimerFires q) w = (Ok (), w') →
  NoDup (protos w') ∧ NoDup (immediates w') ∧
  session_inv options (hist ++ [TimerFires q]) w' p.
Proof.
  intros (He & Hn & Hndp & Hndi & Hs) Hstep.
  pose proof (step_touches wire options (TimerFires q) w) as Ht.
  rewrite Hstep in Ht. cbn [snd footprint] in Ht.
  destruct (timer_fires_cases q w w' Hstep)
    as [->|(c & Hc & [t Hsome] & Hp' & Hi' & Ho' & Hc')].
  { split; [done|]. split; [done|]. by apply (session_inv_frame hist _ w w). }
  rewrite Hp', Hi'. split; [done|]. split; [done|].
  destruct (decide (p = q)) as [->|Hpq];
    [|by eapply session_inv_touches; [|exact Ht|]].
  destruct (Hs q c Hc) as ((rest & S1) & S2 & S3 & S4 & S5 & S6 & S7).
  intros c0 Hc0. rewrite Hc' in Hc0. injection Hc0 as <-. rewrite Ho', Hp', Hi'.
  cbn [conn_listeners conn_timeout set_ended set_timeout].
  split; [exists (rest ++ [auth_timeout]); by rewrite S1|].
  split.
  { destruct S2 as [?|(? & ? & ? & Hno)]; [by left|right].
    split; [done|]. split; [done|]. split; [done|].
    apply Forall_app. split; [done|]. by apply Forall_singleton. }
  split.
  { intros Hsp%sent_password_snoc. destruct (S3 Hsp) as (? & ? & Hpre).
    split; [done|]. split; [done|]. apply Forall_app. split; [done|].
    apply Forall_singleton. right. by left. }
  split.
  { intros Hi0. apply Forall_app. split; [by apply S4|]. by apply Forall_singleton. }
  split; [rewrite List.filter_app, length_app; cbn; lia|].
  split; [done|].
  intros Htr. destruct (S7 Htr) as [Hnone _]. congruence.
Qed.

Lemma step_inv_close hist w w' q p :
  server_inv options hist w →
  step wire options (Close q) w = (Ok (), w') →
  NoDup (protos w') ∧ NoDup (immediates w') ∧
  session_inv options (hist ++ [Close q]) w' p.
Proof.
  intros (He & Hn & Hndp & Hndi & Hs) Hstep.
  pose proof (step_touches wire options (Close q) w) as Ht.
  rewrite Hstep in Ht. cbn [snd footprint] in Ht.
  cbn [step] in Hstep. unfold removeProto in Hstep. munfold. injection Hstep as <-.
  wsimpl. split; [by apply NoDup_ListNoDup, List.NoDup_filter, NoDup_ListNoDup|].
  split; [done|].
  destruct (decide (p = q)) as [->|Hpq];
    [|by eapply session_inv_touches; [|exact Ht|]].
  intros c0. wsimpl. rewrite list_lookup_alter_eq.
  destruct (conns w !! q) as [c|] eqn:Hc; [|done]. intros [= <-].
  destruct (Hs q c Hc) as (S1 & S2 & S3 & S4 & S5 & S6 & S7).
  assert (Hout : q ∉ List.filter (λ x, negb (Nat.eqb x q)) (protos w)).
  { rewrite list_elem_of_In, filter_In. intros [_ Hq]. by rewrite Nat.eqb_refl in Hq. }
  change (outbox q (set_conns _ (set_protos _ w))) with (outbox q w).
  cbn [conn_listeners conn_timeout set_listeners].
  split; [done|]. split; [by left|]. split.
  { intros Hsp%sent_password_snoc. destruct (S3 Hsp) as (? & ? & ?). done. }
  split; [done|]. split; [done|]. split; [|done].
  intros [?|?]; [done|]. apply S6. by right.
Qed.

Lemma step_inv_immediate hist w w' p :
  server_inv options hist w →
  step wire options Immediate w = (Ok (), w') →
  NoDup (protos w') ∧ NoDup (immediates w') ∧
  session_inv options (hist ++ [Immediate]) w' p.
Proof.
  intros ([dbg He] & Hn & Hndp & Hndi & Hs) Hstep.
  destruct (run_immediate_cases dbg w w' He Hstep)
    as [[_ ->]|(x & later & m & Hq & -> & Hm)].
  { split; [done|]. split; [done|]. by apply (session_inv_frame hist _ w w). }
  rewrite Hq in Hndi. apply NoDup_cons in Hndi as [Hx Hlater].
  wsimpl. split; [done|]. split; [done|].
  destruct (decide (p = x)) as [->|Hpx].
  - intros c Hc. wsimpl.
    assert (Hin : x ∈ immediates w) by (rewrite Hq; left).
    assert (Hname : is_init m = false ∨ is_init m = true) by (destruct (is_init m); auto).
    assert (Hna : msg_name m ≠ "auth").
    { by destruct Hm as [->|(err & _ & ->)]. }
    destruct (Hs x c Hc) as ((rest & S1) & S2 & S3 & S4 & S5 & S6 & S7).
    rewrite outbox_set_sent_same.
    change (outbox x (set_immediates _ w)) with (outbox x w).
    split; [exists (rest ++ [m]); by rewrite S1|].
    split; [left; by destruct S2 as [?|(_ & _ & ? & _)]|].
    split.
    { intros Hsp%sent_password_snoc. by destruct (S3 Hsp) as (_ & ? & _). }
    split; [done|].
    split.
    { rewrite List.filter_app, length_app, (filter_init_none (outbox x w)) by (by apply S4).
      cbn. destruct (is_init m); simpl; lia. }
    split; [intros _; apply S6; by right|].
    intros Htr. destruct (S7 Htr) as [? ?]. split; [done|].
    apply Forall_app. split; [done|]. by apply Forall_singleton.
  - apply (session_inv_frame hist _ w); wsimpl;
      [done|done| |by rewrite outbox_set_sent_other by done|done].
    rewrite Hq, elem_of_cons. split; [by right|]. by intros [?|?].
Qed.

Lemma step_inv_publish hist w w' n d p :
  server_inv options hist w →
  step wire options (Publish n d) w = (Ok (), w') →
  NoDup (protos w') ∧ NoDup (immediates w') ∧
  session_inv options (hist ++ [Publish n d]) w' p.
Proof.
  intros ([dbg He] & Hn & Hndp & Hndi & Hs) Hstep.
  pose proof (step_touches wire options (Publish n d) w) as Ht.
  pose proof (e_emit_only_sends wire n d w) as (_ & _ & Hp' & Hc' & Hi').
  destruct (e_emit_sends dbg n d w He) as (qs & Hsent & Hqs).
  cbn [step] in Hstep, Ht. rewrite Hstep in Ht, Hp', Hc', Hi', Hsent.
  cbn [snd footprint] in *.
  rewrite Hp', Hi'. split; [done|]. split; [done|].
  destruct (decide (p ∈ protos w)) as [Hin|Hout];
    [|by eapply session_inv_touches; [|exact Ht|]].
  apply (session_inv_events hist _ w w' p
           (List.filter (λ pm, Nat.eqb pm.1 p) (map (λ q, (q, mkMsg n d)) qs)).*2);
    [by rewrite Hc'|by rewrite Hp'|by rewrite Hi'| | |done|done].
  - unfold outbox. by rewrite Hsent, List.filter_app, fmap_app.
  - destruct Hqs as [->|Hev]; [done|].
    apply Forall_forall. intros m (pm & -> & Hpm)%list_elem_of_fmap.
    apply list_elem_of_In, filter_In in Hpm as [Hpm _].
    apply in_map_iff in Hpm as (x & <- & _). by apply is_init_event.
Qed.

(** One event of a run keeps the invariant. *)
Lemma step_server_inv hist ev w w' :
  server_inv options hist w →
  step wire options ev w = (Ok (), w') →
  server_inv options (hist ++ [ev]) w'.
Proof.
  intros Hinv Hstep.
  assert (Hl : ∃ dbg, e_listeners w' = initial_listeners dbg).
  { destruct Hinv as ([dbg He] & _). exists dbg.
    pose proof (step_touches wire options ev w) as (He' & _). rewrite Hstep in He'.
    by rewrite <- He. }
  assert (Hnum : numbered w').
  { destruct Hinv as (_ & Hn & _).
    pose proof (step_numbered wire options ev w Hn) as Hn'. by rewrite Hstep in Hn'. }
  cut (∀ p, NoDup (protos w') ∧ NoDup (immediates w') ∧
            session_inv options (hist ++ [ev]) w' p).
  { intros Hcut. split; [done|]. split; [done|].
    destruct (Hcut 0%nat) as (? & ? & _). split; [done|]. split; [done|].
    intros p. by destruct (Hcut p) as (_ & _ & ?). }
  intros p. destruct ev as [|q n d|q|q| |n d|rs].
  - by apply (step_inv_connection hist w).
  - by apply (step_inv_receive hist w).
  - by apply (step_inv_timer hist w).
  - by apply (step_inv_close hist w).
  - by apply (step_inv_immediate hist w).
  - by apply (step_inv_publish hist w).
  - destruct Hinv as (_ & _ & Hndp & Hndi & Hs).
    cbn [step] in Hstep. unfold modify in Hstep. injection Hstep as <-.
    split; [done|]. split; [done|]. by apply (session_inv_frame hist _ w).
Qed.

Lemma run_server_inv hist evs w w' :
  server_inv options hist w →
  run wire options evs w = (Ok (), w') →
  server_inv options (hist ++ evs) w'.
Proof.
  revert hist w. induction evs as [|ev evs IH]; intros hist w Hinv Hrun.
  - unfold run in Hrun. cbn in Hrun. injection Hrun as <-. by rewrite app_nil_r.
  - apply run_cons_Ok in Hrun as (w0 & Hstep & Hrun).
    replace (hist ++ ev :: evs) with ((hist ++ [ev]) ++ evs) by (by rewrite <- app_assoc).
    apply (IH _ w0); [|done]. by apply (step_server_inv hist ev w).
Qed.

Lemma initial_server_inv rs dbg : server_inv options [] (initial_world rs dbg).
Proof.
  split; [by exists dbg|]. split.
  { intros q [Hq|[Hq|Hq]]; by apply elem_of_nil in Hq. }
  split; [apply NoDup_nil_2|]. split; [apply NoDup_nil_2|].
  intros p c Hc. done.
Qed.

(** Every run of the server that returns keeps the invariant. *)
Lemma trace_server_inv rs dbg evs w :
  run wire options evs (initial_world rs dbg) = (Ok (), w) →
  server_inv options evs w.
Proof.
  intros Hrun. apply (run_server_inv [] evs (initial_world rs dbg)); [|done].
  apply initial_server_inv.
Qed.
End Invariant.

Lemma reachable_server_inv wire options w :
  reachable wire options w → ∃ hist, server_inv options hist w.
Proof. intros (rs & dbg & evs & Hrun). exists evs. by eapply trace_server_inv. Qed.

Lemma numbered_is_Some w p :
  numbered w → p ∈ protos w ∨ p ∈ immediates w ∨ outbox p w ≠ [] → is_Some (conns w !! p).
Proof.
  intros Hn Hp. apply lookup_lt_is_Some. apply Hn.
  destruct Hp as [?|[?|?]]; [by left|by right; left|right; right].
  by apply elem_of_sent_outbox.
Qed.

(** One copy of a message for each session of a roster without duplicates. *)
Lemma filter_roster_message (m : Msg) ps p :
  NoDup ps → p ∈ ps →
  (List.filter (λ pm : nat * Msg, Nat.eqb pm.1 p) (map (λ q, (q, m)) ps)).*2 = [m].
Proof.
  induction ps as [|x ps IH]; intros Hnd Hin; [by apply elem_of_nil in Hin|].
  apply NoDup_cons in Hnd as [Hx Hnd]. cbn [map List.filter fst].
  destruct (Nat.eqb_spec x p) as [->|Hne].
  - cbn [fmap list_fmap snd]. f_equal.
    change (list_fmap _ _ snd ?l) with (l.*2).
    rewrite filter_none; [done|].
    intros [q m'] (y & [= -> ->] & Hy)%list_elem_of_fmap. cbn.
    destruct (Nat.eqb_spec y p); [by subst|done].
  - apply IH; [done|]. by apply elem_of_cons in Hin as [->|Hin].
Qed.

Lemma length_filter_NoDup (l : list nat) p :
  NoDup l → (length (List.filter (Nat.eqb p) l) ≤ 1)%nat.
Proof.
  induction l as [|x l IH]; intros Hnd; [simpl; lia|].
  apply NoDup_cons in Hnd as [Hx Hnd]. cbn [List.filter].
  destruct (Nat.eqb_spec p x) as [->|Hne]; [|by apply IH].
  rewrite filter_none; [simpl; lia|].
  intros y Hy. destruct (Nat.eqb_spec x y); [by subst|done].
Qed.

(** X13: in every world the server reaches the roster has no duplicate, so
    that publishing an event of a retransmitted name sends it exactly once to
    each session of the roster. *)
Theorem roster_has_no_duplicates (wire : nat → Msg → result ()) (options : Options)
    (w : World) :
  reachable wire options w →
  NoDup (protos w) ∧
  ∀ n fields p,
    n ∈ event_names → p ∈ protos w →
    (∀ q, q ∈ protos w → wire q (mkMsg n (VObj fields)) = Ok ()) →
    outbox p (e_emit wire n (VObj fields) w).2 = outbox p w ++ [mkMsg n (VObj fields)].
Proof.
  intros Hreach.
  destruct (reachable_server_inv wire options w Hreach) as (hist & ([dbg He] & _ & Hnd & _)).
  split; [done|]. intros n fields p Hn Hp Hwire.
  rewrite (e_emit_initial wire dbg) by done.
  unfold dispatch. munfold. rewrite forEach_emit_ok by done.
  cbn [snd]. rewrite outbox_set_sent_app. by rewrite filter_roster_message.
Qed.

Lemma roster_has_no_duplicates_witness :
  outbox 1 (e_emit wire_up "leave" (VObj [("id", VStr "a"); ("room", VStr "r1")])
                   (two_sessions wire_up)).2
    = outbox 1 (two_sessions wire_up)
        ++ [mkMsg "leave" (VObj [("id", VStr "a"); ("room", VStr "r1")])].
Proof.
  refine (proj2 (roster_has_no_duplicates wire_up default_options (two_sessions wire_up)
                   two_sessions_reachable)
                "leave" [("id", VStr "a"); ("room", VStr "r1")] 1%nat _ _ (λ _ _, eq_refl)).
  - compute_done.
  - vm_compute. right. left.
Defined.

(** X14: the first message on every accepted connection is [reqAuth], with
    [true] exactly when a password is configured; a session number that no
    connection was given has been sent nothing. *)
Theorem first_message_is_reqAuth (wire : nat → Msg → result ()) (options : Options)
    (w : World) (p : nat) :
  reachable wire options w →
  ((p < length (conns w))%nat →
   ∃ rest, outbox p w = mkMsg "reqAuth" (VBool (truthy (password options))) :: rest) ∧
  ((length (conns w) ≤ p)%nat → outbox p w = []).
Proof.
  intros Hreach.
  destruct (reachable_server_inv wire options w Hreach) as (hist & (_ & Hn & _ & _ & Hs)).
  split.
  - intros [c Hc]%lookup_lt_is_Some. by destruct (Hs p c Hc) as (S1 & _).
  - intros Hp. destruct (outbox p w) eqn:Ho; [done|].
    assert (Hsome : is_Some (conns w !! p)).
    { apply numbered_is_Some; [done|]. right; right. by rewrite Ho. }
    apply lookup_lt_is_Some in Hsome. lia.
Qed.

Lemma first_message_is_reqAuth_witness :
  ∃ rest, outbox 1 (two_sessions wire_up)
            = mkMsg "reqAuth" (VBool (truthy (password default_options))) :: rest.
Proof.
  refine (proj1 (first_message_is_reqAuth wire_up default_options (two_sessions wire_up) 1
                   two_sessions_reachable) _).
  vm_compute. lia.
Defined.

Lemma sent_password_false options p evs :
  (∀ pwd, Receive p "password" pwd ∈ evs → accepts options pwd = false) →
  sent_password options p evs = false.
Proof.
  intros Hno. destruct (sent_password options p evs) eqn:Hsp; [|done].
  unfold sent_password in Hsp. apply existsb_exists in Hsp as (ev & Hin & Hev).
  destruct ev as [|q n pwd| | | | |]; try done.
  apply andb_prop in Hev as [[Hq%Nat.eqb_eq Hn%String.eqb_eq]%andb_prop Hacc].
  subst. apply list_elem_of_In in Hin. by rewrite (Hno pwd Hin) in Hacc.
Qed.

Lemma sent_password_true options p evs :
  sent_password options p evs = true →
  ∃ pwd, Receive p "password" pwd ∈ evs ∧ accepts options pwd = true.
Proof.
  unfold sent_password. intros (ev & Hin & Hev)%existsb_exists.
  destruct ev as [|q n pwd| | | | |]; try done.
  apply andb_prop in Hev as [[Hq%Nat.eqb_eq Hn%String.eqb_eq]%andb_prop Hacc].
  subst. exists pwd. split; [by apply list_elem_of_In|done].
Qed.

(** X15: a session is in the roster only if it sent a [password] message,
    and, with a password configured, one that carried this very password
    (strict equality). *)
Theorem roster_sessions_sent_password (wire : nat → Msg → result ()) (options : Options)
    (rooms : list (string * Room)) (debug_enabled : bool) (evs : list Event)
    (w : World) (p : nat) :
  run wire options evs (initial_world rooms debug_enabled) = (Ok (), w) →
  p ∈ protos w →
  ∃ pwd, Receive p "password" pwd ∈ evs ∧
         (truthy (password options) = true → strict_eq pwd (password options) = true).
Proof.
  intros Hrun Hp.
  destruct (trace_server_inv wire options _ _ _ _ Hrun) as (_ & Hn & _ & _ & Hs).
  destruct (numbered_is_Some w p Hn (or_introl Hp)) as [c Hc].
  destruct (Hs p c Hc) as (_ & _ & S3 & _).
  destruct (sent_password options p evs) eqn:Hsp; [|by destruct (S3 eq_refl)].
  apply sent_password_true in Hsp as (pwd & Hin & Hacc). exists pwd. split; [done|].
  intros Ht. unfold accepts in Hacc. by rewrite Ht in Hacc.
Qed.

Lemma roster_sessions_sent_password_witness :
  ∃ pwd, Receive 0 "password" pwd ∈ right_password ∧
         (truthy (password secret_options) = true →
          strict_eq pwd (password secret_options) = true).
Proof.
  refine (roster_sessions_sent_password wire_up secret_options [] false right_password
            (run wire_up secret_options right_password (initial_world [] false)).2 0%nat _ _).
  - vm_compute. reflexivity.
  - vm_compute. left.
Defined.

(** X16: a session that sent no [password] message that admits (none at
    all with no password configured, none that carries the configured
    password otherwise) is not in the roster, has no [init] pending, and has
    been sent nothing but [reqAuth] and the two refusals: no snapshot and no
    event of the hub. *)
Theorem unauthenticated_session_gets_no_data (wire : nat → Msg → result ())
    (options : Options) (rooms : list (string * Room)) (debug_enabled : bool)
    (evs : list Event) (w : World) (p : nat) :
  run wire options evs (initial_world rooms debug_enabled) = (Ok (), w) →
  (∀ pwd, Receive p "password" pwd ∈ evs → accepts options pwd = false) →
  (p ∉ protos w) ∧ (p ∉ immediates w) ∧
  ∀ m, m ∈ outbox p w →
       m = mkMsg "reqAuth" (VBool (truthy (password options))) ∨
       m = mkMsg "auth" (VObj [("authorized", VBool false); ("error", VStr "TIMEOUT")]) ∨
       m = mkMsg "auth" (VObj [("authorized", VBool false);
                               ("error", VStr "INVALID_PASSWORD")]).
Proof.
  intros Hrun Hno%sent_password_false.
  destruct (trace_server_inv wire options _ _ _ _ Hrun) as (_ & Hn & _ & _ & Hs).
  destruct (conns w !! p) as [c|] eqn:Hc.
  - destruct (Hs p c Hc) as (_ & _ & S3 & _). destruct (S3 Hno) as (? & ? & Hpre).
    split; [done|]. split; [done|]. intros m Hm. rewrite Forall_forall in Hpre.
    exact (Hpre m Hm).
  - assert (Hnone : ¬ (p ∈ protos w ∨ p ∈ immediates w ∨ outbox p w ≠ [])).
    { intros [c Hc']%(numbered_is_Some w p Hn). congruence. }
    split; [tauto|]. split; [tauto|]. intros m Hm.
    destruct (outbox p w) eqn:Ho; [by apply elem_of_nil in Hm|]. destruct Hnone. by right; right.
Qed.

Lemma unauthenticated_session_gets_no_data_witness :
  0%nat ∉ protos (run wire_up secret_options wrong_guess (initial_world [] false)).2.
Proof.
  refine (proj1 (unauthenticated_session_gets_no_data wire_up secret_options [] false
                   wrong_guess
                   (run wire_up secret_options wrong_guess (initial_world [] false)).2
                   0%nat _ _)).
  - vm_compute. reflexivity.
  - intros pwd Hin. unfold wrong_guess, a_joins_r1 in Hin.
    repeat (apply elem_of_cons in Hin as [Hin|Hin]; [try discriminate Hin|]).
    + by injection Hin as ->.
    + by apply elem_of_nil in Hin.
Defined.

(** X17: a session is sent [init] at most once, at most one [init] is
    pending for it, and none is pending once it was sent. *)
Theorem init_sent_at_most_once (wire : nat → Msg → result ()) (options : Options)
    (w : World) (p : nat) :
  reachable wire options w →
  (length (List.filter is_init (outbox p w))
   + length (List.filter (Nat.eqb p) (immediates w)) ≤ 1)%nat.
Proof.
  intros Hreach.
  destruct (reachable_server_inv wire options w Hreach) as (hist & (_ & Hn & _ & Hndi & Hs)).
  pose proof (length_filter_NoDup (immediates w) p Hndi) as Hcount.
  destruct (decide (p ∈ immediates w)) as [Hin|Hout].
  - destruct (numbered_is_Some w p Hn (or_intror (or_introl Hin))) as [c Hc].
    destruct (Hs p c Hc) as (_ & _ & _ & S4 & _).
    rewrite filter_init_none by (by apply S4). simpl. lia.
  - rewrite (filter_none (Nat.eqb p) (immediates w)).
    + destruct (conns w !! p) as [c|] eqn:Hc.
      * destruct (Hs p c Hc) as (_ & _ & _ & _ & S5). simpl. lia.
      * destruct (outbox p w) eqn:Ho; [simpl; lia|].
        assert (Hsome : is_Some (conns w !! p)).
        { apply numbered_is_Some; [done|]. right; right. by rewrite Ho. }
        destruct Hsome. congruence.
    + intros x Hx. destruct (Nat.eqb_spec p x); [by subst|done].
Qed.

Lemma init_sent_at_most_once_witness :
  (length (List.filter is_init (outbox 0 (two_sessions wire_up)))
   + length (List.filter (Nat.eqb 0) (immediates (two_sessions wire_up))) ≤ 1)%nat.
Proof.
  exact (init_sent_at_most_once wire_up default_options (two_sessions wire_up) 0%nat
           two_sessions_reachable).
Defined.

(** X18: the server does not listen to an admitted session: whatever
    message a session of the roster sends, a second [password] included,
    nothing happens. *)
Theorem admitted_session_is_not_heard (wire : nat → Msg → result ()) (options : Options)
    (w : World) (p : nat) (name : string) (data : Val) :
  reachable wire options w →
  p ∈ protos w →
  step wire options (Receive p name data) w = (Ok (), w).
Proof.
  intros Hreach Hp.
  destruct (reachable_server_inv wire options w Hreach) as (hist & (_ & Hn & _ & _ & Hs)).
  cbn [step]. apply proto_receive_unheard. intros c l Hc Hl.
  destruct (Hs p c Hc) as (_ & [Hnil|(_ & Hout & _)] & _); [|done].
  rewrite Hnil in Hl. by apply elem_of_nil in Hl.
Qed.

Lemma admitted_session_is_not_heard_witness :
  step wire_up default_options (Receive 1 "password" (VStr "again")) (two_sessions wire_up)
    = (Ok (), two_sessions wire_up).
Proof.
  refine (admitted_session_is_not_heard wire_up default_options (two_sessions wire_up)
            1%nat "password" (VStr "again") two_sessions_reachable _).
  vm_compute. right. left.
Defined.

(** ** The [init] message *)

Lemma run_immediate_init wire dbg w p later :
  e_listeners w = initial_listeners dbg →
  immediates w = p :: later →
  wire p (mkMsg "init" (State_val (getState (rooms w)))) = Ok () →
  run_immediate wire w
    = (Ok (), set_sent (λ s, s ++ [(p, mkMsg "init" (State_val (getState (rooms w))))])
                       (set_immediates (λ _, later) w)).
Proof.
  intros He Hq Hw. unfold run_immediate. munfold. rewrite Hq.
  unfold addProto_immediate. munfold. cbn [rooms set_immediates].
  rewrite (e_emit_client wire dbg) by done.
  by rewrite proto_emit_ok.
Qed.

(** X19: the callback [addProto] leaves with [setImmediate] sends [init] to
    the session it was left for and to no one else (the [client] event it
    publishes first has no retransmitter).  The snapshot is that of the rooms
    when the callback runs, not when the session was admitted; and [init] is
    sent even when the connection was closed in between. *)
Theorem init_carries_current_snapshot (wire : nat → Msg → result ()) (options : Options)
    (w : World) (p : nat) (later : list nat) :
  reachable wire options w →
  immediates w = p :: later →
  (∀ m, wire p m = Ok ()) →
  step wire options Immediate w
    = (Ok (), set_sent (λ s, s ++ [(p, mkMsg "init" (State_val (getState (rooms w))))])
                       (set_immediates (λ _, later) w)) ∧
  (∀ rs, run wire options [HubUpdate rs; Immediate] w
         = (Ok (), set_sent (λ s, s ++ [(p, mkMsg "init" (State_val (getState rs)))])
                            (set_immediates (λ _, later) (set_rooms (λ _, rs) w)))) ∧
  run wire options [Close p; Immediate] w
    = (Ok (), set_sent (λ s, s ++ [(p, mkMsg "init" (State_val (getState (rooms w))))])
                       (set_immediates (λ _, later) (removeProto p w).2)).
Proof.
  intros [dbg He]%reachable_listeners Hq Hwire. split; [|split].
  - cbn [step]. by apply (run_immediate_init wire dbg).
  - intros rs. unfold run. cbn [forEach step]. munfold.
    by rewrite (run_immediate_init wire dbg _ p later).
  - unfold run. cbn [forEach step]. unfold removeProto. munfold.
    by rewrite (run_immediate_init wire dbg _ p later).
Qed.

Lemma init_carries_current_snapshot_witness :
  run wire_up default_options [HubUpdate inherited_names; Immediate] (one_pending wire_up)
    = (Ok (), set_sent (λ s, s ++ [(0%nat, mkMsg "init"
                                            (State_val (getState inherited_names)))])
                       (set_immediates (λ _, [])
                          (set_rooms (λ _, inherited_names) (one_pending wire_up)))).
Proof.
  refine (proj1 (proj2 (init_carries_current_snapshot wire_up default_options
                          (one_pending wire_up) 0%nat [] _ _ (λ _, eq_refl)))
                inherited_names).
  - apply one_pending_reachable. by left.
  - vm_compute. reflexivity.
Defined.

(** The snapshot that [init] carries then: the rooms named [toString] and
    [constructor] are not in it, their members are. *)
Example init_of_inherited_names :
  State_val (getState inherited_names)
    = VObj [("rooms", VArr [VObj [("name", VStr "r1");
                                  ("sockets", VArr [VStr "a"; VStr "b"])]]);
            ("sockets", VArr [VStr "z"; VStr "y"; VStr "a"; VStr "b"])].
Proof. vm_compute. reflexivity. Qed.

(** X20: when the send of [init] throws, the session is sent [error] with
    the error's message instead and the callback returns; the session stays
    in the roster.  When that send throws too, its error is caught by
    nothing. *)
Theorem init_failure_is_reported (wire : nat → Msg → result ()) (options : Options)
    (w : World) (p : nat) (later : list nat) (err : Exn) :
  reachable wire options w →
  immediates w = p :: later →
  wire p (mkMsg "init" (State_val (getState (rooms w)))) = Throw err →
  (wire p (mkMsg "error" (VStr (message err))) = Ok () →
   step wire options Immediate w
     = (Ok (), set_sent (λ s, s ++ [(p, mkMsg "error" (VStr (message err)))])
                        (set_immediates (λ _, later) w))) ∧
  (∀ err', wire p (mkMsg "error" (VStr (message err))) = Throw err' →
   step wire options Immediate w = (Throw err', set_immediates (λ _, later) w)) ∧
  protos (step wire options Immediate w).2 = protos w.
Proof.
  intros [dbg He]%reachable_listeners Hq Hw.
  assert (Hstep : step wire options Immediate w
            = proto_emit wire p "error" (VStr (message err))
                (set_immediates (λ _, later) w)).
  { cbn [step]. unfold run_immediate. munfold. rewrite Hq.
    unfold addProto_immediate. munfold. cbn [rooms set_immediates].
    rewrite (e_emit_client wire dbg) by done.
    by rewrite (proto_emit_throw _ _ _ _ _ err). }
  rewrite Hstep. split; [|split].
  - intros Hok. by rewrite proto_emit_ok.
  - intros err' Herr. by rewrite (proto_emit_throw _ _ _ _ _ err').
  - by destruct (proto_emit_only_sends wire p "error" (VStr (message err))
                   (set_immediates (λ _, later) w)) as (_ & _ & ? & _).
Qed.

Lemma init_failure_is_reported_witness :
  step wire_no_init default_options Immediate (one_pending wire_no_init)
    = (Ok (), set_sent (λ s, s ++ [(0%nat, mkMsg "error" (VStr "write failed"))])
                       (set_immediates (λ _, []) (one_pending wire_no_init))).
Proof.
  refine (proj1 (init_failure_is_reported wire_no_init default_options
                   (one_pending wire_no_init) 0%nat [] (Error "write failed") _ _ _) _).
  - apply one_pending_reachable. by right.
  - vm_compute. reflexivity.
  - reflexivity.
  - reflexivity.
Defined.

(** ** The debug taps *)

(** X21: with the debug taps on, publishing an event of a retransmitted
    name without a payload ([undefined] or [null]) throws a [TypeError] in
    the tap, before the retransmitter runs: nothing is sent.  Without the
    taps, and with any other payload, publishing is dispatching. *)
Theorem debug_taps_need_a_payload (wire : nat → Msg → result ()) (options : Options)
    (rooms : list (string * Room)) (debug_enabled : bool) (evs : list Event)
    (w : World) (n : string) (d : Val) :
  run wire options evs (initial_world rooms debug_enabled) = (Ok (), w) →
  n ∈ event_names →
  match d with
  | VUndefined | VNull =>
      if debug_enabled then ∃ msg, e_emit wire n d w = (Throw (TypeError msg), w)
      else e_emit wire n d w = dispatch wire n d w
  | _ => e_emit wire n d w = dispatch wire n d w
  end.
Proof.
  intros Hrun Hn.
  assert (He : e_listeners w = initial_listeners debug_enabled).
  { pose proof (run_e_listeners wire options evs (initial_world rooms debug_enabled)) as He.
    by rewrite Hrun in He. }
  unfold e_emit. munfold. rewrite He, filter_initial_listeners by done.
  destruct debug_enabled, d; cbn [app forEach snd run_handler]; munfold;
    try (by eexists);
    by destruct (dispatch wire n _ w) as [[[]|e] w'].
Qed.

Lemma debug_taps_need_a_payload_witness :
  ∃ msg, e_emit wire_up "string" VUndefined
           (run wire_up default_options [Connection] (initial_world [] true)).2
         = (Throw (TypeError msg),
            (run wire_up default_options [Connection] (initial_world [] true)).2).
Proof.
  refine (debug_taps_need_a_payload wire_up default_options [] true [Connection]
            (run wire_up default_options [Connection] (initial_world [] true)).2
            "string" VUndefined _ _).
  - vm_compute. reflexivity.
  - left.
Defined.

(** ** The timer of a closed connection *)

(** X22: closing a connection does not cancel its auth timer.  When the
    timer expires afterwards, [auth {authorized: false, error: "TIMEOUT"}]
    is sent on the closed connection, which stays out of the roster, and its
    socket is ended. *)
Theorem close_leaves_timer_armed (wire : nat → Msg → result ()) (options : Options)
    (w : World) (p : nat) (c : Conn) (t : Z) :
  conns w !! p = Some c →
  conn_timeout c = Some t →
  wire p auth_timeout = Ok () →
  ∃ w1 w2,
    step wire options (Close p) w = (Ok (), w1) ∧
    conn_timeout <$> conns w1 !! p = Some (Some t) ∧
    step wire options (TimerFires p) w1 = (Ok (), w2) ∧
    outbox p w2 = outbox p w ++ [auth_timeout] ∧
    (p ∉ protos w2) ∧
    conn_ended <$> conns w2 !! p = Some true.
Proof.
  intros Hc Ht Hw. destruct c as [ls t' a e]. cbn in Ht. subst t'.
  exists (removeProto p w).2.
  assert (Hc1 : conns (removeProto p w).2 !! p = Some (mkConn [] (Some t) a e)).
  { unfold removeProto. munfold. wsimpl. by rewrite list_lookup_alter_eq, Hc. }
  destruct (timer_expired wire options p _ _ _ _ _ Hc1 Hw)
    as (w2 & Hstep & Hp2 & _ & Ho2 & Hc2).
  exists w2. split; [done|]. split; [by rewrite Hc1|]. split; [done|].
  split; [done|]. split; [|by rewrite Hc2].
  rewrite Hp2. unfold removeProto. munfold. wsimpl.
  rewrite list_elem_of_In, filter_In. intros [_ Hq]. by rewrite Nat.eqb_refl in Hq.
Qed.

Lemma close_leaves_timer_armed_witness :
  ∃ w1 w2,
    step wire_up secret_options (Close 0) one_waiting = (Ok (), w1) ∧
    conn_timeout <$> conns w1 !! 0%nat = Some (Some 1500) ∧
    step wire_up secret_options (TimerFires 0) w1 = (Ok (), w2) ∧
    outbox 0 w2 = outbox 0 one_waiting ++ [auth_timeout] ∧
    (0%nat ∉ protos w2) ∧
    conn_ended <$> conns w2 !! 0%nat = Some true.
Proof.
  refine (close_leaves_timer_armed wire_up secret_options one_waiting 0%nat
            (mkConn [("password", PasswordCheck)] (Some 1500) false false) 1500 _ _ _).
  - vm_compute. reflexivity.
  - reflexivity.
  - reflexivity.
Defined.

(** ** The timer of an admitted session, and the open mode *)

(** X25: the timer of an admitted session is not pending: for a session of
    the roster the expiry of the auth timer does nothing.  The password that
    was accepted cancelled it, or it had expired before. *)
Theorem admitted_session_timer_is_disarmed (wire : nat → Msg → result ())
    (options : Options) (w : World) (p : nat) :
  reachable wire options w →
  p ∈ protos w →
  conn_timeout <$> conns w !! p = Some None ∧
  step wire options (TimerFires p) w = (Ok (), w).
Proof.
  intros Hreach Hp.
  destruct (reachable_server_inv wire options w Hreach) as (hist & (_ & Hn & _ & _ & Hs)).
  destruct (numbered_is_Some w p Hn (or_introl Hp)) as [c Hc].
  destruct (Hs p c Hc) as (_ & _ & _ & _ & _ & S6 & _).
  split; [rewrite Hc; cbn; f_equal; apply S6; by left|].
  cbn [step]. apply timer_fires_disarmed. intros c' Hc'. rewrite Hc in Hc'.
  injection Hc' as <-. apply S6. by left.
Qed.

Lemma admitted_session_timer_is_disarmed_witness :
  step wire_up default_options (TimerFires 0) (two_sessions wire_up)
    = (Ok (), two_sessions wire_up).
Proof.
  refine (proj2 (admitted_session_timer_is_disarmed wire_up default_options
                   (two_sessions wire_up) 0%nat two_sessions_reachable _)).
  vm_compute. left.
Defined.

(** X26: with no password configured the server sends no [auth] message and
    never has a timer pending: the expiry of a timer does nothing, whatever
    the session. *)
Theorem open_mode_sends_no_auth (wire : nat → Msg → result ()) (options : Options)
    (w : World) (p : nat) :
  reachable wire options w →
  truthy (password options) = false →
  (∀ m, m ∈ outbox p w → msg_name m ≠ "auth") ∧
  step wire options (TimerFires p) w = (Ok (), w).
Proof.
  intros Hreach Htr.
  destruct (reachable_server_inv wire options w Hreach) as (hist & (_ & Hn & _ & _ & Hs)).
  destruct (conns w !! p) as [c|] eqn:Hc.
  - destruct (Hs p c Hc) as (_ & _ & _ & _ & _ & _ & S7). destruct (S7 Htr) as [Hnone Hna].
    split; [intros m Hm; rewrite Forall_forall in Hna; by apply Hna|].
    cbn [step]. apply timer_fires_disarmed. intros c' Hc'. by simplify_eq.
  - split.
    + intros m Hm. destruct (outbox p w) eqn:Ho; [by apply elem_of_nil in Hm|].
      assert (Hsome : is_Some (conns w !! p)).
      { apply numbered_is_Some; [done|]. right; right. by rewrite Ho. }
      destruct Hsome. congruence.
    + cbn [step]. apply timer_fires_disarmed. congruence.
Qed.

Lemma open_mode_sends_no_auth_witness :
  step wire_up default_options (TimerFires 1) (one_pending wire_up)
    = (Ok (), one_pending wire_up).
Proof.
  refine (proj2 (open_mode_sends_no_auth wire_up default_options (one_pending wire_up)
                   1%nat _ eq_refl)).
  apply one_pending_reachable. by left.
Defined.

(** ** Starting the server *)

Lemma server_run_Ok_cons ev evs s s' :
  forEach server_emit (ev :: evs) s = (Ok (), s') →
  ∃ s1, server_emit ev s = (Ok (), s1) ∧ forEach server_emit evs s1 = (Ok (), s').
Proof.
  cbn [forEach]. unfold mbind, M_bind.
  destruct (server_emit ev s) as [[[]|e] s1]; [eauto|done].
Qed.

(** The server after a list of events that were all handled. *)
Lemma server_run_state evs s s' :
  forEach server_emit evs s = (Ok (), s') →
  connection_handlers s'
    = (connection_handlers s
       + if once_listening s && existsb is_listening evs then 1 else 0)%nat ∧
  (length (List.filter is_error evs) ≤ if once_error s then 1 else 0)%nat ∧
  (promise s ≠ Pending → promise s' = promise s).
Proof.
  revert s. induction evs as [|ev evs IH]; intros s Hrun.
  - cbn in Hrun. injection Hrun as <-. cbn. rewrite andb_false_r.
    split; [lia|]. split; [destruct (once_error s); lia|done].
  - apply server_run_Ok_cons in Hrun as (s1 & Hstep & Hrun).
    destruct (IH s1 Hrun) as (Hh & Herr & Hpr).
    destruct ev as [|err]; cbn [server_emit] in Hstep;
      cbn [existsb is_listening is_error List.filter orb].
    + destruct (once_listening s) eqn:Hl; injection Hstep as <-;
        cbn [connection_handlers once_listening once_error promise andb] in *.
      * split; [rewrite Hh; lia|]. split; [done|].
        intros Hp. rewrite Hpr; destruct (promise s); done.
      * rewrite Hl in Hh. done.
    + destruct (once_error s) eqn:He; [|done]. injection Hstep as <-.
      cbn [connection_handlers once_listening once_error promise andb length] in *.
      split; [done|]. split; [lia|].
      intros Hp. rewrite Hpr; destruct (promise s); done.
Qed.

(** The three ways the executor of [initServer] ends. *)
Lemma initServer_cases listen options :
  (∃ port host, listen_args options = Ok (port, host) ∧ listen port host = Ok () ∧
     initServer listen options = mkNetServer (Some (port, host)) true true 0 Pending) ∨
  (∃ err, (listen_args options = Throw err ∨
           ∃ port host, listen_args options = Ok (port, host) ∧
                        listen port host = Throw err) ∧
     once_listening (initServer listen options) = false ∧
     once_error (initServer listen options) = false ∧
     connection_handlers (initServer listen options) = 0%nat ∧
     promise (initServer listen options) = Rejected err).
Proof.
  unfold initServer. destruct (listen_args options) as [[port host]|err] eqn:Ha.
  - destruct (listen port host) as [[]|err] eqn:Hl.
    + left. by exists port, host.
    + right. exists err. split; [right; by exists port, host|done].
  - right. exists err. split; [by left|done].
Qed.

(** X23: [initServer], for server events that were all handled.  When the
    executor of the promise runs to its end, the [connection] handler is
    installed by the first [listening] and never a second time; the promise
    is settled by the first event, resolved by [listening] and rejected with
    its error by [error], and keeps that outcome; and at most one of the
    events was an [error].  When [listen] throws (or the options are
    [null]), the promise is rejected with the error thrown and stays so, no
    [connection] handler is ever installed, and none of the events was an
    [error]. *)
Theorem initServer_settles_once (listen : Val → Val → result ()) (options : Val)
    (evs : list ServerEvent) (s : NetServer) :
  forEach server_emit evs (initServer listen options) = (Ok (), s) →
  (∀ port host, listen_args options = Ok (port, host) → listen port host = Ok () →
     connection_handlers s = (if existsb is_listening evs then 1 else 0)%nat ∧
     promise s = match evs with
                 | [] => Pending
                 | Listening :: _ => Resolved
                 | ServerError err :: _ => Rejected err
                 end ∧
     (length (List.filter is_error evs) ≤ 1)%nat) ∧
  (∀ err, listen_args options = Throw err ∨
          (∃ port host, listen_args options = Ok (port, host) ∧
                        listen port host = Throw err) →
     connection_handlers s = 0%nat ∧ promise s = Rejected err ∧
     List.filter is_error evs = []).
Proof.
  intros Hrun. destruct (server_run_state evs _ s Hrun) as (Hh & Herr & Hkeep).
  destruct (initServer_cases listen options)
    as [(port & host & Ha & Hl & Hinit)|(err & Hwhy & Hol & Hoe & Hch & Hpr)].
  - split.
    + intros port' host' Ha' Hl'. rewrite Hinit in Hh, Herr, Hrun. cbn in Hh, Herr.
      split; [exact Hh|]. split; [|exact Herr].
      destruct evs as [|ev evs]; [cbn in Hrun; by injection Hrun as <-|].
      apply server_run_Ok_cons in Hrun as (s1 & Hstep & Hrun).
      destruct (server_run_state evs s1 s Hrun) as (_ & _ & Hpr).
      destruct ev as [|err]; cbn in Hstep; injection Hstep as <-; by rewrite Hpr.
    + intros err [He|(port' & host' & Ha' & Hl')]; congruence.
  - assert (Hsame : ∀ err', listen_args options = Throw err' ∨
              (∃ port host, listen_args options = Ok (port, host) ∧
                            listen port host = Throw err') → err' = err).
    { intros err' [He'|(p1 & h1 & Ha1 & Hl1)]; destruct Hwhy as [He|(p2 & h2 & Ha2 & Hl2)];
        congruence. }
    split.
    + intros port host Ha Hl. destruct Hwhy as [He|(p2 & h2 & Ha2 & Hl2)]; congruence.
    + intros err' ->%Hsame. rewrite Hol, Hch in Hh. rewrite Hoe in Herr.
      split; [exact Hh|]. split.
      * rewrite Hkeep; [done|]. by rewrite Hpr.
      * destruct (List.filter is_error evs); [done|]. simpl in Herr. lia.
Qed.

Lemma initServer_settles_once_witness :
  connection_handlers
    (forEach server_emit [ServerError (Error "EADDRINUSE"); Listening; Listening]
             (initServer listen_in_range (VObj [("port", VNum 80)]))).2 = 1%nat ∧
  promise
    (forEach server_emit [ServerError (Error "EADDRINUSE"); Listening; Listening]
             (initServer listen_in_range (VObj [("port", VNum 80)]))).2
    = Rejected (Error "EADDRINUSE") ∧
  promise
    (forEach server_emit [Listening]
             (initServer listen_in_range (VObj [("port", VNum 70000)]))).2
    = Rejected (Error "ERR_SOCKET_BAD_PORT").
Proof.
  destruct (initServer_settles_once listen_in_range (VObj [("port", VNum 80)])
              [ServerError (Error "EADDRINUSE"); Listening; Listening] _ eq_refl)
    as [Hok _].
  destruct (Hok (VNum 80) (VStr "localhost") eq_refl eq_refl) as (Hh & Hp & _).
  destruct (initServer_settles_once listen_in_range (VObj [("port", VNum 70000)])
              [Listening] _ eq_refl)
    as [_ Hbad].
  destruct (Hbad (Error "ERR_SOCKET_BAD_PORT")) as (_ & Hp' & _).
  { right. by exists (VNum 70000), (VStr "localhost"). }
  split; [exact Hh|]. split; [exact Hp|exact Hp'].
Defined.

Lemma server_run_no_error evs s :
  Forall (λ ev, is_error ev = false) evs →
  ∃ s', forEach server_emit evs s = (Ok (), s') ∧ once_error s' = once_error s.
Proof.
  intros Hall. revert s. induction Hall as [|ev evs Hev _ IH]; intros s; [by eexists|].
  destruct ev as [|err]; [|done]. cbn [forEach]. unfold mbind, M_bind, server_emit at 1.
  destruct (once_listening s); [|apply IH].
  destruct (IH (mkNetServer (listen_on s) false (once_error s)
                            (S (connection_handlers s)) (resolve (promise s))))
    as (s' & -> & He).
  by eexists.
Qed.

(** X24: when the executor of [initServer] runs to its end, only the first
    [error] of the server finds a listener.  It is handled, also when it
    comes after [listening] and changes nothing; the next one is thrown by
    the emitter.  When [listen] throws, no listener was registered: the
    first [error] of the server is thrown by the emitter. *)
Theorem second_server_error_is_thrown (listen : Val → Val → result ()) (options : Val)
    (port host : Val) (pre mid post : list ServerEvent) (e1 e2 : Exn) :
  listen_args options = Ok (port, host) →
  Forall (λ ev, is_error ev = false) pre →
  Forall (λ ev, is_error ev = false) mid →
  (listen port host = Ok () →
     (∃ s, forEach server_emit (pre ++ ServerError e1 :: mid) (initServer listen options)
             = (Ok (), s)) ∧
     (forEach server_emit (pre ++ ServerError e1 :: mid ++ ServerError e2 :: post)
              (initServer listen options)).1 = Throw e2) ∧
  (∀ err, listen port host = Throw err →
     (forEach server_emit (pre ++ ServerError e1 :: post) (initServer listen options)).1
       = Throw e1).
Proof.
  intros Ha Hpre Hmid.
  destruct (server_run_no_error pre (initServer listen options) Hpre) as (s1 & Hrun1 & He1).
  split.
  - intros Hl. unfold initServer in He1. rewrite Ha, Hl in He1. cbn [once_error] in He1.
    set (s2 := mkNetServer (listen_on s1) (once_listening s1) false
                           (connection_handlers s1) (reject e1 (promise s1))).
    assert (Hstep : server_emit (ServerError e1) s1 = (Ok (), s2)).
    { cbn [server_emit]. by rewrite He1. }
    destruct (server_run_no_error mid s2 Hmid) as (s3 & Hrun3 & He3).
    cbn [once_error s2] in He3. split.
    + exists s3. rewrite forEach_app, Hrun1. cbn [forEach]. unfold mbind, M_bind.
      by rewrite Hstep.
    + rewrite forEach_app, Hrun1. cbn [forEach]. unfold mbind, M_bind. rewrite Hstep.
      fold (forEach server_emit (mid ++ ServerError e2 :: post)).
      rewrite forEach_app, Hrun3. cbn [forEach]. unfold mbind, M_bind, server_emit at 1.
      by rewrite He3.
  - intros err Hl. unfold initServer in He1. rewrite Ha, Hl in He1. cbn [once_error] in He1.
    rewrite forEach_app, Hrun1. cbn [forEach]. unfold mbind, M_bind, server_emit at 1.
    by rewrite He1.
Qed.

Lemma second_server_error_is_thrown_witness :
  (forEach server_emit ([Listening] ++ ServerError (Error "EMFILE") :: []
                          ++ ServerError (Error "ECONNRESET") :: [])
           (initServer listen_in_range VUndefined)).1 = Throw (Error "ECONNRESET").
Proof.
  refine (proj2 (proj1 (second_server_error_is_thrown listen_in_range VUndefined
                          (VNum 9042) (VStr "localhost") [Listening] [] []
                          (Error "EMFILE") (Error "ECONNRESET") eq_refl _ _) eq_refl)).
  - by repeat constructor.
  - constructor.
Defined.
